(** * Indian company explorer: the two-phase search index

    A shallow embedding of [src/app/actions.ts] (the server actions:
    [buildIndex], [searchCompanies]) and of [src/scripts/build-index.ts]
    (the offline snapshot builder), with the properties of the search
    pipeline proved about it.

    Conventions of the embedding.
    - A JavaScript string is a [string] of code units below 256 (the
      Latin-1 range: the file names, cells and queries of the corpus); case
      mapping, white space and the case-insensitive regular expressions are
      JavaScript's on that range.
    - A JavaScript number that counts rows is a [Z].
    - A parsed row (the object [XLSX.utils.sheet_to_json] yields, or the
      [row] object the detail phase fills from a header) is a
      [gmap string string]; a missing key reads as [undefined], that is
      [None].
    - The file system, the session and the request headers are read through
      an environment record [Env]; the module-level variables
      [GLOBAL_INDEX] and [IS_INDEXING], the rate-limit store and the trace
      of external calls form the state [World], passed explicitly.
    - Console output is not part of the model. *)

From Stdlib Require Import ZArith Lia Bool List Ascii String.
From stdpp Require Import base option list gmap strings pretty.

Local Open Scope string_scope.
Local Open Scope list_scope.
Local Open Scope Z_scope.

(** ** JavaScript string built-ins *)

(** The code units with a lower-case form: [A]..[Z], and the capital
    letters of the upper half, 192..222 but for the multiplication sign
    215. *)
Definition isUpperUnit (c : ascii) : bool :=
  let n := nat_of_ascii c in
  ((Nat.leb 65 n && Nat.leb n 90) ||
   (Nat.leb 192 n && Nat.leb n 222 && negb (Nat.eqb n 215)))%bool.

(** The lower-case form lies 32 code units above. *)
Definition lowerUnit (c : ascii) : ascii :=
  if isUpperUnit c then ascii_of_nat (nat_of_ascii c + 32) else c.

(** [String.prototype.toLowerCase]. *)
Fixpoint toLowerCase (s : string) : string :=
  match s with
  | EmptyString => EmptyString
  | String c s' => String (lowerUnit c) (toLowerCase s')
  end.

(** [String.prototype.startsWith]. *)
Fixpoint startsWith (s pat : string) : bool :=
  match pat, s with
  | EmptyString, _ => true
  | String _ _, EmptyString => false
  | String p pat', String c s' => (Ascii.eqb p c && startsWith s' pat')%bool
  end.

(** [String.prototype.includes]: substring containment. *)
Fixpoint includes (s pat : string) : bool :=
  (startsWith s pat ||
   match s with
   | EmptyString => false
   | String _ s' => includes s' pat
   end)%bool.

Fixpoint revString (s acc : string) : string :=
  match s with
  | EmptyString => acc
  | String c s' => revString s' (String c acc)
  end.

(** [String.prototype.endsWith]. *)
Definition endsWith (s suf : string) : bool :=
  startsWith (revString s EmptyString) (revString suf EmptyString).

(** White space and line terminators of [String.prototype.trim]: TAB, LF,
    VT, FF, CR, SPACE and the no-break space 160. *)
Definition isWhiteSpace (c : ascii) : bool :=
  let n := nat_of_ascii c in
  ((Nat.leb 9 n && Nat.leb n 13) || Nat.eqb n 32 || Nat.eqb n 160)%bool.

Fixpoint trimStart (s : string) : string :=
  match s with
  | EmptyString => EmptyString
  | String c s' => if isWhiteSpace c then trimStart s' else s
  end.

(** [String.prototype.trim]. *)
Definition trim (s : string) : string :=
  revString (trimStart (revString (trimStart s) EmptyString)) EmptyString.

(** A JavaScript string is falsy exactly when it is empty. *)
Definition truthy (s : string) : bool :=
  match s with EmptyString => false | String _ _ => true end.

(** [a || d] where [a] is a string or [undefined] and [d] a string. *)
Definition orElse (a : option string) (d : string) : string :=
  match a with
  | Some s => if truthy s then s else d
  | None => d
  end.

(** [a || b] where both sides are a string or [undefined]. *)
Definition orElseU (a b : option string) : option string :=
  match a with
  | Some s => if truthy s then Some s else b
  | None => b
  end.

(** [Array.prototype.findIndex]: the first position whose element satisfies
    the predicate, [-1] when there is none. *)
Fixpoint findIndexFrom {A : Type} (p : A -> bool) (l : list A) (k : Z) : Z :=
  match l with
  | [] => -1
  | x :: l' => if p x then k else findIndexFrom p l' (k + 1)
  end.

Definition findIndex {A : Type} (p : A -> bool) (l : list A) : Z :=
  findIndexFrom p l 0.

(** [arr[k]] for a number [k]: [undefined] outside the array. *)
Definition jsNth {A : Type} (l : list A) (k : Z) : option A :=
  if k <? 0 then None else l !! Z.to_nat k.

(** ** Regular expressions of the header detection

    The patterns of the source are written with the constructors below and
    matched by derivatives. The flag [ci] of the matching functions is the
    [i] flag of the pattern. *)

Inductive regex : Type :=
| RNone : regex
| REps : regex
| RChar (c : ascii) : regex
| RDot : regex
| RSeq (r1 r2 : regex) : regex
| RAlt (r1 r2 : regex) : regex
| RStar (r : regex) : regex.

Fixpoint nullable (r : regex) : bool :=
  match r with
  | RNone => false
  | REps => true
  | RChar _ => false
  | RDot => false
  | RSeq r1 r2 => (nullable r1 && nullable r2)%bool
  | RAlt r1 r2 => (nullable r1 || nullable r2)%bool
  | RStar _ => true
  end.

(** [.] matches every code unit but the line terminators LF and CR. *)
Definition isLineTerminator (c : ascii) : bool :=
  let n := nat_of_ascii c in (Nat.eqb n 10 || Nat.eqb n 13)%bool.

(** Two code units agree, up to case when the pattern has the [i] flag. *)
Definition sameChar (ci : bool) (c a : ascii) : bool :=
  if ci then Ascii.eqb (lowerUnit c) (lowerUnit a) else Ascii.eqb c a.

Fixpoint deriv (ci : bool) (a : ascii) (r : regex) : regex :=
  match r with
  | RNone => RNone
  | REps => RNone
  | RChar c => if sameChar ci c a then REps else RNone
  | RDot => if isLineTerminator a then RNone else REps
  | RSeq r1 r2 =>
      if nullable r1
      then RAlt (RSeq (deriv ci a r1) r2) (deriv ci a r2)
      else RSeq (deriv ci a r1) r2
  | RAlt r1 r2 => RAlt (deriv ci a r1) (deriv ci a r2)
  | RStar r1 => RSeq (deriv ci a r1) (RStar r1)
  end.

(** Does some prefix of [s] match [r]? *)
Fixpoint matchPrefix (ci : bool) (r : regex) (s : string) : bool :=
  (nullable r ||
   match s with
   | EmptyString => false
   | String a s' => matchPrefix ci (deriv ci a r) s'
   end)%bool.

(** Does the whole of [s] match [r]? *)
Fixpoint matchWhole (ci : bool) (r : regex) (s : string) : bool :=
  match s with
  | EmptyString => nullable r
  | String a s' => matchWhole ci (deriv ci a r) s'
  end.

(** [s.match(r)] used as a condition: does [r] match somewhere in [s]? *)
Fixpoint reTest (ci : bool) (r : regex) (s : string) : bool :=
  (matchPrefix ci r s ||
   match s with
   | EmptyString => false
   | String _ s' => reTest ci r s'
   end)%bool.

(** The same for a pattern that ends in [$]: does [r] match a suffix of
    [s]? *)
Fixpoint reTestEnd (ci : bool) (r : regex) (s : string) : bool :=
  (matchWhole ci r s ||
   match s with
   | EmptyString => false
   | String _ s' => reTestEnd ci r s'
   end)%bool.

(** The strings a pattern matches as a whole: the reading of the
    constructors that the matching functions above are checked against. *)
Inductive matches (ci : bool) : regex -> string -> Prop :=
| MEps : matches ci REps EmptyString
| MChar (c a : ascii) :
    sameChar ci c a = true -> matches ci (RChar c) (String a EmptyString)
| MDot (a : ascii) :
    isLineTerminator a = false -> matches ci RDot (String a EmptyString)
| MSeq (r1 r2 : regex) (s1 s2 : string) :
    matches ci r1 s1 -> matches ci r2 s2 ->
    matches ci (RSeq r1 r2) (s1 ++ s2)%string
| MAltL (r1 r2 : regex) (s : string) :
    matches ci r1 s -> matches ci (RAlt r1 r2) s
| MAltR (r1 r2 : regex) (s : string) :
    matches ci r2 s -> matches ci (RAlt r1 r2) s
| MStarNil (r : regex) : matches ci (RStar r) EmptyString
| MStarApp (r : regex) (s1 s2 : string) :
    matches ci r s1 -> matches ci (RStar r) s2 ->
    matches ci (RStar r) (s1 ++ s2)%string.

(** The literal pattern spelling a string. *)
Fixpoint RLit (s : string) : regex :=
  match s with
  | EmptyString => REps
  | String c s' => RSeq (RChar c) (RLit s')
  end.

(** [/\.(csv|xlsx|xls|json)$/], the [$] being in [reTestEnd]. *)
Definition reCorpusFile : regex :=
  RSeq (RChar ".")
       (RAlt (RLit "csv") (RAlt (RLit "xlsx") (RAlt (RLit "xls") (RLit "json")))).
(** [/Company.*Name|Name/i] *)
Definition reName : regex :=
  RAlt (RSeq (RLit "Company") (RSeq (RStar RDot) (RLit "Name"))) (RLit "Name").
(** [/CIN/i] *)
Definition reCin : regex := RLit "CIN".
(** [/State|CompanyStateCode/i] *)
Definition reState : regex := RAlt (RLit "State") (RLit "CompanyStateCode").
(** [/Status|CompanyStatus/i] *)
Definition reStatus : regex := RAlt (RLit "Status") (RLit "CompanyStatus").

(** ** Data model *)

(** [SearchIndex]: the lightweight record kept in memory, one per indexed
    row. *)
Record SearchIndex : Type := mkSearchIndex {
  n : string;   (* lowercased name, matched against *)
  c : string;   (* CIN *)
  s : string;   (* state *)
  st : string;  (* status *)
  f : string;   (* source file *)
  i : Z;        (* row offset within the file *)
  r : string    (* name as written *)
}.

#[global] Instance SearchIndex_eq_dec : EqDecision SearchIndex.
Proof. solve_decision. Defined.

(** ** The match phase of [searchCompanies] (actions.ts, lines 209-217) *)

(** The condition of the scan:
    [entry.n.includes(lowerQuery) ||
     (entry.c && entry.c.toLowerCase().includes(lowerQuery))]. *)
Definition entryMatches (lowerQuery : string) (entry : SearchIndex) : bool :=
  (includes (n entry) lowerQuery ||
   (truthy (c entry) && includes (toLowerCase (c entry)) lowerQuery))%bool.

(** The [for ... of GLOBAL_INDEX] loop: [matchedEntries] is the accumulator,
    and the loop breaks as soon as it holds 50 entries. *)
Fixpoint matchLoop (lowerQuery : string) (index : list SearchIndex)
    (matchedEntries : list SearchIndex) : list SearchIndex :=
  match index with
  | [] => matchedEntries
  | entry :: rest =>
      if entryMatches lowerQuery entry then
        let matchedEntries' := matchedEntries ++ [entry] in
        if 50 <=? Z.of_nat (length matchedEntries') then matchedEntries'
        else matchLoop lowerQuery rest matchedEntries'
      else matchLoop lowerQuery rest matchedEntries
  end.

Definition matchPhase (query : string) (index : list SearchIndex)
    : list SearchIndex :=
  matchLoop (toLowerCase query) index [].

(** ** The delimited-text reader (the same code in both builders and in the
    detail phase) *)

Definition dquote : ascii := ascii_of_nat 34.
Definition comma : ascii := ascii_of_nat 44.

(** The character loop over one line: a double quote toggles [inQuote], a
    comma outside quotes closes the current value, every other character is
    appended to it; the last value is pushed after the loop. *)
Fixpoint splitLine (line : string) (inQuote : bool) (currentVal : string)
    (values : list string) : list string :=
  match line with
  | EmptyString => values ++ [trim currentVal]
  | String char rest =>
      if Ascii.eqb char dquote then
        splitLine rest (negb inQuote) currentVal values
      else if (Ascii.eqb char comma && negb inQuote)%bool then
        splitLine rest inQuote EmptyString (values ++ [trim currentVal])
      else
        splitLine rest inQuote (currentVal ++ String char EmptyString)%string values
  end.

(** [v.replace(/^"|"$/g, '')]: a double quote at the start and one at the
    end are removed. *)
Definition stripQuotes (v : string) : string :=
  let v1 := match v with
            | String ch v' => if Ascii.eqb ch dquote then v' else v
            | EmptyString => v
            end in
  match revString v1 EmptyString with
  | String ch w => if Ascii.eqb ch dquote then revString w EmptyString else v1
  | EmptyString => v1
  end.

(** [cleanValues] of a line. *)
Definition cleanValues (line : string) : list string :=
  map (fun v => trim (stripQuotes v)) (splitLine line false EmptyString []).

(** ** Index building: the delimited-text branch *)

(** The variables of the [for await (const line of rl)] loop, with the
    shared array [newIndex] the loop pushes to. *)
Record CsvScan : Type := mkCsvScan {
  isHeader : bool;
  nameIdx : Z;
  cinIdx : Z;
  stateIdx : Z;
  statusIdx : Z;
  index : Z;
  newIndex : list SearchIndex
}.

(** [(k >= 0 ? cleanValues[k] : '') || d]. *)
Definition cellOr (values : list string) (k : Z) (d : string) : string :=
  orElse (if 0 <=? k then jsNth values k else Some EmptyString) d.

(** One iteration of the loop. *)
Definition indexCsvLine (file : string) (sc : CsvScan) (line : string)
    : CsvScan :=
  let values := cleanValues line in
  if isHeader sc then
    mkCsvScan false
      (findIndex (reTest true reName) values)
      (findIndex (reTest true reCin) values)
      (findIndex (reTest true reState) values)
      (findIndex (reTest true reStatus) values)
      (index sc) (newIndex sc)
  else
    let name := cellOr values (nameIdx sc) "Unknown" in
    let cin := cellOr values (cinIdx sc) EmptyString in
    let state := cellOr values (stateIdx sc) EmptyString in
    let status := cellOr values (statusIdx sc) EmptyString in
    let pushed :=
      if negb (String.eqb name "Unknown") then
        newIndex sc ++
          [mkSearchIndex (toLowerCase name) cin state status file (index sc) name]
      else newIndex sc in
    mkCsvScan false (nameIdx sc) (cinIdx sc) (stateIdx sc) (statusIdx sc)
      (index sc + 1) pushed.

(** The state in which the loop over a file starts. *)
Definition csvStart (acc : list SearchIndex) : CsvScan :=
  mkCsvScan true (-1) (-1) (-1) (-1) 0 acc.

(** The whole loop over the lines of one file. *)
Definition indexCsvLines (file : string) (lines : list string)
    (acc : list SearchIndex) : CsvScan :=
  fold_left (indexCsvLine file) lines (csvStart acc).

(** ** Index building: the spreadsheet/JSON branch *)

Abbreviation Row := (gmap string string).

(** [row['CompanyName'] || row['Company Name'] || row['Name']]. *)
Definition rowName (row : Row) : option string :=
  orElseU (orElseU (row !! "CompanyName") (row !! "Company Name")) (row !! "Name").
(** [row['CompanyStateCode'] || row['State']]. *)
Definition rowState (row : Row) : option string :=
  orElseU (row !! "CompanyStateCode") (row !! "State").
(** [row['CompanyStatus'] || row['Status']]. *)
Definition rowStatus (row : Row) : option string :=
  orElseU (row !! "CompanyStatus") (row !! "Status").

(** The record the callback of [data.forEach] pushes for [row] at [idx]. *)
Definition batchRecord (file : string) (row : Row) (idx : Z) : SearchIndex :=
  let name := orElse (rowName row) "Unknown" in
  let cin := orElse (row !! "CIN") EmptyString in
  let state := orElse (rowState row) EmptyString in
  let status := orElse (rowStatus row) EmptyString in
  mkSearchIndex (toLowerCase name) cin state status file idx name.

(** [data.forEach((row, idx) => newIndex.push(...))], from position [idx]. *)
Fixpoint indexBatchRows (file : string) (data : list Row) (idx : Z)
    (acc : list SearchIndex) : list SearchIndex :=
  match data with
  | [] => acc
  | row :: rest =>
      indexBatchRows file rest (idx + 1) (acc ++ [batchRecord file row idx])
  end.

(** ** Environment, platform and state *)

(** What [JSON.parse] makes of the snapshot: it throws, or yields [null],
    or yields the array of records. A text that parses to anything else is
    outside the type [SearchIndex[] | null] declared for [GLOBAL_INDEX] and
    is not modelled. *)
Inductive ParseResult : Type :=
| ParseThrows : ParseResult
| ParsedNull : ParseResult
| ParsedRecords (records : list SearchIndex) : ParseResult.

(** The result of [checkRateLimit]. *)
Record RateLimit : Type := mkRateLimit {
  allowed : bool;
  limitRemaining : Z
}.

(** The functions the two files call and do not define: [checkRateLimit] of
    [./lib/auth], over whatever store it keeps, and the JSON codec. *)
Class Platform : Type := mkPlatform {
  RateStore : Type;
  checkRateLimit : string -> RateStore -> RateLimit * RateStore;
  JSON_parse : string -> ParseResult;
  JSON_stringify : list SearchIndex -> string
}.

(** What a call reads from outside the process. A stream of lines is the
    lines it delivers and whether it then ends in an error; a workbook read
    ([fs.readFileSync], [XLSX.read], [sheet_to_json]) is the rows of the
    first sheet, or [None] when one of the three throws. *)
Record Env : Type := mkEnv {
  isUserLoggedIn : bool;
  xForwardedFor : option string;
  indexFileExists : bool;
  indexFileContent : option string;
  indexFileWritable : bool;
  dataDirExists : bool;
  readdirSync : option (list string);
  readLines : string -> list string * bool;
  sheetRows : string -> option (list Row)
}.

(** The paths the two files build with [path.join]. *)
Inductive Path : Type :=
| DATA_DIR : Path
| INDEX_FILE : Path
| DataFile (file : string) : Path.

(** The external calls a run makes, in order. *)
Inductive Event : Type :=
| CallIsUserLoggedIn : Event
| CallHeaders : Event
| CallCheckRateLimit (ip : string) : Event
| ExistsSync (p : Path) : Event
| ReadFileSync (p : Path) : Event
| ReaddirSync (p : Path) : Event
| CreateReadStream (p : Path) : Event.

(** The module-level variables of actions.ts, the rate-limit store and the
    trace. *)
Record World `{Platform} : Type := mkWorld {
  GLOBAL_INDEX : option (list SearchIndex);
  IS_INDEXING : bool;
  rateStore : RateStore;
  trace : list Event
}.

Definition setIndex `{Platform} (v : option (list SearchIndex)) (w : World)
    : World :=
  mkWorld _ v (IS_INDEXING w) (rateStore w) (trace w).
Definition setIndexing `{Platform} (b : bool) (w : World) : World :=
  mkWorld _ (GLOBAL_INDEX w) b (rateStore w) (trace w).
Definition setRateStore `{Platform} (st' : RateStore) (w : World) : World :=
  mkWorld _ (GLOBAL_INDEX w) (IS_INDEXING w) st' (trace w).
Definition emit `{Platform} (evs : list Event) (w : World) : World :=
  mkWorld _ (GLOBAL_INDEX w) (IS_INDEXING w) (rateStore w) (trace w ++ evs).

(** ** Scanning the corpus *)

(** [file.match(/\.(csv|xlsx|xls|json)$/)]. *)
Definition isCorpusFile (file : string) : bool :=
  reTestEnd false reCorpusFile file.

(** The body of the loop over the files, for one accepted file, the same in
    both builders: the array [newIndex] after the file, and whether the body
    completed ([false]: it threw, after the pushes made so far). *)
Definition processFile (env : Env) (file : string) (acc : list SearchIndex)
    : list SearchIndex * bool :=
  if endsWith file ".csv" then
    let '(lines, streamFails) := readLines env file in
    (newIndex (indexCsvLines file lines acc), negb streamFails)
  else
    match sheetRows env file with
    | None => (acc, false)
    | Some data => (indexBatchRows file data 0 acc, true)
    end.

(** The external call the body makes for a file. *)
Definition openEvent (file : string) : Event :=
  if endsWith file ".csv" then CreateReadStream (DataFile file)
  else ReadFileSync (DataFile file).

(** The outcome of a loop over the files: the array, the calls made, and
    whether the loop ran to its end. *)
Record ScanResult : Type := mkScanResult {
  scanned : list SearchIndex;
  scanIO : list Event;
  scanCompleted : bool
}.

(** [for (const file of files)] of actions.ts (lines 57-145). *)
Fixpoint scanFiles (env : Env) (files : list string) (acc : list SearchIndex)
    (io : list Event) : ScanResult :=
  match files with
  | [] => mkScanResult acc io true
  | file :: rest =>
      if negb (isCorpusFile file) then scanFiles env rest acc io
      else
        let '(acc', completed) := processFile env file acc in
        if completed then scanFiles env rest acc' (io ++ [openEvent file])
        else mkScanResult acc' (io ++ [openEvent file]) false
  end.

(** The part of [buildIndex] of actions.ts after the snapshot could not be
    loaded (lines 43-152). An exception of the scan is caught and the index
    is what was pushed before it. When the data directory is missing the
    function returns with [IS_INDEXING] still set. *)
Definition fallbackBuild `{Platform} (env : Env) (w : World) : World :=
  let w1 := emit [ExistsSync DATA_DIR] w in
  if negb (dataDirExists env) then setIndex (Some []) w1
  else
    let w2 := emit [ReaddirSync DATA_DIR] w1 in
    match readdirSync env with
    | None => setIndexing false (setIndex (Some []) w2)
    | Some files =>
        let res := scanFiles env files [] [] in
        setIndexing false (setIndex (Some (scanned res)) (emit (scanIO res) w2))
    end.

(** Truthiness of [GLOBAL_INDEX]: an array, even an empty one, is truthy and
    [null] is falsy. *)
Definition isSet {A : Type} (o : option A) : bool :=
  match o with Some _ => true | None => false end.

(** [buildIndex] of actions.ts. *)
Definition buildIndex `{Platform} (env : Env) (w : World) : World :=
  if (isSet (GLOBAL_INDEX w) || IS_INDEXING w)%bool then w
  else
    let w1 := emit [ExistsSync INDEX_FILE] (setIndexing true w) in
    if indexFileExists env then
      let w2 := emit [ReadFileSync INDEX_FILE] w1 in
      match indexFileContent env with
      | None => fallbackBuild env w2
      | Some fileContent =>
          match JSON_parse fileContent with
          | ParseThrows => fallbackBuild env w2
          | ParsedNull => setIndexing false (setIndex None w2)
          | ParsedRecords records =>
              setIndexing false (setIndex (Some records) w2)
          end
      end
    else fallbackBuild env w1.

(** ** The offline builder, scripts/build-index.ts *)

Module BuildIndexScript.

(** How the script ends: it returns without writing (data directory
    missing), exits with status 1 (an exception), or writes the snapshot. *)
Inductive Outcome : Type :=
| NoDataDir : Outcome
| Exit1 : Outcome
| Wrote (content : string) : Outcome.

(** [for (const file of files)] of the script (lines 25-115): the snapshot
    file is skipped; [None] when the body throws. *)
Fixpoint scanFiles (env : Env) (files : list string) (acc : list SearchIndex)
    : option (list SearchIndex) :=
  match files with
  | [] => Some acc
  | file :: rest =>
      if negb (isCorpusFile file) then scanFiles env rest acc
      else if String.eqb file "search-index.json" then scanFiles env rest acc
      else
        let '(acc', completed) := processFile env file acc in
        if completed then scanFiles env rest acc' else None
  end.

(** [buildIndex] of the script. *)
Definition buildIndex `{Platform} (env : Env) : Outcome :=
  if negb (dataDirExists env) then NoDataDir
  else
    match readdirSync env with
    | None => Exit1
    | Some files =>
        match scanFiles env files [] with
        | None => Exit1
        | Some idx =>
            if indexFileWritable env then Wrote (JSON_stringify idx) else Exit1
        end
    end.

End BuildIndexScript.

(** The state of a process that has not built its index, over the store
    [store]. *)
Definition freshWorld `{Platform} (store : RateStore) : World :=
  mkWorld _ None false store [].

(** The calls that touch the file system, and the call that consumes
    quota. *)
Definition isFileEvent (ev : Event) : bool :=
  match ev with
  | ExistsSync _ | ReadFileSync _ | ReaddirSync _ | CreateReadStream _ => true
  | CallIsUserLoggedIn | CallHeaders | CallCheckRateLimit _ => false
  end.

(** A process in which a build is in flight: the flag is set and the index
    is not there yet. *)
Definition buildingWorld `{Platform} (store : RateStore) : World :=
  mkWorld _ None true store [].

(** The environment of a later process, after the script has written
    [content] to the snapshot file: the file exists with that content and
    stands in the listing of the data directory; the corpus is as before. *)
Definition withSnapshot (env : Env) (content : string) : Env :=
  mkEnv (isUserLoggedIn env) (xForwardedFor env) true (Some content)
    (indexFileWritable env) (dataDirExists env)
    ((fun files =>
        if bool_decide ("search-index.json" ∈ files) then files
        else files ++ ["search-index.json"]) <$> readdirSync env)
    (readLines env) (sheetRows env).

(** ** The detail phase of [searchCompanies] *)

(** A value of a result row: a string, or [undefined]. *)
Inductive JsVal : Type :=
| JUndefined : JsVal
| JString (v : string) : JsVal.

#[global] Instance JsVal_eq_dec : EqDecision JsVal.
Proof. solve_decision. Defined.

Definition ofOption (o : option string) : JsVal :=
  match o with Some v => JString v | None => JUndefined end.

(** A [Company]: the canonical fields and every column of the row. *)
Abbreviation Company := (gmap string JsVal).

(** The object literal pushed to [results]: the five canonical fields, then
    [...row], whose keys win. *)
Definition mkCompany (file : string) (idx : Z) (row : Row) : Company :=
  (JString <$> row) ∪
  list_to_map
    [ ("id", JString (file ++ "-" ++ pretty idx)%string);
      ("name", JString (orElse (rowName row) "Unknown"));
      ("state", JString (orElse (rowState row) EmptyString));
      ("cin", ofOption (row !! "CIN"));
      ("status", ofOption (rowStatus row)) ].

(** Grouping (lines 221-227): [matchesByFile], a [Map] in insertion order.
    [groupPush] is [if (!has(f)) set(f, []); get(f).push(i)]. *)
Fixpoint groupPush (m : list (string * list Z)) (file : string) (idx : Z)
    : list (string * list Z) :=
  match m with
  | [] => [(file, [idx])]
  | (k, v) :: m' =>
      if String.eqb k file then (k, v ++ [idx]) :: m'
      else (k, v) :: groupPush m' file idx
  end.

Definition groupByFile (matchedEntries : list SearchIndex)
    : list (string * list Z) :=
  fold_left (fun m entry => groupPush m (f entry) (i entry)) matchedEntries [].

(** [row[h] = v] on the plain object [row], for a string [v]: the
    assignment stores an own key, but for the key [__proto__], the accessor
    of [Object.prototype], whose setter leaves the object as it is when
    handed a string. *)
Definition assignKey (row : Row) (h v : string) : Row :=
  if String.eqb h "__proto__" then row else <[h := v]> row.

(** [header.forEach((h, i) => row[h] = cleanValues[i] || '')], from
    position [k]. *)
Fixpoint fillRow (header values : list string) (k : Z) (row : Row) : Row :=
  match header with
  | [] => row
  | h :: rest =>
      fillRow rest values (k + 1)
        (assignKey row h (orElse (jsNth values k) EmptyString))
  end.

(** The variables of the detail loop over the lines of a file, with the
    shared array [results]. *)
Record DetailScan : Type := mkDetailScan {
  dIsHeader : bool;
  currentIndex : Z;
  header : list string;
  results : list Company
}.

(** One iteration of the loop (lines 244-282); [targetIndices.has] is
    membership in [indices]. *)
Definition detailCsvLine (file : string) (indices : list Z) (ds : DetailScan)
    (line : string) : DetailScan :=
  let values := cleanValues line in
  if dIsHeader ds then mkDetailScan false (currentIndex ds) values (results ds)
  else
    let pushed :=
      if bool_decide (currentIndex ds ∈ indices) then
        results ds ++
          [mkCompany file (currentIndex ds) (fillRow (header ds) values 0 ∅)]
      else results ds in
    mkDetailScan false (currentIndex ds + 1) (header ds) pushed.

Definition detailCsvLines (file : string) (indices : list Z)
    (lines : list string) (acc : list Company) : DetailScan :=
  fold_left (detailCsvLine file indices) lines (mkDetailScan true 0 [] acc).

(** [indices.forEach(idx => { const row = data[idx]; if (row) push })]
    (lines 290-302). *)
Fixpoint detailBatch (file : string) (data : list Row) (indices : list Z)
    (acc : list Company) : list Company :=
  match indices with
  | [] => acc
  | idx :: rest =>
      match jsNth data idx with
      | Some row => detailBatch file data rest (acc ++ [mkCompany file idx row])
      | None => detailBatch file data rest acc
      end
  end.

(** The body of the loop over [matchesByFile.entries()] for one file; an
    exception is caught inside the loop, and the pushes made before it
    stay. *)
Definition resolveFile (env : Env) (file : string) (indices : list Z)
    (acc : list Company) : list Company :=
  if endsWith file ".csv" then
    results (detailCsvLines file indices (fst (readLines env file)) acc)
  else
    match sheetRows env file with
    | None => acc
    | Some data => detailBatch file data indices acc
    end.

Fixpoint resolveAll (env : Env) (groups : list (string * list Z))
    (acc : list Company) (io : list Event) : list Company * list Event :=
  match groups with
  | [] => (acc, io)
  | (file, indices) :: rest =>
      resolveAll env rest (resolveFile env file indices acc)
        (io ++ [openEvent file])
  end.

(** ** The rows of a file by position

    The definitions of this section say, in the words of the specification,
    what the index and the detail phase hold for the data row at a given
    0-based position of a file; the loops above are compared with them. *)

(** The elements [g k x] that are defined, for [x] at position [k] of
    [rows], in the order of the rows. *)
Definition collect {A B : Type} (g : nat -> A -> option B) (rows : list A)
    : list B :=
  omap id (imap g rows).

(** The record of a data line under column positions fixed by a header,
    with [k] as its offset; none when the name is [Unknown]. *)
Definition recordAt (file : string) (nameI cinI stateI statusI : Z) (k : Z)
    (line : string) : option SearchIndex :=
  let values := cleanValues line in
  let name := cellOr values nameI "Unknown" in
  if String.eqb name "Unknown" then None
  else Some (mkSearchIndex (toLowerCase name)
               (cellOr values cinI EmptyString)
               (cellOr values stateI EmptyString)
               (cellOr values statusI EmptyString) file k name).

(** The record of the data line at position [k] of a file whose header line
    is [hdr]. *)
Definition csvRowRecord (file hdr : string) (k : nat) (line : string)
    : option SearchIndex :=
  let cols := cleanValues hdr in
  recordAt file
    (findIndex (reTest true reName) cols) (findIndex (reTest true reCin) cols)
    (findIndex (reTest true reState) cols)
    (findIndex (reTest true reStatus) cols)
    (Z.of_nat k) line.

(** The result row of the data line at position [k] of such a file. *)
Definition csvRowCompany (file hdr : string) (k : nat) (line : string)
    : Company :=
  mkCompany file (Z.of_nat k) (fillRow (cleanValues hdr) (cleanValues line) 0 ∅).

(** ** [searchCompanies] *)

(** The object a call resolves to; an absent key is [None]. *)
Record SearchResponse : Type := mkSearchResponse {
  respResults : list Company;
  respError : option string;
  respRemaining : option Z;
  respIsPremium : option bool
}.

(** The [try] block (lines 200-313), entered with [isLoggedIn] and
    [remaining] computed. *)
Definition searchIndexed `{Platform} (env : Env) (query : string)
    (isLoggedIn : bool) (remaining : Z) (w : World)
    : SearchResponse * World :=
  let w1 := if negb (isSet (GLOBAL_INDEX w)) then buildIndex env w else w in
  match GLOBAL_INDEX w1 with
  | None => (mkSearchResponse [] None None None, w1)
  | Some idx =>
      let matchedEntries := matchLoop (toLowerCase query) idx [] in
      let matchesByFile := groupByFile matchedEntries in
      let '(res, io) := resolveAll env matchesByFile [] [] in
      (mkSearchResponse res None (Some remaining) (Some isLoggedIn),
       emit io w1)
  end.

Definition limitExceeded : string :=
  "Free search limit exceeded (10/day). Please login for unlimited access.".

(** [searchCompanies] of actions.ts. *)
Definition searchCompanies `{Platform} (env : Env) (query : string)
    (w : World) : SearchResponse * World :=
  if (negb (truthy query) || (Z.of_nat (String.length query) <? 2))%bool then
    (mkSearchResponse [] None None None, w)
  else
    let w1 := emit [CallIsUserLoggedIn] w in
    let isLoggedIn := isUserLoggedIn env in
    if negb isLoggedIn then
      let ip := orElse (xForwardedFor env) "127.0.0.1" in
      let '(limit, store') := checkRateLimit ip (rateStore w1) in
      let w2 :=
        setRateStore store' (emit [CallHeaders; CallCheckRateLimit ip] w1) in
      if negb (allowed limit) then
        (mkSearchResponse [] (Some limitExceeded) (Some 0) (Some false), w2)
      else searchIndexed env query isLoggedIn (limitRemaining limit) w2
    else searchIndexed env query isLoggedIn (-1) w1.

(** ** The session actions: [loginAction] and [logoutAction] *)

(** A cookie as [cookieStore.set] stores it. *)
Record Cookie : Type := mkCookie {
  cookieValue : string;
  httpOnly : bool;
  secure : bool;
  maxAge : Z
}.

(** What [loginAction] resolves to. *)
Record LoginResult : Type := mkLoginResult {
  success : bool;
  loginError : option string
}.

(** [loginAction] (actions.ts, lines 155-170). [verifyUser] of [./lib/auth]
    is a parameter; the form is a map from field names to values, a missing
    field reading as [null]; [nodeEnv] is [process.env.NODE_ENV]. *)
Definition loginAction (verifyUser : option string -> option string -> bool)
    (nodeEnv : option string) (formData : gmap string string)
    (cookieStore : gmap string Cookie) : LoginResult * gmap string Cookie :=
  let username := formData !! "username" in
  let password := formData !! "password" in
  if verifyUser username password then
    (mkLoginResult true None,
     <["premium_session" :=
         mkCookie "true" true (bool_decide (nodeEnv = Some "production"))
           (60 * 60 * 24 * 7)]> cookieStore)
  else (mkLoginResult false (Some "Invalid credentials"), cookieStore).

(** [logoutAction] (lines 172-176): the cookie store after the call, and the
    target of the [redirect] that ends it. *)
Definition logoutAction (cookieStore : gmap string Cookie)
    : gmap string Cookie * string :=
  (delete "premium_session" cookieStore, "/").

(** ** Writing a delimited-text line

    The inverse the reader is compared with: fields joined by commas, a
    field being written bare or between double quotes. *)

Fixpoint hasChar (ch : ascii) (v : string) : bool :=
  match v with
  | EmptyString => false
  | String a v' => (Ascii.eqb a ch || hasChar ch v')%bool
  end.

Definition writeField (field : bool * string) : string :=
  if field.1 then String dquote (field.2 ++ String dquote EmptyString)%string
  else field.2.

Fixpoint writeLine (fields : list (bool * string)) : string :=
  match fields with
  | [] => EmptyString
  | [fd] => writeField fd
  | fd :: rest => (writeField fd ++ String comma (writeLine rest))%string
  end.

(** A field the reader gives back as written: no double quote in it, no
    white space at its ends, and no comma unless it is quoted. *)
Definition readableField (field : bool * string) : Prop :=
  hasChar dquote field.2 = false /\ trim field.2 = field.2 /\
  (field.1 = false -> hasChar comma field.2 = false).

(** The files of a listing in the order of their first occurrence. *)
Fixpoint firstOccurrences (files : list string) : list string :=
  match files with
  | [] => []
  | file :: rest =>
      file :: List.filter (fun g => negb (String.eqb g file))
                (firstOccurrences rest)
  end.

(** ** The JSON codec

    [JSON.parse] and [JSON.stringify] of ECMA-262, on the texts the
    snapshot can hold. A string value with a code unit above 255 (written
    as a [\u] escape) and a number that is no integer literal of magnitude
    below 2^53 are read, and kept as values without content: a text is
    rejected exactly when [JSON.parse] throws a [SyntaxError] on it. *)

Module Json.

Definition backslash : ascii := ascii_of_nat 92.

Definition between (lo hi : nat) (ch : ascii) : bool :=
  (Nat.leb lo (nat_of_ascii ch) && Nat.leb (nat_of_ascii ch) hi)%bool.

Definition isDigit (ch : ascii) : bool := between 48 57 ch.

Definition isLower (ch : ascii) : bool := between 97 122 ch.

(** JSON white space: SPACE, TAB, LF and CR. *)
Definition isSpace (ch : ascii) : bool :=
  let k := nat_of_ascii ch in
  (Nat.eqb k 32 || Nat.eqb k 9 || Nat.eqb k 10 || Nat.eqb k 13)%bool.

(** The characters a number is written with. *)
Definition isNumberChar (ch : ascii) : bool :=
  (isDigit ch || Ascii.eqb ch "-" || Ascii.eqb ch "+" || Ascii.eqb ch "."
   || Ascii.eqb ch "e" || Ascii.eqb ch "E")%bool.

Definition hexValue (ch : ascii) : option nat :=
  let k := nat_of_ascii ch in
  if between 48 57 ch then Some (k - 48)%nat
  else if between 97 102 ch then Some (k - 87)%nat
  else if between 65 70 ch then Some (k - 55)%nat
  else None.

Definition hexDigit (k : nat) : ascii :=
  ascii_of_nat (if Nat.ltb k 10 then 48 + k else 87 + k)%nat.

(** A JSON value. The content of a string is [None] when it has a code
    unit above 255; the content of a number is [None] when it is no
    integer literal of magnitude below 2^53. *)
#[warnings="-register-all"] Inductive value : Type :=
| VNull : value
| VBool (b : bool) : value
| VNumber (z : option Z) : value
| VString (v : option string) : value
| VArray (items : list value) : value
| VObject (members : list (option string * value)) : value.

(** *** The lexical grammar *)

Inductive token : Type :=
| TLBrace | TRBrace | TLBracket | TRBracket | TColon | TComma
| TString (v : option string)
| TNumber (lexeme : string)
| TWord (lexeme : string).

(** Where the reader is: between tokens, in a string, after a backslash,
    in the four digits of a [\u] escape, in a number, in a word. *)
Inductive mode : Type :=
| LIdle
| LString (buf : option string)
| LEscape (buf : option string)
| LUnicode (buf : option string) (digits : list nat)
| LNumber (lexeme : string)
| LWord (lexeme : string).

Definition push (buf : option string) (ch : ascii) : option string :=
  (fun b => (b ++ String ch EmptyString)%string) <$> buf.

Definition pushUnit (buf : option string) (k : nat) : option string :=
  if Nat.ltb k 256 then push buf (ascii_of_nat k) else None.

(** A character read between tokens. *)
Definition idle (ch : ascii) : option (mode * list token) :=
  if Ascii.eqb ch "{" then Some (LIdle, [TLBrace])
  else if Ascii.eqb ch "}" then Some (LIdle, [TRBrace])
  else if Ascii.eqb ch "[" then Some (LIdle, [TLBracket])
  else if Ascii.eqb ch "]" then Some (LIdle, [TRBracket])
  else if Ascii.eqb ch ":" then Some (LIdle, [TColon])
  else if Ascii.eqb ch comma then Some (LIdle, [TComma])
  else if Ascii.eqb ch dquote then Some (LString (Some EmptyString), [])
  else if (Ascii.eqb ch "-" || isDigit ch)%bool
       then Some (LNumber (String ch EmptyString), [])
  else if isLower ch then Some (LWord (String ch EmptyString), [])
  else if isSpace ch then Some (LIdle, [])
  else None.

(** The character a one-letter escape stands for. *)
Definition escaped (ch : ascii) : option ascii :=
  if Ascii.eqb ch dquote then Some dquote
  else if Ascii.eqb ch backslash then Some backslash
  else if Ascii.eqb ch "/" then Some "/"%char
  else if Ascii.eqb ch "b" then Some (ascii_of_nat 8)
  else if Ascii.eqb ch "f" then Some (ascii_of_nat 12)
  else if Ascii.eqb ch "n" then Some (ascii_of_nat 10)
  else if Ascii.eqb ch "r" then Some (ascii_of_nat 13)
  else if Ascii.eqb ch "t" then Some (ascii_of_nat 9)
  else None.

(** The tokens of a text, [None] on a lexical error. A number and a word
    are taken as the longest run of their characters and judged by the
    parser. *)
Fixpoint lex (text : string) (m : mode) (acc : list token)
    : option (list token) :=
  match text with
  | EmptyString =>
      match m with
      | LIdle => Some acc
      | LNumber l => Some (acc ++ [TNumber l])
      | LWord l => Some (acc ++ [TWord l])
      | LString _ | LEscape _ | LUnicode _ _ => None
      end
  | String ch rest =>
      match m with
      | LIdle =>
          match idle ch with
          | Some (m', ts) => lex rest m' (acc ++ ts)
          | None => None
          end
      | LString buf =>
          if Ascii.eqb ch dquote then lex rest LIdle (acc ++ [TString buf])
          else if Ascii.eqb ch backslash then lex rest (LEscape buf) acc
          else if Nat.ltb (nat_of_ascii ch) 32 then None
          else lex rest (LString (push buf ch)) acc
      | LEscape buf =>
          if Ascii.eqb ch "u" then lex rest (LUnicode buf []) acc
          else match escaped ch with
               | Some c => lex rest (LString (push buf c)) acc
               | None => None
               end
      | LUnicode buf digits =>
          match hexValue ch with
          | None => None
          | Some d =>
              match digits with
              | [d1; d2; d3] =>
                  lex rest
                    (LString (pushUnit buf (((d1 * 16 + d2) * 16 + d3) * 16 + d)%nat))
                    acc
              | _ => lex rest (LUnicode buf (digits ++ [d])) acc
              end
          end
      | LNumber l =>
          if isNumberChar ch
          then lex rest (LNumber (l ++ String ch EmptyString)%string) acc
          else match idle ch with
               | Some (m', ts) => lex rest m' (acc ++ [TNumber l] ++ ts)
               | None => None
               end
      | LWord l =>
          if isLower ch
          then lex rest (LWord (l ++ String ch EmptyString)%string) acc
          else match idle ch with
               | Some (m', ts) => lex rest m' (acc ++ [TWord l] ++ ts)
               | None => None
               end
      end
  end.

(** *** Numbers *)

Inductive number : Type :=
| NumberBad : number
| NumberInt (z : Z) : number
| NumberOther : number.

Fixpoint allDigits (s : string) : bool :=
  match s with
  | EmptyString => true
  | String ch s' => (isDigit ch && allDigits s')%bool
  end.

Fixpoint dropDigits (s : string) : string :=
  match s with
  | EmptyString => EmptyString
  | String ch s' => if isDigit ch then dropDigits s' else s
  end.

Fixpoint digitsValue (s : string) (acc : N) : N :=
  match s with
  | EmptyString => acc
  | String ch s' =>
      digitsValue s' (10 * acc + N.of_nat (nat_of_ascii ch - 48))%N
  end.

Definition startsWithDigit (s : string) : bool :=
  match s with
  | String ch _ => isDigit ch
  | EmptyString => false
  end.

(** A zero followed by a digit. *)
Definition leadingZero (s : string) : bool :=
  match s with
  | String z (String d _) => (Ascii.eqb z "0" && isDigit d)%bool
  | _ => false
  end.

(** [e] or [E], a sign or none, and one digit or more to the end. *)
Definition isExponent (s : string) : bool :=
  match s with
  | String ch s1 =>
      ((Ascii.eqb ch "e" || Ascii.eqb ch "E") &&
       let s2 := match s1 with
                 | String sg s2' =>
                     if (Ascii.eqb sg "+" || Ascii.eqb sg "-")%bool
                     then s2' else s1
                 | EmptyString => s1
                 end in
       startsWithDigit s2 && allDigits s2)%bool
  | EmptyString => false
  end.

(** A point, one digit or more, and an exponent or none, to the end. *)
Definition isFraction (s : string) : bool :=
  match s with
  | String ch s1 =>
      (Ascii.eqb ch "." && startsWithDigit s1 &&
       match dropDigits s1 with
       | EmptyString => true
       | s2 => isExponent s2
       end)%bool
  | EmptyString => false
  end.

Definition classifyBody (neg : bool) (body : string) : number :=
  if negb (startsWithDigit body) then NumberBad
  else if leadingZero body then NumberBad
  else match dropDigits body with
       | EmptyString =>
           let v := Z.of_N (digitsValue body 0) in
           if v <? 2 ^ 53 then NumberInt (if neg then - v else v)
           else NumberOther
       | tail =>
           if (isFraction tail || isExponent tail)%bool then NumberOther
           else NumberBad
       end.

(** The number a lexeme denotes; [NumberBad] when it is none. *)
Definition classify (lexeme : string) : number :=
  match lexeme with
  | String ch body =>
      if Ascii.eqb ch "-" then classifyBody true body
      else classifyBody false lexeme
  | EmptyString => NumberBad
  end.

Definition numberValue (lexeme : string) : option value :=
  match classify lexeme with
  | NumberBad => None
  | NumberInt z => Some (VNumber (Some z))
  | NumberOther => Some (VNumber None)
  end.

Definition wordValue (lexeme : string) : option value :=
  if String.eqb lexeme "null" then Some VNull
  else if String.eqb lexeme "true" then Some (VBool true)
  else if String.eqb lexeme "false" then Some (VBool false)
  else None.

(** *** The syntactic grammar *)

(** What the parser expects next. *)
Inductive phase : Type :=
| PValue
| PValueOrClose
| PKeyOrClose
| PKey
| PColon
| PAfter
| PDone (v : value).

(** An array or an object that is still open, with what it holds so far
    and, for an object, the key that waits for its value. *)
Inductive frame : Type :=
| FArray (items : list value)
| FObject (members : list (option string * value))
          (key : option (option string)).

(** A value is complete: it is the whole text, or goes into the innermost
    open array or object. *)
Definition complete (stack : list frame) (v : value)
    : option (list frame * phase) :=
  match stack with
  | [] => Some ([], PDone v)
  | FArray items :: st => Some (FArray (items ++ [v]) :: st, PAfter)
  | FObject members (Some k) :: st =>
      Some (FObject (members ++ [(k, v)]) None :: st, PAfter)
  | FObject _ None :: _ => None
  end.

Definition setKey (stack : list frame) (k : option string)
    : option (list frame * phase) :=
  match stack with
  | FObject members None :: st => Some (FObject members (Some k) :: st, PColon)
  | _ => None
  end.

Definition closeArray (stack : list frame) : option (list frame * phase) :=
  match stack with
  | FArray items :: st => complete st (VArray items)
  | _ => None
  end.

Definition closeObject (stack : list frame) : option (list frame * phase) :=
  match stack with
  | FObject members None :: st => complete st (VObject members)
  | _ => None
  end.

Definition step (stack : list frame) (ph : phase) (t : token)
    : option (list frame * phase) :=
  match ph with
  | PValue | PValueOrClose =>
      match t with
      | TLBracket => Some (FArray [] :: stack, PValueOrClose)
      | TLBrace => Some (FObject [] None :: stack, PKeyOrClose)
      | TString v => complete stack (VString v)
      | TNumber l => v ← numberValue l; complete stack v
      | TWord l => v ← wordValue l; complete stack v
      | TRBracket =>
          match ph with
          | PValueOrClose => closeArray stack
          | _ => None
          end
      | TRBrace | TColon | TComma => None
      end
  | PKeyOrClose =>
      match t with
      | TString k => setKey stack k
      | TRBrace => closeObject stack
      | _ => None
      end
  | PKey =>
      match t with
      | TString k => setKey stack k
      | _ => None
      end
  | PColon =>
      match t with
      | TColon => Some (stack, PValue)
      | _ => None
      end
  | PAfter =>
      match t with
      | TComma =>
          match stack with
          | FArray _ :: _ => Some (stack, PValue)
          | FObject _ None :: _ => Some (stack, PKey)
          | _ => None
          end
      | TRBracket => closeArray stack
      | TRBrace => closeObject stack
      | _ => None
      end
  | PDone _ => None
  end.

Fixpoint run (toks : list token) (stack : list frame) (ph : phase)
    : option value :=
  match toks with
  | [] => match ph with PDone v => Some v | _ => None end
  | t :: rest =>
      match step stack ph t with
      | Some (stack', ph') => run rest stack' ph'
      | None => None
      end
  end.

(** The value of a text; [None] when [JSON.parse] throws. *)
Definition parseValue (text : string) : option value :=
  toks ← lex text LIdle []; run toks [] PValue.

(** *** From values to index records *)

(** [obj[key]]: of the members with that key, the last. *)
Fixpoint member (members : list (option string * value)) (key : string)
    (found : option value) : option value :=
  match members with
  | [] => found
  | (k, v) :: rest =>
      member rest key
        (match k with
         | Some k' => if String.eqb k' key then Some v else found
         | None => found
         end)
  end.

Definition recordOf (v : value) : option SearchIndex :=
  match v with
  | VObject ms =>
      match member ms "n" None, member ms "c" None, member ms "s" None,
            member ms "st" None, member ms "f" None, member ms "i" None,
            member ms "r" None with
      | Some (VString (Some vn)), Some (VString (Some vc)),
        Some (VString (Some vs)), Some (VString (Some vst)),
        Some (VString (Some vf)), Some (VNumber (Some vi)),
        Some (VString (Some vr)) =>
          Some (mkSearchIndex vn vc vs vst vf vi vr)
      | _, _, _, _, _, _, _ => None
      end
  | _ => None
  end.

Fixpoint recordsOf (items : list value) : option (list SearchIndex) :=
  match items with
  | [] => Some []
  | v :: rest =>
      match recordOf v, recordsOf rest with
      | Some e, Some es => Some (e :: es)
      | _, _ => None
      end
  end.

(** The value as the snapshot load sees it: [null], or an array of index
    records (an object with the seven fields of a record, the strings
    within the code units of the model and the offset an integer literal
    below 2^53; further fields are not read by the code). Any other value
    is outside [SearchIndex[] | null] and gives [None]. *)
Definition toResult (v : value) : option ParseResult :=
  match v with
  | VNull => Some ParsedNull
  | VArray items => ParsedRecords <$> recordsOf items
  | _ => None
  end.

(** [JSON.parse(text)] as the snapshot load sees it; [None] where the
    value is outside the model. *)
Definition parse (text : string) : option ParseResult :=
  match parseValue text with
  | None => Some ParseThrows
  | Some v => toResult v
  end.

(** *** JSON.stringify

    Each writer puts its text in front of [rest]. *)

(** A code unit inside a string: the double quote and the backslash take
    a backslash; backspace, form feed, line feed, carriage return and tab
    their letter; the other code units below 32 the [\u00xx] form. *)
Definition escapeTo (ch : ascii) (rest : string) : string :=
  let k := nat_of_ascii ch in
  if Ascii.eqb ch dquote then String backslash (String dquote rest)
  else if Ascii.eqb ch backslash then String backslash (String backslash rest)
  else if Nat.eqb k 8 then String backslash (String "b" rest)
  else if Nat.eqb k 12 then String backslash (String "f" rest)
  else if Nat.eqb k 10 then String backslash (String "n" rest)
  else if Nat.eqb k 13 then String backslash (String "r" rest)
  else if Nat.eqb k 9 then String backslash (String "t" rest)
  else if Nat.ltb k 32
       then String backslash
              (String "u" (String "0" (String "0"
                 (String (hexDigit (k / 16)%nat)
                    (String (hexDigit (k mod 16)%nat) rest)))))
  else String ch rest.

Fixpoint escapeStringTo (v rest : string) : string :=
  match v with
  | EmptyString => rest
  | String ch v' => escapeTo ch (escapeStringTo v' rest)
  end.

Definition quoteTo (v rest : string) : string :=
  String dquote (escapeStringTo v (String dquote rest)).

(** An integer of magnitude below 2^53 is written in decimal. *)
Definition numberTo (z : Z) (rest : string) : string :=
  (pretty z ++ rest)%string.

Definition memberTo (key : string) (valueTo : string -> string)
    (rest : string) : string :=
  quoteTo key (String ":" (valueTo rest)).

(** A record, its fields in the order of the object literal that makes
    it. *)
Definition recordTo (e : SearchIndex) (rest : string) : string :=
  String "{"
    (memberTo "n" (quoteTo (n e)) (String comma
    (memberTo "c" (quoteTo (c e)) (String comma
    (memberTo "s" (quoteTo (s e)) (String comma
    (memberTo "st" (quoteTo (st e)) (String comma
    (memberTo "f" (quoteTo (f e)) (String comma
    (memberTo "i" (numberTo (i e)) (String comma
    (memberTo "r" (quoteTo (r e)) (String "}" rest)))))))))))))).

Fixpoint recordsTo (idx : list SearchIndex) (rest : string) : string :=
  match idx with
  | [] => rest
  | e :: more =>
      match more with
      | [] => recordTo e rest
      | _ :: _ => recordTo e (String comma (recordsTo more rest))
      end
  end.

Definition isSafe (z : Z) : bool := Z.abs z <? 2 ^ 53.

(** [JSON.stringify(idx)] for an array of records; [None] when an offset
    is beyond the integers written in plain decimal. *)
Definition stringify (idx : list SearchIndex) : option string :=
  if forallb (fun e => isSafe (i e)) idx
  then Some (String "[" (recordsTo idx "]"))
  else None.

(** The value and the tokens of a record, as [recordTo] writes it. *)
Definition recordValue (e : SearchIndex) : value :=
  VObject
    [ (Some "n", VString (Some (n e))); (Some "c", VString (Some (c e)));
      (Some "s", VString (Some (s e))); (Some "st", VString (Some (st e)));
      (Some "f", VString (Some (f e))); (Some "i", VNumber (Some (i e)));
      (Some "r", VString (Some (r e))) ].

Definition recordTokens (e : SearchIndex) : list token :=
  [ TLBrace;
    TString (Some "n"); TColon; TString (Some (n e)); TComma;
    TString (Some "c"); TColon; TString (Some (c e)); TComma;
    TString (Some "s"); TColon; TString (Some (s e)); TComma;
    TString (Some "st"); TColon; TString (Some (st e)); TComma;
    TString (Some "f"); TColon; TString (Some (f e)); TComma;
    TString (Some "i"); TColon; TNumber (pretty (i e)); TComma;
    TString (Some "r"); TColon; TString (Some (r e));
    TRBrace ].

Fixpoint recordsTokens (idx : list SearchIndex) : list token :=
  match idx with
  | [] => []
  | e :: more =>
      match more with
      | [] => recordTokens e
      | _ :: _ => recordTokens e ++ TComma :: recordsTokens more
      end
  end.

End Json.

(** A platform whose codec is JSON: its [JSON.parse] and [JSON.stringify]
    are those of [Json] wherever [Json] gives an answer. *)
Class JsonCodec (P : Platform) : Prop := {
  JSON_parse_json : forall text result,
    Json.parse text = Some result -> JSON_parse text = result;
  JSON_stringify_json : forall idx text,
    Json.stringify idx = Some text -> JSON_stringify idx = text
}.

(** ** A reference platform and sample corpora

    The properties below are proved for every platform. The instance and the
    corpora of this section are the concrete inputs on which the statements
    are run. *)

Module Sample.

(** Modelled from the spec: [checkRateLimit] of [./lib/auth], which is not
    among the sources. The store maps an identity to the count of queries
    and the start of its window; the window is 24 hours from the first
    query of the cycle; the first check of a cycle leaves 9; once the count
    has reached 10 the check is denied with 0 remaining. [now] is the clock
    in milliseconds. *)
Definition checkRateLimit (now : Z) (ip : string) (store : gmap string (Z * Z))
    : RateLimit * gmap string (Z * Z) :=
  match store !! ip with
  | Some (count, windowStart) =>
      if now - windowStart <? 24 * 60 * 60 * 1000 then
        if 10 <=? count then (mkRateLimit false 0, store)
        else (mkRateLimit true (10 - (count + 1)),
              <[ip := (count + 1, windowStart)]> store)
      else (mkRateLimit true 9, <[ip := (1, now)]> store)
  | None => (mkRateLimit true 9, <[ip := (1, now)]> store)
  end.

(** The codec of the sample platform is [Json]. Where [Json] gives no
    answer (a text that is JSON but no index, an index with an offset
    beyond 2^53) the sample platform still has to answer: it does as for a
    text it cannot read, and writes nothing. None of the sample texts is
    of that kind. *)
Definition JSON_parse (text : string) : ParseResult :=
  default ParseThrows (Json.parse text).

Definition JSON_stringify (idx : list SearchIndex) : string :=
  default EmptyString (Json.stringify idx).

(** The platform at clock [now]. *)
Definition platform (now : Z) : Platform :=
  mkPlatform (gmap string (Z * Z)) (checkRateLimit now) JSON_parse JSON_stringify.

(** The corpus of the end-to-end example: one delimited-text file. *)
Definition acmeLines : list string :=
  [ "Name,CIN,State,Status";
    "Acme Corp,CIN123,MH,Active";
    "Beta LLC,CIN456,DL,Inactive" ].

Definition acmeStream (file : string) : list string * bool :=
  if String.eqb file "companies.csv" then (acmeLines, false) else ([], true).

(** An anonymous caller, no snapshot on disk. *)
Definition acmeEnv : Env :=
  mkEnv false None false None true true (Some ["companies.csv"; "README.md"])
    acmeStream (fun _ => None).

(** The same corpus, a logged-in caller. *)
Definition acmePremiumEnv : Env :=
  mkEnv true None false None true true (Some ["companies.csv"; "README.md"])
    acmeStream (fun _ => None).

(** Sixty records that all match the query [ac]. *)
Definition sixtyRecords : list SearchIndex :=
  map (fun k => mkSearchIndex "acme" "U1" "MH" "Active" "companies.csv"
                  (Z.of_nat k) "Acme")
      (seq 0 60).

(** A store in which the loopback identity has used its ten queries. *)
Definition exhaustedStore : gmap string (Z * Z) :=
  {[ "127.0.0.1" := (10, 0) ]}.

(** A workbook with one row that has a CIN and no name column. *)
Definition namelessRow : Row := {[ "CIN" := "U12345" ]}.

Definition namelessEnv : Env :=
  mkEnv false None false None true true (Some ["companies.xlsx"])
    (fun _ => ([], true))
    (fun file =>
       if String.eqb file "companies.xlsx" then Some [namelessRow] else None).

(** A data directory whose snapshot is cut short after a line break:
    [JSON.parse] throws on it, the workbook reader takes its first line as
    a header and its second as a row. *)
Definition brokenSnapshot : string :=
  String "[" (String (ascii_of_nat 10) "{").

Definition brokenSnapshotRow : Row := {[ "[" := "{" ]}.

Definition brokenSnapshotEnv : Env :=
  mkEnv false None true (Some brokenSnapshot) true true
    (Some ["companies.csv"; "search-index.json"])
    acmeStream
    (fun file =>
       if String.eqb file "search-index.json" then Some [brokenSnapshotRow]
       else None).

(** A delimited-text file whose second data row has no name. *)
Definition gapLines : list string :=
  [ "Company Name,CIN,State,Status";
    "Acme Corp,CIN123,MH,Active";
    ",CIN000,KA,Active";
    "Beta LLC,CIN456,DL,Inactive" ].

(** A workbook of two rows, for the detail phase. *)
Definition twoRows : list Row :=
  [ {[ "Name" := "Acme Corp"; "CIN" := "CIN123" ]};
    {[ "Name" := "Beta LLC"; "CIN" := "CIN456" ]} ].

Definition workbookEnv : Env :=
  mkEnv true None false None true true (Some ["companies.xlsx"])
    (fun _ => ([], true))
    (fun file =>
       if String.eqb file "companies.xlsx" then Some twoRows else None).

(** A line of three fields, the second one quoted because of its comma. *)
Definition quotedFields : list (bool * string) :=
  [ (false, "Acme Corp"); (true, "Pune, MH"); (false, "Active") ].

(** A data directory whose second file is a workbook that cannot be read. *)
Definition failingEnv : Env :=
  mkEnv true None false None true true
    (Some ["companies.csv"; "broken.xlsx"; "later.csv"])
    (fun file =>
       if String.eqb file "later.csv" then (gapLines, false)
       else acmeStream file)
    (fun _ => None).

(** No data directory at all. *)
Definition noDataDirEnv : Env :=
  mkEnv true None false None true false None (fun _ => ([], true))
    (fun _ => None).

(** A form with credentials, and one browser cookie of another kind. *)
Definition loginForm : gmap string string :=
  {[ "username" := "admin"; "password" := "secret" ]}.

Definition themeCookie : gmap string Cookie :=
  {[ "theme" := mkCookie "dark" false false 0 ]}.

End Sample.

(** * Properties *)

(** ** Strings *)

Lemma append_nil_l (s2 : string) : (EmptyString ++ s2)%string = s2.
Proof. reflexivity. Qed.

Lemma append_cons (a : ascii) (s1 s2 : string) :
  (String a s1 ++ s2)%string = String a (s1 ++ s2)%string.
Proof. reflexivity. Qed.

Lemma append_empty_inv (s1 s2 : string) :
  (s1 ++ s2)%string = EmptyString -> s1 = EmptyString /\ s2 = EmptyString.
Proof. destruct s1; [done|]. by rewrite append_cons. Qed.

Lemma append_empty_r (s1 : string) : (s1 ++ EmptyString)%string = s1.
Proof.
  induction s1 as [|a s1 IH]; [done|]. by rewrite append_cons, IH.
Qed.

Lemma append_assoc (s1 s2 s3 : string) :
  ((s1 ++ s2) ++ s3)%string = (s1 ++ (s2 ++ s3))%string.
Proof.
  induction s1 as [|a s1 IH]; [done|]. by rewrite !append_cons, IH.
Qed.

(** Case mapping reaches the accented capitals, and not the
    multiplication sign between them; [trim] takes the no-break space. *)
Example toLowerCase_accented :
  toLowerCase (String (ascii_of_nat 201) (String (ascii_of_nat 215) "COLE"))
  = String (ascii_of_nat 233) (String (ascii_of_nat 215) "cole").
Proof. reflexivity. Qed.

Example trim_no_break_space :
  trim (String (ascii_of_nat 160) " Acme ") = "Acme".
Proof. reflexivity. Qed.

(** ** The JSON codec reads back what it writes *)

Module JsonFacts.
Import Json.

(** A code unit as [JSON.stringify] writes it inside a string is read
    back as that code unit. *)
Lemma lex_escapeTo (ch : ascii) (rest buf : string) (acc : list token) :
  lex (escapeTo ch rest) (LString (Some buf)) acc
  = lex rest (LString (Some (buf ++ String ch EmptyString)%string)) acc.
Proof. destruct ch as [[] [] [] [] [] [] [] []]; reflexivity. Qed.

Lemma lex_escapeStringTo (v rest buf : string) (acc : list token) :
  lex (escapeStringTo v (String dquote rest)) (LString (Some buf)) acc
  = lex rest LIdle (acc ++ [TString (Some (buf ++ v)%string)]).
Proof.
  revert buf. induction v as [|ch v IH]; intros buf.
  - by rewrite append_empty_r.
  - cbn [escapeStringTo]. rewrite lex_escapeTo, IH.
    by rewrite append_assoc, append_cons, append_nil_l.
Qed.

Lemma lex_quoteTo (v rest : string) (acc : list token) :
  lex (quoteTo v rest) LIdle acc = lex rest LIdle (acc ++ [TString (Some v)]).
Proof.
  unfold quoteTo.
  change (lex (String dquote ?t) LIdle acc)
    with (lex t (LString (Some EmptyString)) (acc ++ [])).
  by rewrite app_nil_r, lex_escapeStringTo, append_nil_l.
Qed.

Lemma lex_memberTo (key : string) (valueTo : string -> string)
    (rest : string) (acc : list token) :
  lex (memberTo key valueTo rest) LIdle acc
  = lex (valueTo rest) LIdle (acc ++ [TString (Some key); TColon]).
Proof.
  unfold memberTo. rewrite lex_quoteTo.
  change (lex (String ":" ?t) LIdle ?a) with (lex t LIdle (a ++ [TColon])).
  by rewrite <- (assoc_L (++)).
Qed.

(** *** Decimal numbers *)

Lemma pretty_N_char_digit (x : N) :
  (x < 10)%N ->
  isDigit (pretty_N_char x) = true /\
  N.of_nat (nat_of_ascii (pretty_N_char x) - 48) = x /\
  (0 < x -> Ascii.eqb (pretty_N_char x) "0" = false)%N.
Proof.
  intros Hx.
  assert (x = 0 \/ x = 1 \/ x = 2 \/ x = 3 \/ x = 4 \/ x = 5 \/ x = 6 \/
          x = 7 \/ x = 8 \/ x = 9)%N as Hcases by lia.
  repeat destruct Hcases as [-> | Hcases]; try subst x;
    (split; [reflexivity | split; [reflexivity | intros; first [reflexivity | lia]]]).
Qed.

Lemma pretty_N_go_digits (x : N) (s0 : string) :
  allDigits s0 = true -> allDigits (pretty_N_go x s0) = true.
Proof.
  revert s0. induction (N.lt_wf_0 x) as [x _ IH]; intros s0 Hs.
  destruct (decide (x = 0)%N) as [-> | Hx].
  - by rewrite pretty_N_go_0.
  - rewrite pretty_N_go_step by lia.
    apply IH; [apply N.div_lt; lia|]. cbn [allDigits].
    destruct (pretty_N_char_digit (x mod 10)) as (-> & _);
      [apply N.mod_lt; lia | done].
Qed.

Lemma pretty_N_go_head (x : N) (s0 : string) :
  (0 < x)%N ->
  exists d t, pretty_N_go x s0 = String d t /\ isDigit d = true /\
              Ascii.eqb d "0" = false.
Proof.
  revert s0. induction (N.lt_wf_0 x) as [x _ IH]; intros s0 Hx.
  rewrite pretty_N_go_step by done.
  destruct (decide (x `div` 10 = 0)%N) as [Hq | Hq].
  - rewrite Hq, pretty_N_go_0.
    assert (x mod 10 = x)%N as Hm.
    { apply N.mod_small. apply N.div_small_iff in Hq; lia. }
    destruct (pretty_N_char_digit (x mod 10)) as (Hd & _ & Hz);
      [apply N.mod_lt; lia|].
    eexists _, _. split; [done|]. split; [done|]. apply Hz. lia.
  - apply IH; [apply N.div_lt; lia | by apply N.neq_0_lt_0].
Qed.

Lemma pretty_N_go_value (x : N) :
  exists k, forall s0 a,
    digitsValue (pretty_N_go x s0) a = digitsValue s0 (a * 10 ^ k + x)%N.
Proof.
  induction (N.lt_wf_0 x) as [x _ IH].
  destruct (decide (x = 0)%N) as [-> | Hx].
  - exists 0%N. intros s0 a. rewrite pretty_N_go_0. f_equal. lia.
  - destruct (IH (x `div` 10)%N) as [k Hk]; [apply N.div_lt; lia|].
    exists (N.succ k). intros s0 a.
    rewrite pretty_N_go_step by lia. rewrite Hk. cbn [digitsValue].
    destruct (pretty_N_char_digit (x mod 10)) as (_ & -> & _);
      [apply N.mod_lt; lia|].
    f_equal. rewrite N.pow_succ_r'.
    pose proof (N.div_mod x 10 ltac:(lia)). lia.
Qed.

Lemma dropDigits_allDigits (s0 : string) :
  allDigits s0 = true -> dropDigits s0 = EmptyString.
Proof.
  induction s0 as [|ch s0 IH]; [done|]. cbn [allDigits dropDigits].
  intros [-> Hs]%andb_true_iff. by apply IH.
Qed.

Lemma pretty_Npos (p : positive) :
  pretty (Npos p) = pretty_N_go (Npos p) EmptyString.
Proof. unfold pretty, pretty_N. by rewrite decide_False. Qed.

Lemma isDigit_not_minus (d : ascii) :
  isDigit d = true -> Ascii.eqb d "-" = false.
Proof. destruct d as [[] [] [] [] [] [] [] []]; done. Qed.

Lemma isDigit_isNumberChar (d : ascii) :
  isDigit d = true -> isNumberChar d = true.
Proof. unfold isNumberChar. by intros ->. Qed.

Lemma classifyBody_pretty (neg : bool) (p : positive) :
  Z.pos p < 2 ^ 53 ->
  classifyBody neg (pretty (Npos p))
  = NumberInt (if neg then Z.neg p else Z.pos p).
Proof.
  intros Hsafe. rewrite pretty_Npos.
  destruct (pretty_N_go_head (Npos p) EmptyString) as (d & t & Heq & Hd & Hz);
    [lia|].
  pose proof (pretty_N_go_digits (Npos p) EmptyString eq_refl) as Hall.
  destruct (pretty_N_go_value (Npos p)) as [k Hk].
  specialize (Hk EmptyString 0%N). cbn [digitsValue] in Hk.
  rewrite N.mul_0_l, N.add_0_l in Hk.
  unfold classifyBody. rewrite (dropDigits_allDigits _ Hall), Hk.
  rewrite Heq. cbn [startsWithDigit]. rewrite Hd. cbn [negb].
  assert (leadingZero (String d t) = false) as ->.
  { destruct t; cbn [leadingZero]; [done|]. by rewrite Hz. }
  assert ((Z.of_N (N.pos p) <? 2 ^ 53) = true) as -> by (apply Z.ltb_lt; lia).
  by destruct neg.
Qed.

Lemma classify_pretty (z : Z) :
  isSafe z = true -> classify (pretty z) = NumberInt z.
Proof.
  unfold isSafe. intros Hsafe%Z.ltb_lt. destruct z as [|p|p].
  - reflexivity.
  - change (pretty (Z.pos p)) with (pretty (Npos p)).
    pose proof (classifyBody_pretty false p ltac:(lia)) as Hbody.
    rewrite pretty_Npos in *.
    destruct (pretty_N_go_head (Npos p) EmptyString) as (d & t & Heq & Hd & _);
      [lia|].
    rewrite Heq in *. cbn [classify]. by rewrite (isDigit_not_minus d Hd).
  - change (pretty (Z.neg p)) with (String "-" (pretty (Npos p))).
    cbn [classify]. rewrite Ascii.eqb_refl.
    apply (classifyBody_pretty true p). lia.
Qed.

(** The digits of a number, then a character that is none of a number. *)
Lemma lex_number_run (run rest l : string) (ch : ascii) (acc : list token) :
  Forall (fun d => isNumberChar d = true) (list_ascii_of_string run) ->
  isNumberChar ch = false ->
  lex (run ++ String ch rest) (LNumber l) acc
  = match idle ch with
    | Some (m', ts) => lex rest m' (acc ++ [TNumber (l ++ run)%string] ++ ts)
    | None => None
    end.
Proof.
  intros Hrun Hch. revert l Hrun.
  induction run as [|d run IH]; intros l Hrun.
  - rewrite append_nil_l, append_empty_r. cbn [lex]. by rewrite Hch.
  - cbn [list_ascii_of_string] in Hrun. apply Forall_cons in Hrun as [Hd Hrun].
    rewrite append_cons. cbn [lex]. rewrite Hd, IH by done.
    by rewrite append_assoc, append_cons, append_nil_l.
Qed.

Lemma allDigits_number_chars (s0 : string) :
  allDigits s0 = true ->
  Forall (fun d => isNumberChar d = true) (list_ascii_of_string s0).
Proof.
  induction s0 as [|d s0 IH]; cbn [allDigits list_ascii_of_string];
    [constructor|].
  intros [Hd Hs]%andb_true_iff. constructor; [| by apply IH].
  by apply isDigit_isNumberChar.
Qed.

Lemma lex_digit (d : ascii) (t : string) (acc : list token) :
  isDigit d = true ->
  lex (String d t) LIdle acc
  = lex t (LNumber (String d EmptyString)) (acc ++ []).
Proof.
  destruct d as [[] [] [] [] [] [] [] []]; try discriminate 1; reflexivity.
Qed.

Lemma lex_numberTo (z : Z) (rest : string) (acc : list token) :
  lex (numberTo z (String comma rest)) LIdle acc
  = lex rest LIdle (acc ++ [TNumber (pretty z); TComma]).
Proof.
  unfold numberTo.
  assert (Hpos : forall p pre,
    Forall (fun d => isNumberChar d = true) (list_ascii_of_string pre) ->
    lex (pretty (Npos p) ++ String comma rest) (LNumber pre) acc
    = lex rest LIdle (acc ++ [TNumber (pre ++ pretty (Npos p))%string; TComma])).
  { intros p pre Hpre. rewrite pretty_Npos.
    rewrite (lex_number_run _ rest pre comma acc); [done | | done].
    apply allDigits_number_chars. by apply pretty_N_go_digits. }
  destruct z as [|p|p].
  - change (lex rest LIdle ((acc ++ []) ++ [TNumber "0"; TComma])
            = lex rest LIdle (acc ++ [TNumber "0"; TComma])).
    by rewrite app_nil_r.
  - change (pretty (Z.pos p)) with (pretty (Npos p)).
    rewrite pretty_Npos.
    destruct (pretty_N_go_head (Npos p) EmptyString) as (d & t & Heq & Hd & _);
      [lia|].
    pose proof (pretty_N_go_digits (Npos p) EmptyString eq_refl) as Hall.
    rewrite Heq in *. cbn [allDigits] in Hall.
    apply andb_true_iff in Hall as [_ Hall].
    rewrite append_cons, (lex_digit d _ acc Hd), app_nil_r.
    rewrite (lex_number_run t rest _ comma acc);
      [done | by apply allDigits_number_chars | done].
  - change (pretty (Z.neg p)) with (String "-" (pretty (Npos p))).
    rewrite append_cons.
    change (lex (String "-" ?t) LIdle acc)
      with (lex t (LNumber "-") (acc ++ [])).
    rewrite app_nil_r. by apply Hpos; repeat constructor.
Qed.


(** *** Records and arrays of records *)

Lemma lex_recordTo (e : SearchIndex) (rest : string) (acc : list token) :
  lex (recordTo e rest) LIdle acc = lex rest LIdle (acc ++ recordTokens e).
Proof.
  unfold recordTo.
  change (lex (String "{" ?t) LIdle acc) with (lex t LIdle (acc ++ [TLBrace])).
  repeat (rewrite lex_memberTo, lex_quoteTo;
          change (lex (String comma ?t) LIdle ?a)
            with (lex t LIdle (a ++ [TComma]))).
  rewrite lex_memberTo, lex_numberTo, lex_memberTo, lex_quoteTo.
  change (lex (String "}" ?t) LIdle ?a) with (lex t LIdle (a ++ [TRBrace])).
  f_equal. unfold recordTokens. by rewrite <- !(assoc_L (++)).
Qed.

Lemma lex_recordsTo (idx : list SearchIndex) (rest : string)
    (acc : list token) :
  lex (recordsTo idx rest) LIdle acc
  = lex rest LIdle (acc ++ recordsTokens idx).
Proof.
  revert acc. induction idx as [|e more IH]; intros acc.
  - by rewrite app_nil_r.
  - destruct more as [|e' more].
    + apply lex_recordTo.
    + change (recordsTo (e :: e' :: more) rest)
        with (recordTo e (String comma (recordsTo (e' :: more) rest))).
      change (recordsTokens (e :: e' :: more))
        with (recordTokens e ++ TComma :: recordsTokens (e' :: more)).
      rewrite lex_recordTo.
      change (lex (String comma ?t) LIdle ?a)
        with (lex t LIdle (a ++ [TComma])).
      rewrite IH. f_equal. rewrite <- !(assoc_L (++)). done.
Qed.

Lemma numberValue_pretty (z : Z) :
  isSafe z = true -> numberValue (pretty z) = Some (VNumber (Some z)).
Proof. intros Hsafe. unfold numberValue. by rewrite classify_pretty. Qed.

(** The parser, at a place for a value inside an array, takes the tokens
    of a record as one more item of that array. *)
Lemma run_recordTokens (e : SearchIndex) (toks : list token)
    (items : list value) (ph : phase) :
  ph = PValue \/ ph = PValueOrClose ->
  isSafe (i e) = true ->
  run (recordTokens e ++ toks) [FArray items] ph
  = run toks [FArray (items ++ [recordValue e])] PAfter.
Proof.
  intros Hph Hsafe. unfold recordTokens.
  destruct Hph as [-> | ->];
    cbn [run app step complete setKey closeObject mbind option_bind];
    rewrite (numberValue_pretty _ Hsafe);
    cbn [run app step complete setKey closeObject mbind option_bind];
    reflexivity.
Qed.

Lemma run_recordsTokens (idx : list SearchIndex) (e : SearchIndex)
    (items : list value) (ph : phase) :
  ph = PValue \/ ph = PValueOrClose ->
  forallb (fun e => isSafe (i e)) (e :: idx) = true ->
  run (recordsTokens (e :: idx) ++ [TRBracket]) [FArray items] ph
  = Some (VArray (items ++ map recordValue (e :: idx))).
Proof.
  revert e items ph. induction idx as [|e' more IH]; intros e items ph Hph Hsafe;
    cbn [forallb] in Hsafe; apply andb_true_iff in Hsafe as [He Hsafe].
  - cbn [recordsTokens]. by rewrite run_recordTokens.
  - change (recordsTokens (e :: e' :: more))
      with (recordTokens e ++ TComma :: recordsTokens (e' :: more)).
    rewrite <- (assoc_L (++)), run_recordTokens by done.
    change (run ((TComma :: ?t) ++ ?u) [FArray ?its] PAfter)
      with (run (t ++ u) [FArray its] PValue).
    rewrite IH by (done || by left).
    by rewrite <- (assoc_L (++)).
Qed.

Lemma recordOf_recordValue (e : SearchIndex) :
  recordOf (recordValue e) = Some e.
Proof. by destruct e. Qed.

Lemma recordsOf_recordValue (idx : list SearchIndex) :
  recordsOf (map recordValue idx) = Some idx.
Proof.
  induction idx as [|e idx IH]; [done|].
  cbn [map recordsOf]. by rewrite recordOf_recordValue, IH.
Qed.

Lemma stringify_safe (idx : list SearchIndex) :
  Forall (fun e => Z.abs (i e) < 2 ^ 53) idx ->
  Json.stringify idx = Some (String "[" (recordsTo idx "]")).
Proof.
  intros Hsafe. unfold stringify.
  assert (forallb (fun e => isSafe (i e)) idx = true) as ->; [| done].
  apply forallb_forall. intros e He. apply list_elem_of_In in He.
  unfold isSafe. apply Z.ltb_lt.
  by apply (proj1 (Forall_forall _ _) Hsafe).
Qed.

Lemma safe_offsets (idx : list SearchIndex) :
  forallb (fun e => isSafe (i e)) idx = true ->
  Forall (fun e => Z.abs (i e) < 2 ^ 53) idx.
Proof.
  intros Hall. apply Forall_forall. intros e He.
  apply list_elem_of_In in He.
  apply Z.ltb_lt. exact (proj1 (forallb_forall _ _) Hall e He).
Qed.

(** What [JSON.stringify] writes for an index, [JSON.parse] reads back as
    that index. *)
Lemma parse_stringify (idx : list SearchIndex) (text : string) :
  Json.stringify idx = Some text ->
  Json.parse text = Some (ParsedRecords idx).
Proof.
  unfold stringify. destruct (forallb _ idx) eqn:Hsafe; [| done].
  intros [= <-]. unfold parse, parseValue.
  change (lex (String "[" ?t) LIdle []) with (lex t LIdle [TLBracket]).
  rewrite lex_recordsTo.
  change (lex "]" LIdle ?a) with (Some (a ++ [TRBracket])).
  cbn [mbind option_bind].
  destruct idx as [|e idx]; [done|].
  rewrite <- !(assoc_L (++)).
  change (run ([TLBracket] ++ ?t) [] PValue)
    with (run t [FArray []] PValueOrClose).
  rewrite run_recordsTokens by (done || by right).
  rewrite app_nil_l. unfold toResult. by rewrite recordsOf_recordValue.
Qed.

(** The grammar at work: an elision and a trailing comma are syntax
    errors; an object is a value, but no index; white space is allowed
    around the tokens; control characters are written as escapes. *)
Example parse_rejects_elision :
  parse "[,]" = Some ParseThrows /\ parse "[1,]" = Some ParseThrows /\
  parse "01" = Some ParseThrows.
Proof. by vm_compute. Qed.

Example parse_object_is_no_index :
  parseValue "{}" = Some (VObject []) /\ parse "{}" = None.
Proof. by vm_compute. Qed.

Example parse_null_and_empty :
  parse " null " = Some ParsedNull /\ parse "[ ]" = Some (ParsedRecords []).
Proof. by vm_compute. Qed.

Example stringify_escapes :
  escapeStringTo
    (String (ascii_of_nat 10) (String (ascii_of_nat 1) (String dquote "a")))
    EmptyString
  = String backslash
      (String "n" (String backslash (String "u" (String "0" (String "0"
         (String "0" (String "1" (String backslash (String dquote "a"))))))))).
Proof. reflexivity. Qed.

End JsonFacts.

(** ** The match phase *)

Lemma take_exact {A : Type} (l1 l2 : list A) (k : nat) :
  length l1 = k -> take k (l1 ++ l2) = l1.
Proof. intros <-. by rewrite take_app_length. Qed.

(** While fewer than 50 entries are collected, the loop computes the first
    50 of what was collected followed by the matches still to come. *)
Lemma matchLoop_take (lowerQuery : string) (idx acc : list SearchIndex) :
  (length acc < 50)%nat ->
  matchLoop lowerQuery idx acc
  = take 50 (acc ++ List.filter (entryMatches lowerQuery) idx).
Proof.
  revert acc. induction idx as [|entry rest IH]; intros acc Hacc; simpl.
  - rewrite app_nil_r, take_ge; [done | lia].
  - destruct (entryMatches lowerQuery entry) eqn:Hm.
    + destruct (50 <=? Z.of_nat (length (acc ++ [entry]))) eqn:Hfull.
      * apply Z.leb_le in Hfull. rewrite length_app in Hfull. simpl in Hfull.
        rewrite (cons_middle entry acc (List.filter _ rest)), (assoc_L (++)).
        symmetry. apply take_exact. rewrite length_app. simpl. lia.
      * apply Z.leb_gt in Hfull. rewrite length_app in Hfull. simpl in Hfull.
        rewrite IH; [| rewrite length_app; simpl; lia].
        by rewrite (cons_middle entry acc (List.filter _ rest)), (assoc_L (++)).
    + by apply IH.
Qed.

Lemma matchPhase_take (query : string) (idx : list SearchIndex) :
  matchPhase query idx
  = take 50 (List.filter (entryMatches (toLowerCase query)) idx).
Proof. unfold matchPhase. rewrite matchLoop_take; [done | simpl; lia]. Qed.

(** A sequence with at least [k] matches splits after its [k]-th match. *)
Lemma filter_split {A : Type} (p : A -> bool) (k : nat) (l : list A) :
  (k <= length (List.filter p l))%nat ->
  exists l1 l2, l = l1 ++ l2 /\ length (List.filter p l1) = k.
Proof.
  revert k. induction l as [|x l IH]; intros k Hk; simpl in Hk.
  - exists [], []. split; [done|]. simpl. lia.
  - destruct k as [|k].
    + exists [], (x :: l). by split.
    + destruct (p x) eqn:Hx.
      * simpl in Hk. destruct (IH k) as (l1 & l2 & -> & Hlen); [lia|].
        exists (x :: l1), l2. split; [done|]. simpl. rewrite Hx. simpl. lia.
      * destruct (IH (S k)) as (l1 & l2 & -> & Hlen); [lia|].
        exists (x :: l1), l2. split; [done|]. simpl. by rewrite Hx.
Qed.

(** C1. For every query and every index with at least 51 matching records,
    the match phase returns exactly 50 records, namely the first 50
    matching records in scan order; the scan stops there: the index splits
    into the part scanned and a rest that still holds a match, and whatever
    stands in place of that rest, the result is the same. *)
Theorem match_phase_is_first_50 (query : string) (idx : list SearchIndex) :
  (51 <= length (List.filter (entryMatches (toLowerCase query)) idx))%nat ->
  length (matchPhase query idx) = 50%nat /\
  matchPhase query idx
  = take 50 (List.filter (entryMatches (toLowerCase query)) idx) /\
  exists scannedPart rest,
    idx = scannedPart ++ rest /\
    List.filter (entryMatches (toLowerCase query)) rest <> [] /\
    forall rest', matchPhase query (scannedPart ++ rest') = matchPhase query idx.
Proof.
  intros Hhits. split; [| split].
  - rewrite matchPhase_take, length_take. lia.
  - apply matchPhase_take.
  - destruct (filter_split (entryMatches (toLowerCase query)) 50 idx)
      as (l1 & l2 & -> & Hlen); [lia|].
    exists l1, l2. split; [done|]. split.
    + intros Hnil. rewrite List.filter_app, length_app, Hnil in Hhits.
      simpl in Hhits. lia.
    + intros rest'. rewrite !matchPhase_take, !List.filter_app.
      by rewrite !take_exact.
Qed.

Lemma match_phase_is_first_50_witness :
  length (matchPhase "AC" Sample.sixtyRecords) = 50%nat /\
  matchPhase "AC" Sample.sixtyRecords = take 50 Sample.sixtyRecords.
Proof.
  destruct (match_phase_is_first_50 "AC" Sample.sixtyRecords) as (H1 & H2 & _).
  - vm_compute. lia.
  - split; [exact H1 | exact H2].
Defined.

(** ** State and trace of the build *)

Section BuildFacts.
Context `{Platform}.

Lemma scanFiles_trace (env : Env) (files : list string)
    (acc : list SearchIndex) (io : list Event) :
  exists evs, scanIO (scanFiles env files acc io) = io ++ evs /\
              forallb isFileEvent evs = true.
Proof.
  revert acc io. induction files as [|file rest IH]; intros acc io; simpl.
  - exists []. by rewrite app_nil_r.
  - destruct (isCorpusFile file); simpl; [| apply IH].
    destruct (processFile env file acc) as [acc' completed].
    assert (Hev : isFileEvent (openEvent file) = true).
    { unfold openEvent. by destruct (endsWith file ".csv"). }
    destruct completed.
    + destruct (IH acc' (io ++ [openEvent file])) as (evs & -> & Hevs).
      exists (openEvent file :: evs). rewrite <- (assoc_L (++)). simpl.
      by rewrite Hev, Hevs.
    + exists [openEvent file]. simpl. by rewrite Hev.
Qed.

Lemma fallbackBuild_rateStore (env : Env) (w : World) :
  rateStore (fallbackBuild env w) = rateStore w.
Proof.
  unfold fallbackBuild. destruct (dataDirExists env); simpl; [| done].
  by destruct (readdirSync env).
Qed.

Lemma fallbackBuild_trace (env : Env) (w : World) :
  exists evs, trace (fallbackBuild env w) = trace w ++ evs /\
              forallb isFileEvent evs = true.
Proof.
  unfold fallbackBuild. destruct (dataDirExists env); simpl.
  - destruct (readdirSync env) as [files|]; simpl.
    + destruct (scanFiles_trace env files [] []) as (evs & -> & Hevs).
      exists (ExistsSync DATA_DIR :: ReaddirSync DATA_DIR :: evs).
      rewrite <- !(assoc_L (++)). by simpl.
    + exists [ExistsSync DATA_DIR; ReaddirSync DATA_DIR].
      by rewrite <- (assoc_L (++)).
  - by exists [ExistsSync DATA_DIR].
Qed.

(** The fallback always leaves an index behind. *)
Lemma fallbackBuild_sets_index (env : Env) (w : World) :
  GLOBAL_INDEX (fallbackBuild env w) <> None.
Proof.
  unfold fallbackBuild. destruct (dataDirExists env); simpl; [| done].
  by destruct (readdirSync env).
Qed.

Lemma buildIndex_rateStore (env : Env) (w : World) :
  rateStore (buildIndex env w) = rateStore w.
Proof.
  unfold buildIndex.
  destruct (isSet (GLOBAL_INDEX w) || IS_INDEXING w)%bool; [done|].
  destruct (indexFileExists env).
  - destruct (indexFileContent env) as [content|].
    + destruct (JSON_parse content); simpl; try done.
      by rewrite fallbackBuild_rateStore.
    + by rewrite fallbackBuild_rateStore.
  - by rewrite fallbackBuild_rateStore.
Qed.

Lemma buildIndex_trace (env : Env) (w : World) :
  exists evs, trace (buildIndex env w) = trace w ++ evs /\
              forallb isFileEvent evs = true.
Proof.
  unfold buildIndex.
  destruct (isSet (GLOBAL_INDEX w) || IS_INDEXING w)%bool.
  { exists []. by rewrite app_nil_r. }
  assert (Hfb : forall pre w0, forallb isFileEvent pre = true ->
            trace w0 = trace w ++ pre ->
            exists evs, trace (fallbackBuild env w0) = trace w ++ evs /\
                        forallb isFileEvent evs = true).
  { intros pre w0 Hpre Hw0.
    destruct (fallbackBuild_trace env w0) as (evs & -> & Hevs).
    exists (pre ++ evs). rewrite Hw0, <- (assoc_L (++)).
    split; [done|]. rewrite forallb_app. by rewrite Hpre, Hevs. }
  destruct (indexFileExists env).
  - destruct (indexFileContent env) as [content|].
    + destruct (JSON_parse content); simpl.
      * apply (Hfb [ExistsSync INDEX_FILE; ReadFileSync INDEX_FILE]);
          [done | simpl; by rewrite <- (assoc_L (++))].
      * exists [ExistsSync INDEX_FILE; ReadFileSync INDEX_FILE].
        by rewrite <- (assoc_L (++)).
      * exists [ExistsSync INDEX_FILE; ReadFileSync INDEX_FILE].
        by rewrite <- (assoc_L (++)).
    + apply (Hfb [ExistsSync INDEX_FILE; ReadFileSync INDEX_FILE]);
        [done | simpl; by rewrite <- (assoc_L (++))].
  - by apply (Hfb [ExistsSync INDEX_FILE]).
Qed.

Lemma resolveAll_trace (env : Env) (groups : list (string * list Z))
    (acc : list Company) (io : list Event) :
  exists evs, (resolveAll env groups acc io).2 = io ++ evs /\
              forallb isFileEvent evs = true.
Proof.
  revert acc io. induction groups as [|[file indices] rest IH];
    intros acc io; simpl.
  - exists []. by rewrite app_nil_r.
  - destruct (IH (resolveFile env file indices acc) (io ++ [openEvent file]))
      as (evs & -> & Hevs).
    exists (openEvent file :: evs). rewrite <- (assoc_L (++)). simpl.
    rewrite Hevs. split; [done|].
    unfold openEvent. by destruct (endsWith file ".csv").
Qed.

(** A built index, or a build in flight, makes [buildIndex] return at
    once. *)
Lemma buildIndex_noop (env : Env) (w : World) :
  isSet (GLOBAL_INDEX w) = true \/ IS_INDEXING w = true ->
  buildIndex env w = w.
Proof.
  intros Hw. unfold buildIndex.
  by destruct Hw as [-> | ->]; rewrite ?orb_true_r.
Qed.

Lemma isSet_true {A : Type} (o : option A) : o <> None -> isSet o = true.
Proof. by destruct o. Qed.

End BuildFacts.

(** ** The entry point *)

(** C2. A query of fewer than two code units, the empty one included, gets
    the empty result set, and the call leaves the whole state as it was:
    the index, the build flag, the rate-limit store and the trace of
    external calls are untouched. *)
Theorem short_query_returns_empty `{Platform} (env : Env) (query : string)
    (w : World) :
  (String.length query < 2)%nat ->
  searchCompanies env query w = (mkSearchResponse [] None None None, w).
Proof.
  intros Hlen. unfold searchCompanies.
  destruct query as [|a [|b rest]]; simpl in *; try done. lia.
Qed.

Lemma short_query_returns_empty_witness :
  @searchCompanies (Sample.platform 0) Sample.acmeEnv "a" (freshWorld ∅)
  = (mkSearchResponse [] None None None, freshWorld ∅).
Proof.
  apply (@short_query_returns_empty (Sample.platform 0)). simpl. lia.
Defined.

Lemma long_query_passes_guard (query : string) :
  (2 <= String.length query)%nat ->
  (negb (truthy query) || (Z.of_nat (String.length query) <? 2))%bool = false.
Proof.
  intros Hlen. destruct query as [|a [|b rest]]; simpl in *; try lia.
  apply Z.ltb_ge. lia.
Qed.

(** C3. An anonymous caller whose rate-limit check reports not allowed
    gets a normal return: no results, the reason, remaining 0, not premium.
    The index and the build flag are as before, and the only external calls
    of the run are the session check, the headers and the rate-limit check:
    nothing is built, scanned or read. *)
Theorem denied_before_any_search_work `{Platform} (env : Env)
    (query : string) (w : World) :
  (2 <= String.length query)%nat ->
  isUserLoggedIn env = false ->
  allowed (checkRateLimit (orElse (xForwardedFor env) "127.0.0.1")
                          (rateStore w)).1 = false ->
  (searchCompanies env query w).1
  = mkSearchResponse [] (Some limitExceeded) (Some 0) (Some false) /\
  GLOBAL_INDEX (searchCompanies env query w).2 = GLOBAL_INDEX w /\
  IS_INDEXING (searchCompanies env query w).2 = IS_INDEXING w /\
  trace (searchCompanies env query w).2
  = trace w ++ [CallIsUserLoggedIn; CallHeaders;
                CallCheckRateLimit (orElse (xForwardedFor env) "127.0.0.1")].
Proof.
  intros Hlen Hanon Hdenied. unfold searchCompanies.
  rewrite (long_query_passes_guard query Hlen), Hanon. simpl.
  destruct (checkRateLimit _ (rateStore w)) as [limit store'] eqn:Hcheck.
  simpl in Hdenied. rewrite Hdenied. simpl.
  by rewrite <- (assoc_L (++)).
Qed.

Lemma denied_before_any_search_work_witness :
  let w := @freshWorld (Sample.platform 1000) Sample.exhaustedStore in
  (@searchCompanies (Sample.platform 1000) Sample.acmeEnv "acme" w).1
  = mkSearchResponse [] (Some limitExceeded) (Some 0) (Some false) /\
  GLOBAL_INDEX (@searchCompanies (Sample.platform 1000) Sample.acmeEnv "acme" w).2
  = None.
Proof.
  intros w.
  destruct (@denied_before_any_search_work (Sample.platform 1000)
              Sample.acmeEnv "acme" w) as (H1 & H2 & _).
  - simpl. lia.
  - reflexivity.
  - vm_compute. reflexivity.
  - split; [exact H1 | exact H2].
Defined.

(** C7. [buildIndex] builds or loads at most once. A call that finds the
    index set, or the build flag set, returns the state unchanged: no scan,
    no load, no external call. So when a first call ends with the index
    set, a second call in sequence, in whatever environment, changes
    nothing. *)
Theorem buildIndex_runs_once `{Platform} (env env' : Env) (w : World) :
  (GLOBAL_INDEX w <> None -> buildIndex env w = w) /\
  (IS_INDEXING w = true -> buildIndex env w = w) /\
  (GLOBAL_INDEX (buildIndex env w) <> None ->
   buildIndex env' (buildIndex env w) = buildIndex env w).
Proof.
  split; [| split].
  - intros Hset. apply buildIndex_noop. left. by apply isSet_true.
  - intros Hflag. apply buildIndex_noop. by right.
  - intros Hset. apply buildIndex_noop. left. by apply isSet_true.
Qed.

(** A call that runs leaves the index unset in one case only: the snapshot
    exists, is readable and holds [null]. *)
Lemma buildIndex_unset_only_on_null `{Platform} (env : Env) (w : World) :
  GLOBAL_INDEX w = None -> IS_INDEXING w = false ->
  GLOBAL_INDEX (buildIndex env w) = None ->
  indexFileExists env = true /\
  exists content, indexFileContent env = Some content /\
                  JSON_parse content = ParsedNull.
Proof.
  intros Hnone Hflag. unfold buildIndex. rewrite Hnone, Hflag. simpl.
  destruct (indexFileExists env).
  - destruct (indexFileContent env) as [content|].
    + destruct (JSON_parse content) eqn:Hparse; simpl.
      * intros Hunset. by apply fallbackBuild_sets_index in Hunset.
      * intros _. split; [done|]. by exists content.
      * done.
    + intros Hunset. by apply fallbackBuild_sets_index in Hunset.
  - intros Hunset. by apply fallbackBuild_sets_index in Hunset.
Qed.

Lemma buildIndex_runs_once_witness :
  let w1 := @buildIndex (Sample.platform 0) Sample.acmeEnv (freshWorld ∅) in
  GLOBAL_INDEX w1 <> None /\
  @buildIndex (Sample.platform 0) Sample.brokenSnapshotEnv w1 = w1.
Proof.
  intros w1.
  assert (Hset : GLOBAL_INDEX w1 <> None) by (vm_compute; discriminate).
  split; [exact Hset|].
  exact (proj2 (proj2 (@buildIndex_runs_once (Sample.platform 0)
                         Sample.acmeEnv Sample.brokenSnapshotEnv
                         (freshWorld ∅))) Hset).
Defined.

(** What the [try] block does to the state, and what it answers: with no
    index after the build step the answer is the bare empty result;
    otherwise it carries [remaining] and [isPremium]. *)
Lemma searchIndexed_outcome `{Platform} (env : Env) (query : string)
    (isLoggedIn : bool) (remaining : Z) (w : World) :
  rateStore (searchIndexed env query isLoggedIn remaining w).2 = rateStore w /\
  (exists evs,
     trace (searchIndexed env query isLoggedIn remaining w).2 = trace w ++ evs /\
     forallb isFileEvent evs = true) /\
  (GLOBAL_INDEX (searchIndexed env query isLoggedIn remaining w).2 = None ->
   (searchIndexed env query isLoggedIn remaining w).1
   = mkSearchResponse [] None None None) /\
  (GLOBAL_INDEX (searchIndexed env query isLoggedIn remaining w).2 <> None ->
   respError (searchIndexed env query isLoggedIn remaining w).1 = None /\
   respRemaining (searchIndexed env query isLoggedIn remaining w).1
   = Some remaining /\
   respIsPremium (searchIndexed env query isLoggedIn remaining w).1
   = Some isLoggedIn).
Proof.
  unfold searchIndexed.
  set (w1 := if negb (isSet (GLOBAL_INDEX w)) then buildIndex env w else w).
  assert (Hstore : rateStore w1 = rateStore w).
  { subst w1. destruct (negb (isSet (GLOBAL_INDEX w))); [| done].
    apply buildIndex_rateStore. }
  assert (Htrace : exists evs, trace w1 = trace w ++ evs /\
                               forallb isFileEvent evs = true).
  { subst w1. destruct (negb (isSet (GLOBAL_INDEX w))).
    - apply buildIndex_trace.
    - exists []. by rewrite app_nil_r. }
  destruct (GLOBAL_INDEX w1) as [idx|] eqn:Hidx.
  - destruct (resolveAll env _ [] []) as [res io] eqn:Hres.
    destruct (resolveAll_trace env
                (groupByFile (matchLoop (toLowerCase query) idx [])) [] [])
      as (evs2 & Hio & Hevs2).
    rewrite Hres in Hio. simpl in Hio. subst io. simpl.
    split; [done|]. split; [| split].
    + destruct Htrace as (evs1 & -> & Hevs1). exists (evs1 ++ evs2).
      rewrite <- (assoc_L (++)). split; [done|].
      rewrite forallb_app. by rewrite Hevs1, Hevs2.
    + by rewrite Hidx.
    + done.
  - simpl. split; [done|]. split; [done|]. split; [done|]. by rewrite Hidx.
Qed.

(** C9, as the code has it. For a logged-in caller and a query of at least
    two code units, the run makes no rate-limit check and leaves the store
    as it was: after the session check its external calls are file-system
    calls only. When the index is set after the build step, the answer
    carries no error, [remaining = -1] (a value no quota count takes) and
    [isPremium = true]; when the index is still unset, the answer is the
    bare empty result, without [remaining] and [isPremium]. *)
Theorem privileged_caller_skips_rate_limit `{Platform} (env : Env)
    (query : string) (w : World) :
  isUserLoggedIn env = true ->
  (2 <= String.length query)%nat ->
  rateStore (searchCompanies env query w).2 = rateStore w /\
  (exists evs,
     trace (searchCompanies env query w).2
     = trace w ++ CallIsUserLoggedIn :: evs /\
     forallb isFileEvent evs = true) /\
  (GLOBAL_INDEX (searchCompanies env query w).2 <> None ->
   respError (searchCompanies env query w).1 = None /\
   respRemaining (searchCompanies env query w).1 = Some (-1) /\
   respIsPremium (searchCompanies env query w).1 = Some true) /\
  (GLOBAL_INDEX (searchCompanies env query w).2 = None ->
   (searchCompanies env query w).1 = mkSearchResponse [] None None None) /\
  (forall quota, 0 <= quota ->
     respRemaining (searchCompanies env query w).1 <> Some quota).
Proof.
  intros Hpremium Hlen. unfold searchCompanies.
  rewrite (long_query_passes_guard query Hlen), Hpremium. simpl.
  destruct (searchIndexed_outcome env query true (-1)
              (emit [CallIsUserLoggedIn] w))
    as (Hstore & (evs & Htrace & Hevs) & Hnone & Hsome).
  split; [exact Hstore|]. split; [| split; [| split]].
  - exists evs. rewrite Htrace. simpl. by rewrite <- (assoc_L (++)).
  - exact Hsome.
  - exact Hnone.
  - intros quota Hquota Heq.
    destruct (GLOBAL_INDEX (searchIndexed env query true (-1)
                              (emit [CallIsUserLoggedIn] w)).2) eqn:Hidx.
    + destruct Hsome as (_ & Hrem & _); [done|].
      rewrite Hrem in Heq. injection Heq. lia.
    + rewrite (Hnone eq_refl) in Heq. discriminate.
Qed.

Lemma privileged_caller_skips_rate_limit_witness :
  let out := @searchCompanies (Sample.platform 0) Sample.acmePremiumEnv "acme"
               (freshWorld ∅) in
  rateStore out.2 = ∅ /\
  respRemaining out.1 = Some (-1) /\ respIsPremium out.1 = Some true.
Proof.
  intros out.
  destruct (@privileged_caller_skips_rate_limit (Sample.platform 0)
              Sample.acmePremiumEnv "acme" (freshWorld ∅))
    as (Hstore & _ & Hsome & _).
  - reflexivity.
  - simpl. lia.
  - split; [exact Hstore|].
    destruct Hsome as (_ & Hrem & Hprem); [vm_compute; discriminate|].
    split; [exact Hrem | exact Hprem].
Defined.

(** C9 as stated fails: a logged-in caller that arrives while a build is in
    flight gets an answer with neither [remaining] nor [isPremium]. *)
Lemma privileged_caller_counterexample :
  let out := @searchCompanies (Sample.platform 0) Sample.acmePremiumEnv "acme"
               (buildingWorld ∅) in
  isUserLoggedIn Sample.acmePremiumEnv = true /\
  (2 <= String.length "acme")%nat /\
  ~ (respRemaining out.1 = Some (-1) /\ respIsPremium out.1 = Some true).
Proof.
  split; [reflexivity|]. split; [simpl; lia|].
  intros [Hrem _]. vm_compute in Hrem. discriminate.
Qed.

(** ** Row offsets of the delimited-text branch *)

Lemma collect_nil {A B : Type} (g : nat -> A -> option B) : collect g [] = [].
Proof. done. Qed.

Lemma collect_cons {A B : Type} (g : nat -> A -> option B) (x : A)
    (rows : list A) :
  collect g (x :: rows) = option_list (g 0%nat x) ++ collect (g ∘ S) rows.
Proof. unfold collect. simpl. by destruct (g 0%nat x). Qed.

Lemma collect_ext {A B : Type} (g h : nat -> A -> option B) (rows : list A) :
  (forall k x, g k x = h k x) -> collect g rows = collect h rows.
Proof. intros Hgh. unfold collect. f_equal. by apply imap_ext. Qed.

Lemma elem_of_collect {A B : Type} (g : nat -> A -> option B) (rows : list A)
    (y : B) :
  y ∈ collect g rows <-> exists k x, rows !! k = Some x /\ g k x = Some y.
Proof.
  unfold collect. rewrite list_elem_of_omap. split.
  - intros (o & Ho & Hy). apply elem_of_lookup_imap in Ho as (k & x & -> & Hk).
    by exists k, x.
  - intros (k & x & Hk & Hy). exists (g k x). split; [| done].
    apply elem_of_lookup_imap. by exists k, x.
Qed.

(** When [g] is defined at position [k] only, [collect] is that one
    element. *)
Lemma collect_single {A B : Type} (g : nat -> A -> option B) (rows : list A)
    (k : nat) (x : A) (y : B) :
  rows !! k = Some x -> g k x = Some y ->
  (forall j z, j <> k -> g j z = None) ->
  collect g rows = [y].
Proof.
  revert g k. induction rows as [|x0 rows IH]; intros g k Hk Hy Hother.
  - done.
  - rewrite collect_cons. destruct k as [|k]; simpl in Hk.
    + injection Hk as ->. rewrite Hy. simpl. f_equal.
      assert (Hnone : forall l : list A, collect (g ∘ S) l = []).
      { induction l as [|z l IHl] using rev_ind; [done|].
        unfold collect in *. rewrite imap_app, omap_app, IHl. simpl.
        rewrite Hother; [done | lia]. }
      apply Hnone.
    + rewrite (Hother 0%nat x0); [| lia]. simpl.
      apply (IH (g ∘ S) k); [done | done |].
      intros j z Hj. simpl. apply Hother. lia.
Qed.

(** One iteration on a data line: the counter advances, and the record of
    the line, if it has one, is pushed with the counter as its offset. *)
Lemma indexCsvLine_data (file : string) (sc : CsvScan) (line : string) :
  isHeader sc = false ->
  indexCsvLine file sc line
  = mkCsvScan false (nameIdx sc) (cinIdx sc) (stateIdx sc) (statusIdx sc)
      (index sc + 1)
      (newIndex sc ++
       option_list (recordAt file (nameIdx sc) (cinIdx sc) (stateIdx sc)
                      (statusIdx sc) (index sc) line)).
Proof.
  intros Hdata. unfold indexCsvLine, recordAt. rewrite Hdata.
  destruct (String.eqb (cellOr (cleanValues line) (nameIdx sc) "Unknown")
              "Unknown"); simpl; [| done].
  by rewrite app_nil_r.
Qed.

Lemma indexCsvLines_data (file : string) (rows : list string) (sc : CsvScan) :
  isHeader sc = false ->
  fold_left (indexCsvLine file) rows sc
  = mkCsvScan false (nameIdx sc) (cinIdx sc) (stateIdx sc) (statusIdx sc)
      (index sc + Z.of_nat (length rows))
      (newIndex sc ++
       collect (fun k =>
                  recordAt file (nameIdx sc) (cinIdx sc) (stateIdx sc)
                    (statusIdx sc) (index sc + Z.of_nat k)) rows).
Proof.
  revert sc. induction rows as [|line rows IH]; intros sc Hdata.
  - simpl. rewrite collect_nil, app_nil_r, Z.add_0_r.
    destruct sc; simpl in *; by subst.
  - simpl fold_left. rewrite indexCsvLine_data by done.
    rewrite IH by done. simpl. f_equal; [lia|].
    rewrite collect_cons, Z.add_0_r, <- (assoc_L (++)). do 2 f_equal.
    apply collect_ext. intros k x. simpl. f_equal. lia.
Qed.

(** The detail loop over the data lines: a result row is pushed for every
    position that is among the indices asked for. *)
Lemma detailCsvLines_data (file : string) (indices : list Z)
    (rows : list string) (ds : DetailScan) :
  dIsHeader ds = false ->
  fold_left (detailCsvLine file indices) rows ds
  = mkDetailScan false (currentIndex ds + Z.of_nat (length rows)) (header ds)
      (results ds ++
       collect (fun k line =>
                  if bool_decide (currentIndex ds + Z.of_nat k ∈ indices)
                  then Some (mkCompany file (currentIndex ds + Z.of_nat k)
                               (fillRow (header ds) (cleanValues line) 0 ∅))
                  else None) rows).
Proof.
  revert ds. induction rows as [|line rows IH]; intros ds Hdata.
  - simpl. rewrite collect_nil, app_nil_r, Z.add_0_r.
    destruct ds; simpl in *; by subst.
  - simpl fold_left. unfold detailCsvLine at 2. rewrite Hdata.
    rewrite IH by done. simpl. f_equal; [lia|].
    rewrite collect_cons, Z.add_0_r.
    destruct (bool_decide (currentIndex ds ∈ indices)); simpl.
    + rewrite <- (assoc_L (++)). do 2 f_equal.
      apply collect_ext. intros k x. simpl.
      by replace (currentIndex ds + 1 + Z.of_nat k)
        with (currentIndex ds + Z.of_nat (S k)) by lia.
    + f_equal. apply collect_ext. intros k x. simpl.
      by replace (currentIndex ds + 1 + Z.of_nat k)
        with (currentIndex ds + Z.of_nat (S k)) by lia.
Qed.

Lemma indexCsvLines_file (file hdr : string) (rows : list string)
    (acc : list SearchIndex) :
  index (indexCsvLines file (hdr :: rows) acc) = Z.of_nat (length rows) /\
  newIndex (indexCsvLines file (hdr :: rows) acc)
  = acc ++ collect (csvRowRecord file hdr) rows.
Proof.
  unfold indexCsvLines. simpl fold_left.
  rewrite (indexCsvLines_data file rows (indexCsvLine file (csvStart acc) hdr))
    by done.
  simpl. split; [done|]. reflexivity.
Qed.

Lemma detailCsvLines_file (file hdr : string) (indices : list Z)
    (rows : list string) (acc : list Company) :
  results (detailCsvLines file indices (hdr :: rows) acc)
  = acc ++ collect (fun k line =>
                      if bool_decide (Z.of_nat k ∈ indices)
                      then Some (csvRowCompany file hdr k line) else None) rows.
Proof.
  unfold detailCsvLines. simpl fold_left.
  rewrite (detailCsvLines_data file indices rows
             (detailCsvLine file indices (mkDetailScan true 0 [] acc) hdr))
    by done.
  simpl. reflexivity.
Qed.

(** C6. In the delimited-text branch, after the lines of a file (a header
    line, then the data rows) the counter has advanced once per data row,
    indexed or not, and the records pushed are, in order, the records of the
    rows that have a name, each with its 0-based position among all data
    rows as offset. The detail phase counts the same way: asked for the
    offset of a pushed record, it returns the result row built from the
    very line the record came from. *)
Theorem csv_offset_is_row_position (file hdr : string) (rows : list string)
    (acc : list SearchIndex) :
  index (indexCsvLines file (hdr :: rows) acc) = Z.of_nat (length rows) /\
  newIndex (indexCsvLines file (hdr :: rows) acc)
  = acc ++ collect (csvRowRecord file hdr) rows /\
  forall e, e ∈ collect (csvRowRecord file hdr) rows ->
    exists k line,
      rows !! k = Some line /\
      csvRowRecord file hdr k line = Some e /\
      i e = Z.of_nat k /\ f e = file /\
      results (detailCsvLines file [i e] (hdr :: rows) [])
      = [csvRowCompany file hdr k line].
Proof.
  destruct (indexCsvLines_file file hdr rows acc) as [Hcount Hrecs].
  split; [exact Hcount|]. split; [exact Hrecs|].
  intros e He. apply elem_of_collect in He as (k & line & Hk & Hrec).
  exists k, line.
  assert (Hi : i e = Z.of_nat k /\ f e = file).
  { unfold csvRowRecord, recordAt in Hrec.
    destruct (String.eqb _ "Unknown"); [done|]. by injection Hrec as <-. }
  destruct Hi as [Hi Hf]. repeat split; try done.
  rewrite detailCsvLines_file, Hi. simpl.
  apply (collect_single _ rows k line); [done | |].
  - rewrite bool_decide_eq_true_2; [done|]. by apply list_elem_of_singleton.
  - intros j z Hj. rewrite bool_decide_eq_false_2; [done|].
    rewrite list_elem_of_singleton. lia.
Qed.

(** The rows of [gapLines]: the nameless row at position 1 is not indexed,
    and the row after it has offset 2. *)
Example csv_offsets_skip_nothing :
  map i (newIndex (indexCsvLines "gap.csv" Sample.gapLines [])) = [0; 2] /\
  index (indexCsvLines "gap.csv" Sample.gapLines []) = 3.
Proof. by vm_compute. Qed.

(** ** The detail phase of the spreadsheet/JSON branch *)

Lemma jsNth_out_of_range {A : Type} (l : list A) (k : Z) :
  k < 0 \/ Z.of_nat (length l) <= k -> jsNth l k = None.
Proof.
  intros Hk. unfold jsNth. destruct (k <? 0) eqn:Hneg; [done|].
  apply Z.ltb_ge in Hneg. apply lookup_ge_None. lia.
Qed.

(** The loop pushes, in the order of the indices, the result row of every
    index that has a row. *)
Lemma detailBatch_omap (file : string) (data : list Row) (indices : list Z)
    (acc : list Company) :
  detailBatch file data indices acc
  = acc ++ omap (fun idx => mkCompany file idx <$> jsNth data idx) indices.
Proof.
  revert acc. induction indices as [|idx rest IH]; intros acc; simpl.
  - by rewrite app_nil_r.
  - destruct (jsNth data idx) as [row|]; simpl; rewrite IH; [| done].
    by rewrite <- (assoc_L (++)).
Qed.

(** C10. In the detail phase of a file that is not delimited text, an
    offset outside the parsed rows produces no result row and stops
    nothing: the loop returns (it is total), and what it returns is what it
    returns without that offset, the offsets before and after it being
    resolved as usual. *)
Theorem batch_offset_out_of_range_is_skipped (env : Env) (file : string)
    (data : list Row) (before after : list Z) (idx : Z) (acc : list Company) :
  endsWith file ".csv" = false ->
  sheetRows env file = Some data ->
  idx < 0 \/ Z.of_nat (length data) <= idx ->
  resolveFile env file (before ++ idx :: after) acc
  = resolveFile env file (before ++ after) acc /\
  resolveFile env file (before ++ idx :: after) acc
  = acc ++ omap (fun j => mkCompany file j <$> jsNth data j) before
        ++ omap (fun j => mkCompany file j <$> jsNth data j) after.
Proof.
  intros Hbatch Hdata Hrange. unfold resolveFile. rewrite Hbatch, Hdata.
  rewrite !detailBatch_omap, !omap_app. simpl.
  by rewrite (jsNth_out_of_range data idx Hrange).
Qed.

Lemma batch_offset_out_of_range_is_skipped_witness :
  resolveFile Sample.workbookEnv "companies.xlsx" ([0] ++ 7 :: [1]) []
  = resolveFile Sample.workbookEnv "companies.xlsx" ([0] ++ [1]) [] /\
  length (resolveFile Sample.workbookEnv "companies.xlsx" ([0] ++ 7 :: [1]) [])
  = 2%nat.
Proof.
  destruct (batch_offset_out_of_range_is_skipped Sample.workbookEnv
              "companies.xlsx" Sample.twoRows [0] [1] 7 []) as [H1 H2].
  - reflexivity.
  - reflexivity.
  - right. simpl. lia.
  - split; [exact H1|]. rewrite H2. reflexivity.
Defined.

(** ** Rows without a name *)

(** The delimited-text branch never pushes a record named [Unknown]. *)
Lemma csv_branch_excludes_unknown (file hdr : string) (rows : list string)
    (e : SearchIndex) :
  e ∈ collect (csvRowRecord file hdr) rows -> r e <> "Unknown".
Proof.
  intros He. apply elem_of_collect in He as (k & line & _ & Hrec).
  unfold csvRowRecord, recordAt in Hrec.
  destruct (String.eqb _ "Unknown") eqn:Hname; [done|].
  injection Hrec as <-. simpl. by apply String.eqb_neq.
Qed.

(** The spreadsheet/JSON branch pushes one record per row, whatever its
    name. *)
Lemma indexBatchRows_all (file : string) (data : list Row) (idx : Z)
    (acc : list SearchIndex) :
  indexBatchRows file data idx acc
  = acc ++ imap (fun k row => batchRecord file row (idx + Z.of_nat k)) data.
Proof.
  revert idx acc. induction data as [|row rest IH]; intros idx acc; simpl.
  - by rewrite app_nil_r.
  - rewrite IH, <- (assoc_L (++)), Z.add_0_r. simpl. do 2 f_equal.
    apply imap_ext. intros k x _. simpl. f_equal. lia.
Qed.

(** C4 at its failing input: a workbook whose only row has a CIN and no
    name column. The extracted name is [Unknown], and both builders index
    the row: the in-process build holds a record for it, and the script
    writes that record to the snapshot. *)
Theorem batch_branch_indexes_unknown_row :
  orElse (rowName Sample.namelessRow) "Unknown" = "Unknown" /\
  GLOBAL_INDEX (@buildIndex (Sample.platform 0) Sample.namelessEnv
                  (freshWorld ∅))
  = Some [mkSearchIndex "unknown" "U12345" EmptyString EmptyString
            "companies.xlsx" 0 "Unknown"] /\
  @BuildIndexScript.buildIndex (Sample.platform 0) Sample.namelessEnv
  = BuildIndexScript.Wrote
      (Sample.JSON_stringify
         [mkSearchIndex "unknown" "U12345" EmptyString EmptyString
            "companies.xlsx" 0 "Unknown"]).
Proof. by vm_compute. Qed.

(** ** The snapshot file in the data directory *)

(** Whatever the loop over the lines of a file pushes carries the name of
    the file. *)
Lemma indexCsvLines_source (file : string) (lines : list string)
    (sc : CsvScan) :
  exists recs, newIndex (fold_left (indexCsvLine file) lines sc)
               = newIndex sc ++ recs /\
               Forall (fun e => f e = file) recs.
Proof.
  revert sc. induction lines as [|line lines IH]; intros sc; simpl.
  - exists []. by rewrite app_nil_r.
  - destruct (IH (indexCsvLine file sc line)) as (recs & -> & Hrecs).
    unfold indexCsvLine at 1. destruct (isHeader sc); simpl.
    + by exists recs.
    + destruct (negb _); simpl.
      * eexists (_ :: recs). rewrite <- (assoc_L (++)). simpl.
        split; [done|]. by constructor.
      * by exists recs.
Qed.

Lemma processFile_source (env : Env) (file : string) (acc : list SearchIndex) :
  exists recs, (processFile env file acc).1 = acc ++ recs /\
               Forall (fun e => f e = file) recs.
Proof.
  unfold processFile. destruct (endsWith file ".csv").
  - destruct (readLines env file) as [lines fails]. simpl.
    apply (indexCsvLines_source file lines (csvStart acc)).
  - destruct (sheetRows env file) as [data|]; simpl.
    + rewrite indexBatchRows_all. eexists. split; [done|].
      apply Forall_forall. intros e He.
      apply elem_of_lookup_imap in He as (k & row & -> & _). done.
    + exists []. by rewrite app_nil_r.
Qed.

(** The script never indexes the snapshot file. *)
Lemma script_skips_snapshot (env : Env) (files : list string)
    (acc idx : list SearchIndex) :
  BuildIndexScript.scanFiles env files acc = Some idx ->
  exists recs, idx = acc ++ recs /\
               Forall (fun e => f e <> "search-index.json") recs.
Proof.
  revert acc. induction files as [|file rest IH]; intros acc; simpl.
  - intros [= <-]. exists []. by rewrite app_nil_r.
  - destruct (isCorpusFile file); simpl; [| apply IH].
    destruct (String.eqb file "search-index.json") eqn:Hsnap; [apply IH|].
    apply String.eqb_neq in Hsnap.
    destruct (processFile_source env file acc) as (recs1 & Hacc' & Hrecs1).
    destruct (processFile env file acc) as [acc' completed]. simpl in Hacc'.
    destruct completed; [| done]. intros Hscan.
    destruct (IH acc' Hscan) as (recs2 & -> & Hrecs2). subst acc'.
    exists (recs1 ++ recs2). rewrite <- (assoc_L (++)). split; [done|].
    apply Forall_app. split; [| done].
    eapply Forall_impl; [exact Hrecs1|]. simpl. by intros e ->.
Qed.

(** C5 at its failing input: a data directory that holds a corpus file and
    a snapshot on which [JSON.parse] throws. The in-process build falls
    back to the scan, opens the snapshot file as a workbook and indexes its
    row; the script, on the same directory, indexes the corpus file
    alone. *)
Theorem app_build_scans_snapshot_file :
  Sample.JSON_parse Sample.brokenSnapshot = ParseThrows /\
  (exists e,
     e ∈ default [] (GLOBAL_INDEX (@buildIndex (Sample.platform 0)
                                    Sample.brokenSnapshotEnv (freshWorld ∅))) /\
     f e = "search-index.json") /\
  ReadFileSync (DataFile "search-index.json")
    ∈ trace (@buildIndex (Sample.platform 0) Sample.brokenSnapshotEnv
               (freshWorld ∅)) /\
  BuildIndexScript.scanFiles Sample.brokenSnapshotEnv
    ["companies.csv"; "search-index.json"] []
  = Some (newIndex (indexCsvLines "companies.csv" Sample.acmeLines [])).
Proof.
  split; [by vm_compute|]. split; [| split; [| by vm_compute]].
  - exists (batchRecord "search-index.json" Sample.brokenSnapshotRow 0).
    split; [| done]. vm_compute. apply list_elem_of_In. simpl. tauto.
  - vm_compute. apply list_elem_of_In. simpl. tauto.
Qed.

(** ** The snapshot round trip *)

(** On a listing without the snapshot file the two loops over the files
    push the same records. *)
Lemma scans_agree (env : Env) (files : list string)
    (acc idx : list SearchIndex) (io : list Event) :
  "search-index.json" ∉ files ->
  BuildIndexScript.scanFiles env files acc = Some idx ->
  scanned (scanFiles env files acc io) = idx /\
  scanCompleted (scanFiles env files acc io) = true.
Proof.
  revert acc io. induction files as [|file rest IH]; intros acc io Hnot; simpl.
  - by intros [= <-].
  - apply not_elem_of_cons in Hnot as [Hfile Hrest].
    destruct (isCorpusFile file); simpl; [| by apply IH].
    destruct (String.eqb file "search-index.json") eqn:Hsnap.
    { apply String.eqb_eq in Hsnap. by subst. }
    destruct (processFile env file acc) as [acc' completed].
    destruct completed; [| done]. by apply IH.
Qed.

(** The script passes over the snapshot file wherever it stands in the
    listing. *)
Lemma script_scan_ignores_snapshot (env : Env) (files : list string)
    (acc : list SearchIndex) :
  BuildIndexScript.scanFiles env (files ++ ["search-index.json"]) acc
  = BuildIndexScript.scanFiles env files acc.
Proof.
  revert acc. induction files as [|file rest IH]; intros acc; simpl.
  - by destruct (isCorpusFile "search-index.json").
  - destruct (isCorpusFile file); simpl; [| apply IH].
    destruct (String.eqb file "search-index.json"); [apply IH|].
    destruct (processFile env file acc) as [acc' completed].
    destruct completed; [apply IH | done].
Qed.

(** The loop of the script reads the corpus files only. *)
Lemma script_scan_same_corpus (env env' : Env) (files : list string)
    (acc : list SearchIndex) :
  readLines env' = readLines env -> sheetRows env' = sheetRows env ->
  BuildIndexScript.scanFiles env' files acc
  = BuildIndexScript.scanFiles env files acc.
Proof.
  intros Hlines Hrows. revert acc.
  induction files as [|file rest IH]; intros acc; simpl; [done|].
  destruct (isCorpusFile file); simpl; [| apply IH].
  destruct (String.eqb file "search-index.json"); [apply IH|].
  unfold processFile. rewrite Hlines, Hrows.
  destruct (endsWith file ".csv").
  - destruct (readLines env file) as [lines fails].
    destruct (negb fails); [apply IH | done].
  - destruct (sheetRows env file); [apply IH | done].
Qed.

(** The detail phase reads the corpus files only. *)
Lemma resolveAll_same_corpus (env env' : Env)
    (groups : list (string * list Z)) (acc : list Company) (io : list Event) :
  readLines env' = readLines env -> sheetRows env' = sheetRows env ->
  resolveAll env' groups acc io = resolveAll env groups acc io.
Proof.
  intros Hlines Hrows. revert acc io.
  induction groups as [|[file indices] rest IH]; intros acc io; simpl; [done|].
  rewrite IH. unfold resolveFile. by rewrite Hlines, Hrows.
Qed.

Section RoundTrip.
Context `{Platform}.
Variables (env : Env) (files : list string) (idx : list SearchIndex).
Hypothesis Hdir : dataDirExists env = true.
Hypothesis Hfiles : readdirSync env = Some files.
Hypothesis Hscan : BuildIndexScript.scanFiles env files [] = Some idx.

(** A process without an index that finds the snapshot loads it and scans
    nothing. *)
Lemma reload_gives_index (w : World) :
  GLOBAL_INDEX w = None -> IS_INDEXING w = false ->
  JSON_parse (JSON_stringify idx) = ParsedRecords idx ->
  buildIndex (withSnapshot env (JSON_stringify idx)) w
  = mkWorld _ (Some idx) false (rateStore w)
      (trace w ++ [ExistsSync INDEX_FILE; ReadFileSync INDEX_FILE]).
Proof.
  intros Hnone Hflag Hcodec. unfold buildIndex. rewrite Hnone, Hflag. simpl.
  rewrite Hcodec. unfold setIndexing, setIndex, emit. simpl.
  by rewrite <- (assoc_L (++)).
Qed.

(** A process without an index that finds no snapshot scans the corpus. *)
Lemma rescan_gives_index (w : World) :
  GLOBAL_INDEX w = None -> IS_INDEXING w = false ->
  indexFileExists env = false -> "search-index.json" ∉ files ->
  GLOBAL_INDEX (buildIndex env w) = Some idx.
Proof.
  intros Hnone Hflag Hnosnap Hnot. unfold buildIndex.
  rewrite Hnone, Hflag, Hnosnap. simpl.
  unfold fallbackBuild. rewrite Hdir, Hfiles. simpl.
  by destruct (scans_agree env files [] idx [] Hnot Hscan) as [-> _].
Qed.

(** The two processes answer a search alike. *)
Lemma reload_and_rescan_answer_alike (query : string) (isLoggedIn : bool)
    (remaining : Z) (w : World) :
  GLOBAL_INDEX w = None -> IS_INDEXING w = false ->
  JSON_parse (JSON_stringify idx) = ParsedRecords idx ->
  indexFileExists env = false -> "search-index.json" ∉ files ->
  (searchIndexed (withSnapshot env (JSON_stringify idx)) query isLoggedIn
     remaining w).1
  = (searchIndexed env query isLoggedIn remaining w).1.
Proof.
  intros Hnone Hflag Hcodec Hnosnap Hnot. unfold searchIndexed.
  rewrite Hnone. simpl.
  rewrite (reload_gives_index w Hnone Hflag Hcodec).
  rewrite (rescan_gives_index w Hnone Hflag Hnosnap Hnot). simpl.
  rewrite (resolveAll_same_corpus env (withSnapshot env (JSON_stringify idx)))
    by done.
  by destruct (resolveAll env _ [] []).
Qed.

End RoundTrip.

(** The listing of the data directory once the snapshot is written, and the
    script scanning it again. *)
Lemma script_rescan_with_snapshot (env : Env) (files : list string)
    (idx : list SearchIndex) (content : string) :
  readdirSync env = Some files ->
  BuildIndexScript.scanFiles env files [] = Some idx ->
  exists listing,
    readdirSync (withSnapshot env content) = Some listing /\
    BuildIndexScript.scanFiles (withSnapshot env content) listing [] = Some idx.
Proof.
  intros Hfiles Hscan. unfold withSnapshot at 1. cbn [readdirSync].
  rewrite Hfiles. cbn [fmap option_fmap option_map].
  destruct (bool_decide ("search-index.json" ∈ files)).
  - exists files. split; [done|].
    by rewrite (script_scan_same_corpus env).
  - exists (files ++ ["search-index.json"]). split; [done|].
    by rewrite (script_scan_same_corpus env), script_scan_ignores_snapshot.
Qed.

(** The codec of the sample platform is JSON. *)
Lemma sample_platform_json (now : Z) : JsonCodec (Sample.platform now).
Proof.
  split.
  - intros text result Hparse. cbn [JSON_parse Sample.platform].
    unfold Sample.JSON_parse. by rewrite Hparse.
  - intros idx text Htext. cbn [JSON_stringify Sample.platform].
    unfold Sample.JSON_stringify. by rewrite Htext.
Qed.

(** On a platform whose codec is JSON, the snapshot written for an index
    with offsets below 2^53 is read back as that index. *)
Lemma JSON_round_trip `{P : Platform} `{!JsonCodec P}
    (idx : list SearchIndex) :
  Forall (fun e => Z.abs (i e) < 2 ^ 53) idx ->
  JSON_parse (JSON_stringify idx) = ParsedRecords idx.
Proof.
  intros Hsafe. pose proof (JsonFacts.stringify_safe idx Hsafe) as Htext.
  rewrite (JSON_stringify_json _ _ Htext).
  by apply JSON_parse_json, JsonFacts.parse_stringify.
Qed.

(** C8. Let the script scan a corpus and write the snapshot with
    [JSON.stringify], the offsets of the index being below 2^53. Then
    [JSON.parse] reads the snapshot back as that index, so a fresh process
    that finds the snapshot loads exactly the records the script gets by
    scanning the directory again, the snapshot now in it. When the corpus
    had no snapshot before, a fresh process without snapshot gets the same
    records by scanning the same corpus; the matches of every query are
    then the same in the two processes, and so is the whole answer of
    [searchCompanies]. *)
Theorem snapshot_round_trip `{P : Platform} `{!JsonCodec P} (env : Env)
    (files : list string) (idx : list SearchIndex) (store : RateStore) :
  dataDirExists env = true ->
  readdirSync env = Some files ->
  indexFileWritable env = true ->
  BuildIndexScript.scanFiles env files [] = Some idx ->
  Forall (fun e => Z.abs (i e) < 2 ^ 53) idx ->
  BuildIndexScript.buildIndex env
  = BuildIndexScript.Wrote (JSON_stringify idx) /\
  Json.parse (JSON_stringify idx) = Some (ParsedRecords idx) /\
  GLOBAL_INDEX (buildIndex (withSnapshot env (JSON_stringify idx))
                  (freshWorld store)) = Some idx /\
  (exists listing,
     readdirSync (withSnapshot env (JSON_stringify idx)) = Some listing /\
     BuildIndexScript.scanFiles (withSnapshot env (JSON_stringify idx))
       listing [] = Some idx) /\
  (indexFileExists env = false -> "search-index.json" ∉ files ->
   GLOBAL_INDEX (buildIndex env (freshWorld store)) = Some idx /\
   (forall query,
      matchPhase query <$>
        GLOBAL_INDEX (buildIndex (withSnapshot env (JSON_stringify idx))
                        (freshWorld store))
      = matchPhase query <$>
          GLOBAL_INDEX (buildIndex env (freshWorld store))) /\
   (forall query,
      (searchCompanies (withSnapshot env (JSON_stringify idx)) query
         (freshWorld store)).1
      = (searchCompanies env query (freshWorld store)).1)).
Proof.
  intros Hdir Hfiles Hwrite Hscan Hsafe.
  pose proof (JSON_round_trip idx Hsafe) as Hcodec.
  assert (Hreload :
    GLOBAL_INDEX (buildIndex (withSnapshot env (JSON_stringify idx))
                    (freshWorld store)) = Some idx).
  { by rewrite (reload_gives_index env idx (freshWorld store)). }
  split; [| split; [| split; [exact Hreload | split]]].
  - unfold BuildIndexScript.buildIndex. by rewrite Hdir, Hfiles, Hscan, Hwrite.
  - pose proof (JsonFacts.stringify_safe idx Hsafe) as Htext.
    rewrite (JSON_stringify_json _ _ Htext).
    by apply JsonFacts.parse_stringify.
  - by apply (script_rescan_with_snapshot env files).
  - intros Hnosnap Hnot.
    assert (Hrescan :
      GLOBAL_INDEX (buildIndex env (freshWorld store)) = Some idx).
    { by apply (rescan_gives_index env files idx). }
    split; [exact Hrescan | split].
    + intros query. by rewrite Hreload, Hrescan.
    + intros query. unfold searchCompanies. simpl.
      destruct (negb (truthy query) || _)%bool; [done|].
      destruct (isUserLoggedIn env); simpl.
      * by apply (reload_and_rescan_answer_alike env files idx).
      * destruct (checkRateLimit _ store) as [limit store'].
        destruct (allowed limit); simpl; [| done].
        by apply (reload_and_rescan_answer_alike env files idx).
Qed.

Lemma snapshot_round_trip_witness :
  let idx := newIndex (indexCsvLines "companies.csv" Sample.acmeLines []) in
  Json.parse (Sample.JSON_stringify idx) = Some (ParsedRecords idx) /\
  GLOBAL_INDEX (@buildIndex (Sample.platform 0)
                  (withSnapshot Sample.acmeEnv (Sample.JSON_stringify idx))
                  (freshWorld ∅))
  = GLOBAL_INDEX (@buildIndex (Sample.platform 0) Sample.acmeEnv (freshWorld ∅)).
Proof.
  intros idx.
  destruct (@snapshot_round_trip (Sample.platform 0) (sample_platform_json 0)
              Sample.acmeEnv ["companies.csv"; "README.md"] idx ∅)
    as (_ & Htext & Hreload & _ & Hrescan).
  - reflexivity.
  - reflexivity.
  - reflexivity.
  - by vm_compute.
  - apply JsonFacts.safe_offsets. by vm_compute.
  - split; [exact Htext|].
    destruct Hrescan as (Hrescan & _).
    + reflexivity.
    + intros Hin. apply list_elem_of_In in Hin. simpl in Hin.
      destruct Hin as [Heq | [Heq | []]]; discriminate.
    + exact (eq_trans Hreload (eq_sym Hrescan)).
Defined.

(** ** The extension filter of the corpus scan *)

Section RegexFacts.
Variable ci : bool.

Lemma nullable_matches (re : regex) :
  nullable re = true <-> matches ci re EmptyString.
Proof.
  split.
  - induction re as [| | | |r1 IH1 r2 IH2|r1 IH1 r2 IH2|r1 IH1]; simpl;
      intros Hn; try done.
    + constructor.
    + apply andb_true_iff in Hn as [H1 H2].
      apply (MSeq ci r1 r2 EmptyString EmptyString); auto.
    + apply orb_true_iff in Hn as [H1 | H2];
        [apply MAltL | apply MAltR]; auto.
    + constructor.
  - intros Hm. remember EmptyString as s0 eqn:Hs0.
    induction Hm as [| | |r1 r2 s1 s2 _ IH1 _ IH2|r1 r2 s0 _ IH|r1 r2 s0 _ IH
                     | |r1 s1 s2 _ _ _ _]; simpl; try done.
    + apply append_empty_inv in Hs0 as [-> ->].
      by rewrite IH1, IH2.
    + by rewrite IH.
    + rewrite IH by done. apply orb_true_r.
Qed.

Lemma deriv_matches_cons (re : regex) (s0 : string) :
  matches ci re s0 ->
  forall a s, s0 = String a s -> matches ci (deriv ci a re) s.
Proof.
  induction 1 as [|c b Hc|b Hb|r1 r2 s1 s2 H1 IH1 H2 IH2|r1 r2 s1 H1 IH1
                  |r1 r2 s1 H2 IH2| |r1 s1 s2 H1 IH1 H2 IH2];
    intros a s Hs; simpl.
  - done.
  - injection Hs as -> <-. rewrite Hc. constructor.
  - injection Hs as -> <-. rewrite Hb. constructor.
  - destruct s1 as [|b s1]; rewrite ?append_nil_l, ?append_cons in Hs.
    + apply nullable_matches in H1. rewrite H1. apply MAltR. by apply IH2.
    + injection Hs as -> <-.
      destruct (nullable r1); [apply MAltL|]; apply MSeq; auto.
  - apply MAltL. by apply IH1.
  - apply MAltR. by apply IH2.
  - done.
  - destruct s1 as [|b s1]; rewrite ?append_nil_l, ?append_cons in Hs.
    + by apply IH2.
    + injection Hs as -> <-. apply MSeq; auto.
Qed.

Lemma matches_deriv (re : regex) (a : ascii) (s : string) :
  matches ci (deriv ci a re) s -> matches ci re (String a s).
Proof.
  revert s. induction re as [| |c| |r1 IH1 r2 IH2|r1 IH1 r2 IH2|r1 IH1];
    intros s; simpl.
  - inversion 1.
  - inversion 1.
  - destruct (sameChar ci c a) eqn:Hc; inversion 1. by constructor.
  - destruct (isLineTerminator a) eqn:Ha; inversion 1. by constructor.
  - assert (Hseq : matches ci (RSeq (deriv ci a r1) r2) s ->
                   matches ci (RSeq r1 r2) (String a s)).
    { inversion 1 as [| | |? ? s1 s2 H1 H2| | | |]; subst.
      apply (MSeq ci r1 r2 (String a s1) s2); auto. }
    destruct (nullable r1) eqn:Hn; [| exact Hseq].
    inversion 1 as [| | | |? ? ? HL|? ? ? HR| |]; subst; [by apply Hseq|].
    apply (MSeq ci r1 r2 EmptyString (String a s)); [| by apply IH2].
    by apply nullable_matches.
  - inversion 1 as [| | | |? ? ? HL|? ? ? HR| |]; subst;
      [apply MAltL | apply MAltR]; auto.
  - inversion 1 as [| | |? ? s1 s2 H1 H2| | | |]; subst.
    apply (MStarApp ci r1 (String a s1) s2); auto.
Qed.

(** [matchWhole] decides the language of the pattern. *)
Lemma matchWhole_matches (re : regex) (s : string) :
  matchWhole ci re s = true <-> matches ci re s.
Proof.
  revert re. induction s as [|a s IH]; intros re; simpl.
  - apply nullable_matches.
  - rewrite IH. split; [apply matches_deriv|].
    intros Hm. by apply (deriv_matches_cons re (String a s)).
Qed.

(** [reTestEnd] finds a suffix in the language of the pattern. *)
Lemma reTestEnd_suffix (re : regex) (s : string) :
  reTestEnd ci re s = true <->
  exists s1 s2, s = (s1 ++ s2)%string /\ matches ci re s2.
Proof.
  induction s as [|a s IH]; simpl.
  - rewrite orb_false_r. rewrite nullable_matches. split.
    + intros Hm. by exists EmptyString, EmptyString.
    + intros (s1 & s2 & Hs & Hm). symmetry in Hs.
      apply append_empty_inv in Hs as [-> ->]. done.
  - rewrite orb_true_iff, IH. rewrite (matchWhole_matches _ s). split.
    + intros [Hm | (s1 & s2 & -> & Hm)].
      * exists EmptyString, (String a s). split; [done|].
        by apply matches_deriv.
      * by exists (String a s1), s2.
    + intros (s1 & s2 & Hs & Hm). destruct s1 as [|b s1]; rewrite ?append_nil_l, ?append_cons in Hs.
      * subst s2. left. by apply (deriv_matches_cons re (String a s)).
      * injection Hs as -> ->. right. by exists s1, s2.
Qed.

End RegexFacts.

(** Without the [i] flag a literal pattern matches its own spelling only. *)
Lemma matches_RLit (p s0 : string) : matches false (RLit p) s0 <-> s0 = p.
Proof.
  split.
  - revert s0. induction p as [|ch p IH]; intros s0; simpl.
    + by inversion 1.
    + inversion 1 as [| | |? ? s1 s2 H1 H2| | | |]; subst.
      inversion H1 as [|? a Ha| | | | | |]; subst.
      apply Ascii.eqb_eq in Ha as ->. rewrite append_cons, append_nil_l.
      f_equal. by apply IH.
  - intros ->. induction p as [|ch p IH]; simpl; [constructor|].
    apply (MSeq false (RChar ch) (RLit p) (String ch EmptyString) p);
      [| exact IH].
    constructor. apply Ascii.eqb_refl.
Qed.

Lemma matches_reCorpusFile (s0 : string) :
  matches false reCorpusFile s0 <->
  s0 = ".csv" \/ s0 = ".xlsx" \/ s0 = ".xls" \/ s0 = ".json".
Proof.
  unfold reCorpusFile. split.
  - inversion 1 as [| | |? ? s1 s2 H1 H2| | | |]; subst.
    inversion H1 as [|? a Ha| | | | | |]; subst.
    apply Ascii.eqb_eq in Ha as <-. rewrite append_cons, append_nil_l.
    inversion H2 as [| | | |? ? ? HL|? ? ? HR| |]; subst.
    { apply (matches_RLit "csv") in HL as ->. by left. }
    inversion HR as [| | | |? ? ? HL|? ? ? HR'| |]; subst.
    { apply (matches_RLit "xlsx") in HL as ->. right. by left. }
    inversion HR' as [| | | |? ? ? HL|? ? ? HR''| |]; subst.
    { apply (matches_RLit "xls") in HL as ->. right. right. by left. }
    apply (matches_RLit "json") in HR'' as ->. right. right. by right.
  - assert (Hext : forall ext,
              matches false
                (RAlt (RLit "csv")
                   (RAlt (RLit "xlsx") (RAlt (RLit "xls") (RLit "json")))) ext ->
              matches false
                (RSeq (RChar ".")
                   (RAlt (RLit "csv")
                      (RAlt (RLit "xlsx") (RAlt (RLit "xls") (RLit "json")))))
                (String "." ext)).
    { intros ext Hm.
      apply (MSeq false (RChar ".") _ (String "." EmptyString) ext);
        [by constructor | exact Hm]. }
    intros [-> | [-> | [-> | ->]]]; apply Hext.
    + apply MAltL. by apply matches_RLit.
    + apply MAltR, MAltL. by apply matches_RLit.
    + apply MAltR, MAltR, MAltL. by apply matches_RLit.
    + apply MAltR, MAltR, MAltR. by apply matches_RLit.
Qed.

Lemma startsWith_prefix (s0 p : string) :
  startsWith s0 p = true <-> exists t, s0 = (p ++ t)%string.
Proof.
  revert s0. induction p as [|ch p IH]; intros s0.
  - split; [| by destruct s0]. intros _. by exists s0.
  - destruct s0 as [|a s0]; simpl.
    + split; [done|]. intros [t Ht]. by rewrite append_cons in Ht.
    + rewrite andb_true_iff, IH, Ascii.eqb_eq. split.
      * intros [-> [t ->]]. by exists t.
      * intros [t Ht]. rewrite append_cons in Ht. injection Ht as -> ->.
        split; [done|]. by exists t.
Qed.

Lemma revString_acc (s0 acc : string) :
  revString s0 acc = (revString s0 EmptyString ++ acc)%string.
Proof.
  revert acc. induction s0 as [|a s0 IH]; intros acc; simpl; [done|].
  rewrite (IH (String a acc)), (IH (String a EmptyString)).
  by rewrite append_assoc, append_cons, append_nil_l.
Qed.

Lemma revString_append (s1 s2 : string) :
  revString (s1 ++ s2)%string EmptyString
  = (revString s2 EmptyString ++ revString s1 EmptyString)%string.
Proof.
  induction s1 as [|a s1 IH].
  - by rewrite append_nil_l, append_empty_r.
  - rewrite append_cons. simpl.
    rewrite (revString_acc (s1 ++ s2)), (revString_acc s1), IH.
    by rewrite append_assoc.
Qed.

Lemma revString_involutive (s0 : string) :
  revString (revString s0 EmptyString) EmptyString = s0.
Proof.
  induction s0 as [|a s0 IH]; simpl; [done|].
  by rewrite (revString_acc s0 (String a EmptyString)), revString_append, IH.
Qed.

(** [endsWith] is the suffix test. *)
Lemma endsWith_suffix (s0 suf : string) :
  endsWith s0 suf = true <-> exists pre, s0 = (pre ++ suf)%string.
Proof.
  unfold endsWith. rewrite startsWith_prefix. split.
  - intros [t Ht]. exists (revString t EmptyString).
    rewrite <- (revString_involutive s0), Ht, revString_append.
    by rewrite revString_involutive.
  - intros [pre ->]. exists (revString pre EmptyString).
    apply revString_append.
Qed.

(** The corpus scan accepts exactly the names that end in one of the four
    extensions. *)
Lemma isCorpusFile_extension (file : string) :
  isCorpusFile file = true <->
  endsWith file ".csv" = true \/ endsWith file ".xlsx" = true \/
  endsWith file ".xls" = true \/ endsWith file ".json" = true.
Proof.
  unfold isCorpusFile. rewrite reTestEnd_suffix, !endsWith_suffix. split.
  - intros (s1 & s2 & -> & Hm).
    apply matches_reCorpusFile in Hm as [-> | [-> | [-> | ->]]]; eauto.
  - intros [[pre ->] | [[pre ->] | [[pre ->] | [pre ->]]]];
      eexists pre, _; (split; [done|]); apply matches_reCorpusFile; auto.
Qed.

(** The loop of actions.ts opens accepted files only. *)
Lemma scanFiles_opens_corpus_files (env : Env) (files : list string)
    (acc : list SearchIndex) (io : list Event) (ev : Event) :
  ev ∈ scanIO (scanFiles env files acc io) ->
  ev ∈ io \/ exists file, file ∈ files /\ isCorpusFile file = true /\
                          ev = openEvent file.
Proof.
  revert acc io. induction files as [|file rest IH]; intros acc io; simpl.
  - by left.
  - destruct (isCorpusFile file) eqn:Hfile; simpl.
    + destruct (processFile env file acc) as [acc' completed].
      assert (Hhere : ev ∈ io ++ [openEvent file] ->
                ev ∈ io \/ exists file0, file0 ∈ file :: rest /\
                             isCorpusFile file0 = true /\ ev = openEvent file0).
      { intros Hev. apply elem_of_app in Hev as [Hev | Hev]; [by left|].
        apply list_elem_of_singleton in Hev as ->. right. exists file.
        split; [by left | done]. }
      destruct completed; [| exact Hhere].
      intros Hev. apply IH in Hev as [Hev | (file0 & Hin & Hok & ->)].
      * by apply Hhere.
      * right. exists file0. split; [by right | done].
    + intros Hev. apply IH in Hev as [Hev | (file0 & Hin & Hok & ->)].
      * by left.
      * right. exists file0. split; [by right | done].
Qed.

(** ** The end-to-end example *)

(** An anonymous caller with no earlier query searches [acme] in the sample
    corpus: one result, built from the first data row, and 9 queries left;
    a second query without matches then finds nothing and leaves 8. *)
Example end_to_end_acme :
  let first := @searchCompanies (Sample.platform 0) Sample.acmeEnv "acme"
                 (freshWorld ∅) in
  let second := @searchCompanies (Sample.platform 0) Sample.acmeEnv "zz"
                  first.2 in
  respResults first.1
  = [csvRowCompany "companies.csv" "Name,CIN,State,Status" 0
       "Acme Corp,CIN123,MH,Active"] /\
  (forall row, respResults first.1 = [row] ->
     row !! "id" = Some (JString "companies.csv-0") /\
     row !! "name" = Some (JString "Acme Corp") /\
     row !! "cin" = Some (JString "CIN123") /\
     row !! "state" = Some (JString "MH") /\
     row !! "status" = Some (JString "Active")) /\
  respRemaining first.1 = Some 9 /\
  respResults second.1 = [] /\
  respRemaining second.1 = Some 8.
Proof.
  split; [by vm_compute|]. split; [| by vm_compute].
  intros row Hrow. vm_compute in Hrow. injection Hrow as <-.
  by vm_compute.
Qed.

(** * Further properties of the code *)

(** ** More on the match phase *)

Lemma filter_sublist {A : Type} (p : A -> bool) (l : list A) :
  List.filter p l `sublist_of` l.
Proof.
  induction l as [|x l IH]; simpl; [done|].
  destruct (p x); by constructor.
Qed.

(** X1. When at most 50 records match, the match phase returns every
    matching record, in index order: the cap loses nothing below it. *)
Theorem match_phase_keeps_all_under_cap (query : string)
    (idx : list SearchIndex) :
  (length (List.filter (entryMatches (toLowerCase query)) idx) <= 50)%nat ->
  matchPhase query idx = List.filter (entryMatches (toLowerCase query)) idx.
Proof. intros Hlen. rewrite matchPhase_take. by apply take_ge. Qed.

Lemma match_phase_keeps_all_under_cap_witness :
  matchPhase "beta"
    (newIndex (indexCsvLines "companies.csv" Sample.acmeLines []))
  = [mkSearchIndex "beta llc" "CIN456" "DL" "Inactive" "companies.csv" 1
       "Beta LLC"].
Proof.
  rewrite match_phase_keeps_all_under_cap; [reflexivity|].
  vm_compute. lia.
Defined.

(** X2. Whatever the query and the index, the match phase returns at most
    50 records, each of them a record of the index that satisfies the match
    condition, and in the order of the index. *)
Theorem match_phase_sound (query : string) (idx : list SearchIndex) :
  (length (matchPhase query idx) <= 50)%nat /\
  matchPhase query idx `sublist_of` idx /\
  forall e, e ∈ matchPhase query idx ->
    e ∈ idx /\ entryMatches (toLowerCase query) e = true.
Proof.
  rewrite matchPhase_take. split; [| split].
  - rewrite length_take. lia.
  - etrans; [apply sublist_take | apply filter_sublist].
  - intros e He. apply elem_of_take in He as (k & Hk & _).
    apply list_elem_of_lookup_2, list_elem_of_In, List.filter_In in Hk
      as [Hin Hm].
    split; [by apply list_elem_of_In | done].
Qed.

Lemma toLowerCase_append (s1 s2 : string) :
  toLowerCase (s1 ++ s2)%string = (toLowerCase s1 ++ toLowerCase s2)%string.
Proof.
  induction s1 as [|a s1 IH]; [done|].
  rewrite append_cons. simpl. by rewrite IH, append_cons.
Qed.

(** [includes] is the test for an occurrence. *)
Lemma includes_infix (s0 p : string) :
  includes s0 p = true <-> exists s1 s2, s0 = (s1 ++ p ++ s2)%string.
Proof.
  induction s0 as [|a s0 IH].
  - cbn [includes]. rewrite orb_false_r, startsWith_prefix. split.
    + intros [t Ht]. by exists EmptyString, t.
    + intros (s1 & s2 & Hs). symmetry in Hs.
      apply append_empty_inv in Hs as [-> Hs]. exists s2. by rewrite Hs.
  - cbn [includes]. rewrite orb_true_iff, IH, startsWith_prefix. split.
    + intros [[t Ht] | (s1 & s2 & ->)].
      * by exists EmptyString, t.
      * by exists (String a s1), s2.
    + intros (s1 & s2 & Hs). destruct s1 as [|b s1].
      * left. by exists s2.
      * rewrite append_cons in Hs. injection Hs as -> ->. right.
        by exists s1, s2.
Qed.

Lemma includes_toLowerCase (s0 p : string) :
  includes s0 p = true -> includes (toLowerCase s0) (toLowerCase p) = true.
Proof.
  rewrite !includes_infix. intros (s1 & s2 & ->).
  exists (toLowerCase s1), (toLowerCase s2). by rewrite !toLowerCase_append.
Qed.

(** X3. Matching is blind to letter case. Let a record hold the lowercased
    form of its display name, as the builders write it. If the display name
    or the CIN contains some spelling of the query (the query up to letter
    case), the record satisfies the match condition. *)
Theorem match_is_case_blind (query spelling : string) (e : SearchIndex) :
  toLowerCase spelling = toLowerCase query ->
  n e = toLowerCase (r e) ->
  includes (r e) spelling = true \/ includes (c e) spelling = true ->
  entryMatches (toLowerCase query) e = true.
Proof.
  intros Hcase Hn Hocc. unfold entryMatches. rewrite <- Hcase, Hn.
  apply orb_true_iff. destruct Hocc as [Hname | Hcin].
  - left. by apply includes_toLowerCase.
  - destruct (c e) as [|a cin] eqn:Hc.
    + left. apply includes_infix in Hcin as (s1 & s2 & Hs). symmetry in Hs.
      apply append_empty_inv in Hs as [_ Hs].
      apply append_empty_inv in Hs as [-> _]. by destruct (r e).
    + right. simpl truthy. by apply includes_toLowerCase.
Qed.

Lemma match_is_case_blind_witness :
  entryMatches (toLowerCase "ACME")
    (mkSearchIndex "acme corp" "CIN123" "MH" "Active" "companies.csv" 0
       "Acme Corp") = true.
Proof.
  apply (match_is_case_blind "ACME" "Acme").
  - reflexivity.
  - reflexivity.
  - left. reflexivity.
Defined.

(** ** The header patterns *)

Lemma matchPrefix_prefix (ci : bool) (re : regex) (s0 : string) :
  matchPrefix ci re s0 = true <->
  exists s2 s3, s0 = (s2 ++ s3)%string /\ matches ci re s2.
Proof.
  revert re. induction s0 as [|a s0 IH]; intros re; cbn [matchPrefix].
  - rewrite orb_false_r, nullable_matches. split.
    + intros Hm. by exists EmptyString, EmptyString.
    + intros (s2 & s3 & Hs & Hm). symmetry in Hs.
      by apply append_empty_inv in Hs as [-> _].
  - rewrite orb_true_iff, IH, (nullable_matches ci). split.
    + intros [Hm | (s2 & s3 & -> & Hm)].
      * by exists EmptyString, (String a s0).
      * exists (String a s2), s3. split; [done|]. by apply matches_deriv.
    + intros (s2 & s3 & Hs & Hm). destruct s2 as [|b s2].
      * by left.
      * rewrite append_cons in Hs. injection Hs as -> ->. right.
        exists s2, s3. split; [done|].
        by apply (deriv_matches_cons ci re (String b s2)).
Qed.

(** [reTest] finds an occurrence of a string of the pattern. *)
Lemma reTest_infix (ci : bool) (re : regex) (s0 : string) :
  reTest ci re s0 = true <->
  exists s1 s2 s3, s0 = (s1 ++ s2 ++ s3)%string /\ matches ci re s2.
Proof.
  induction s0 as [|a s0 IH]; cbn [reTest].
  - rewrite orb_false_r, matchPrefix_prefix. split.
    + intros (s2 & s3 & Hs & Hm). by exists EmptyString, s2, s3.
    + intros (s1 & s2 & s3 & Hs & Hm). symmetry in Hs.
      apply append_empty_inv in Hs as [-> Hs]. by exists s2, s3.
  - rewrite orb_true_iff, IH, matchPrefix_prefix. split.
    + intros [(s2 & s3 & Hs & Hm) | (s1 & s2 & s3 & -> & Hm)].
      * by exists EmptyString, s2, s3.
      * by exists (String a s1), s2, s3.
    + intros (s1 & s2 & s3 & Hs & Hm). destruct s1 as [|b s1].
      * left. by exists s2, s3.
      * rewrite append_cons in Hs. injection Hs as -> ->. right.
        by exists s1, s2, s3.
Qed.

(** With the [i] flag a literal pattern matches its spelling in any letter
    case. *)
Lemma matches_RLit_ci (p s0 : string) :
  matches true (RLit p) s0 <-> toLowerCase s0 = toLowerCase p.
Proof.
  split.
  - revert s0. induction p as [|ch p IH]; intros s0; simpl.
    + by inversion 1.
    + inversion 1 as [| | |? ? s1 s2 H1 H2| | | |]; subst.
      inversion H1 as [|? a Ha| | | | | |]; subst.
      apply Ascii.eqb_eq in Ha. rewrite append_cons, append_nil_l. simpl.
      rewrite Ha. f_equal. by apply IH.
  - revert s0. induction p as [|ch p IH]; intros s0 Hs; simpl.
    + destruct s0; [constructor | done].
    + destruct s0 as [|a s0]; [done|]. simpl in Hs. injection Hs as Ha Hs.
      apply (MSeq true (RChar ch) (RLit p) (String a EmptyString) s0);
        [| by apply IH].
      constructor. simpl. rewrite Ha. apply Ascii.eqb_refl.
Qed.

Lemma toLowerCase_append_inv (s0 x y : string) :
  toLowerCase s0 = (x ++ y)%string ->
  exists s1 s2, s0 = (s1 ++ s2)%string /\
                toLowerCase s1 = x /\ toLowerCase s2 = y.
Proof.
  revert s0. induction x as [|b x IH]; intros s0 Hs.
  - by exists EmptyString, s0.
  - rewrite append_cons in Hs. destruct s0 as [|a s0]; [done|].
    simpl in Hs. injection Hs as Ha Hs.
    destruct (IH s0 Hs) as (s1 & s2 & -> & H1 & H2).
    exists (String a s1), s2. split; [done|]. simpl. by rewrite Ha, H1.
Qed.

(** A literal pattern with the [i] flag is found where the lowercased string
    contains the lowercased spelling. *)
Lemma reTest_RLit_ci (p s0 : string) :
  reTest true (RLit p) s0 = true <->
  includes (toLowerCase s0) (toLowerCase p) = true.
Proof.
  rewrite reTest_infix, includes_infix. split.
  - intros (s1 & s2 & s3 & -> & Hm). apply matches_RLit_ci in Hm.
    exists (toLowerCase s1), (toLowerCase s3).
    by rewrite !toLowerCase_append, Hm.
  - intros (x & z & Hs).
    apply toLowerCase_append_inv in Hs as (s1 & s23 & -> & _ & Hs).
    apply toLowerCase_append_inv in Hs as (s2 & s3 & -> & Hs & _).
    exists s1, s2, s3. split; [done|]. by apply matches_RLit_ci.
Qed.

Lemma reTest_RAlt (ci : bool) (r1 r2 : regex) (s0 : string) :
  reTest ci (RAlt r1 r2) s0 = true <->
  reTest ci r1 s0 = true \/ reTest ci r2 s0 = true.
Proof.
  rewrite !reTest_infix. split.
  - intros (s1 & s2 & s3 & Hs & Hm).
    inversion Hm; subst; [left | right]; by exists s1, s2, s3.
  - intros [(s1 & s2 & s3 & Hs & Hm) | (s1 & s2 & s3 & Hs & Hm)];
      exists s1, s2, s3; (split; [done|]); by constructor.
Qed.

(** A pattern that ends in a literal is found only where the literal is. *)
Lemma reTest_RSeq_last (re : regex) (p s0 : string) :
  reTest true (RSeq re (RLit p)) s0 = true -> reTest true (RLit p) s0 = true.
Proof.
  rewrite !reTest_infix. intros (s1 & s2 & s3 & -> & Hm).
  inversion Hm as [| | |? ? t1 t2 H1 H2| | | |]; subst.
  exists (s1 ++ t1)%string, t2, s3. split; [| done].
  by rewrite !append_assoc.
Qed.

(** A literal that contains another is found only where the other is. *)
Lemma reTest_RLit_inside (pre p post s0 : string) :
  reTest true (RLit (pre ++ p ++ post)) s0 = true ->
  reTest true (RLit p) s0 = true.
Proof.
  rewrite !reTest_RLit_ci, !includes_infix. intros (s1 & s2 & Hs).
  exists (s1 ++ toLowerCase pre)%string, (toLowerCase post ++ s2)%string.
  by rewrite Hs, !toLowerCase_append, !append_assoc.
Qed.

Lemma header_patterns (h : string) :
  reTest true reName h = includes (toLowerCase h) "name" /\
  reTest true reCin h = includes (toLowerCase h) "cin" /\
  reTest true reState h = includes (toLowerCase h) "state" /\
  reTest true reStatus h = includes (toLowerCase h) "status".
Proof.
  repeat split; apply Bool.eq_iff_eq_true.
  - unfold reName. rewrite reTest_RAlt.
    rewrite (reTest_RLit_ci "Name" h). split; [| by right].
    intros [Hseq | Hlit]; [| done].
    apply (reTest_RLit_ci "Name" h).
    apply (reTest_RSeq_last (RStar RDot) "Name").
    rewrite reTest_infix in Hseq |- *.
    destruct Hseq as (s1 & s2 & s3 & -> & Hm).
    inversion Hm as [| | |? ? t1 t2 H1 H2| | | |]; subst.
    exists (s1 ++ t1)%string, t2, s3. split; [| done].
    by rewrite !append_assoc.
  - apply (reTest_RLit_ci "CIN" h).
  - unfold reState. rewrite reTest_RAlt.
    rewrite (reTest_RLit_ci "State" h). split; [| by left].
    intros [Hlit | Hlong]; [done|].
    apply (reTest_RLit_ci "State" h).
    by apply (reTest_RLit_inside "Company" "State" "Code").
  - unfold reStatus. rewrite reTest_RAlt.
    rewrite (reTest_RLit_ci "Status" h). split; [| by left].
    intros [Hlit | Hlong]; [done|].
    apply (reTest_RLit_ci "Status" h).
    by apply (reTest_RLit_inside "Company" "Status" EmptyString).
Qed.

Lemma findIndexFrom_ext {A : Type} (p q : A -> bool) (l : list A) (k : Z) :
  (forall x, p x = q x) -> findIndexFrom p l k = findIndexFrom q l k.
Proof.
  intros Hpq. revert k. induction l as [|x l IH]; intros k; simpl; [done|].
  by rewrite Hpq, IH.
Qed.

(** X4. The header line fixes each column by plain containment, whatever
    the longer alternatives of the patterns say: the name column is the
    first header cell that contains [name] in any letter case, and likewise
    [cin], [state] and [status]; a column is [-1] when no cell does. The
    header line itself pushes no record and does not advance the offset
    counter. *)
Theorem header_columns_by_containment (file hdr : string)
    (acc : list SearchIndex) :
  let sc := indexCsvLine file (csvStart acc) hdr in
  nameIdx sc
  = findIndex (fun h => includes (toLowerCase h) "name") (cleanValues hdr) /\
  cinIdx sc
  = findIndex (fun h => includes (toLowerCase h) "cin") (cleanValues hdr) /\
  stateIdx sc
  = findIndex (fun h => includes (toLowerCase h) "state") (cleanValues hdr) /\
  statusIdx sc
  = findIndex (fun h => includes (toLowerCase h) "status") (cleanValues hdr) /\
  newIndex sc = acc /\ index sc = 0.
Proof.
  simpl. unfold findIndex.
  repeat split; apply findIndexFrom_ext; intros h;
    destruct (header_patterns h) as (Hn & Hc & Hs & Ht); done.
Qed.

(** A header whose first cell merely contains the word: the cell is taken
    as the name column. *)
Example header_filename_is_name_column :
  nameIdx (indexCsvLine "a.csv" (csvStart []) "Filename,Company,CIN") = 0.
Proof. reflexivity. Qed.

(** ** The delimited-text reader *)

Lemma hasChar_append (ch : ascii) (s1 s2 : string) :
  hasChar ch (s1 ++ s2)%string = (hasChar ch s1 || hasChar ch s2)%bool.
Proof.
  induction s1 as [|a s1 IH]; [done|].
  rewrite append_cons. simpl. by rewrite IH, orb_assoc.
Qed.

Lemma hasChar_revString (ch : ascii) (s0 : string) :
  hasChar ch (revString s0 EmptyString) = hasChar ch s0.
Proof.
  induction s0 as [|a s0 IH]; [done|]. simpl.
  rewrite revString_acc, hasChar_append, IH. simpl.
  rewrite orb_false_r. apply orb_comm.
Qed.

Lemma hasChar_trimStart (ch : ascii) (s0 : string) :
  hasChar ch s0 = false -> hasChar ch (trimStart s0) = false.
Proof.
  induction s0 as [|a s0 IH]; [done|]. simpl. intros Hs.
  apply orb_false_iff in Hs as [Ha Hs].
  destruct (isWhiteSpace a); [by apply IH|]. simpl. by rewrite Ha, Hs.
Qed.

Lemma hasChar_trim (ch : ascii) (s0 : string) :
  hasChar ch s0 = false -> hasChar ch (trim s0) = false.
Proof.
  intros Hs. unfold trim. rewrite hasChar_revString.
  apply hasChar_trimStart. rewrite hasChar_revString.
  by apply hasChar_trimStart.
Qed.

(** A string starts well when its first code unit, if any, is no white
    space. *)
Lemma trimStart_fixed (s0 : string) :
  trimStart s0 = s0 <->
  match s0 with EmptyString => True | String a _ => isWhiteSpace a = false end.
Proof.
  destruct s0 as [|a s0]; simpl; [done|].
  destruct (isWhiteSpace a) eqn:Ha; [| done]. split; [| done].
  intros Hs. assert (Hlen : forall t, (String.length (trimStart t)
                                       <= String.length t)%nat).
  { induction t as [|b t IHt]; simpl; [lia|].
    destruct (isWhiteSpace b); simpl; lia. }
  specialize (Hlen s0). rewrite Hs in Hlen. simpl in Hlen. lia.
Qed.

Lemma trimStart_starts_well (s0 : string) :
  trimStart (trimStart s0) = trimStart s0.
Proof.
  induction s0 as [|a s0 IH]; [done|]. simpl.
  destruct (isWhiteSpace a) eqn:Ha; [done|]. simpl. by rewrite Ha.
Qed.

Lemma trimStart_suffix (s0 : string) :
  exists w, s0 = (w ++ trimStart s0)%string.
Proof.
  induction s0 as [|a s0 [w IH]]; [by exists EmptyString|]. simpl.
  destruct (isWhiteSpace a).
  - exists (String a w). by rewrite append_cons, <- IH.
  - by exists EmptyString.
Qed.

(** What [trim] returns has no white space at either end. *)
Lemma trim_ends (s0 : string) :
  trimStart (trim s0) = trim s0 /\
  trimStart (revString (trim s0) EmptyString) = revString (trim s0) EmptyString.
Proof.
  unfold trim. set (t := trimStart s0).
  set (u := trimStart (revString t EmptyString)).
  rewrite revString_involutive. split; [| apply trimStart_starts_well].
  destruct (trimStart_suffix (revString t EmptyString)) as [w Hw].
  fold u in Hw.
  assert (Ht : t = (revString u EmptyString ++ revString w EmptyString)%string).
  { by rewrite <- revString_append, <- Hw, revString_involutive. }
  apply trimStart_fixed.
  destruct (revString u EmptyString) as [|a v] eqn:Hv; [done|].
  assert (Hwell : trimStart t = t) by apply trimStart_starts_well.
  apply trimStart_fixed in Hwell. rewrite Ht, append_cons in Hwell. done.
Qed.

Lemma trim_fixed (v : string) :
  trimStart v = v ->
  trimStart (revString v EmptyString) = revString v EmptyString ->
  trim v = v.
Proof.
  intros H1 H2. unfold trim. by rewrite H1, H2, revString_involutive.
Qed.

Lemma trim_idempotent (s0 : string) : trim (trim s0) = trim s0.
Proof. destruct (trim_ends s0) as [H1 H2]. by apply trim_fixed. Qed.

Lemma stripQuotes_fixed (v : string) :
  hasChar dquote v = false -> stripQuotes v = v.
Proof.
  intros Hv. unfold stripQuotes.
  assert (Hhead : match v with
                  | String ch v' => if Ascii.eqb ch dquote then v' else v
                  | EmptyString => v
                  end = v).
  { destruct v as [|ch v']; [done|]. simpl in Hv.
    apply orb_false_iff in Hv as [-> _]. done. }
  rewrite Hhead. destruct (revString v EmptyString) as [|ch w] eqn:Hrev; [done|].
  assert (Hq : hasChar dquote (revString v EmptyString) = false)
    by by rewrite hasChar_revString.
  rewrite Hrev in Hq. simpl in Hq. by apply orb_false_iff in Hq as [-> _].
Qed.

(** The values of the character loop: trimmed, and free of double quotes
    when the value under construction is. *)
Lemma splitLine_values (line : string) (inQuote : bool)
    (currentVal : string) (values : list string) :
  hasChar dquote currentVal = false ->
  Forall (fun v => hasChar dquote v = false /\ trim v = v) values ->
  Forall (fun v => hasChar dquote v = false /\ trim v = v)
    (splitLine line inQuote currentVal values).
Proof.
  revert inQuote currentVal values.
  induction line as [|ch line IH]; intros inQuote currentVal values Hcur Hvals;
    simpl.
  - apply Forall_app. split; [done|]. constructor; [| done].
    split; [by apply hasChar_trim | apply trim_idempotent].
  - destruct (Ascii.eqb ch dquote) eqn:Hq; [by apply IH|].
    destruct (Ascii.eqb ch comma && negb inQuote)%bool.
    + apply IH; [done|]. apply Forall_app. split; [done|].
      constructor; [| done].
      split; [by apply hasChar_trim | apply trim_idempotent].
    + apply IH; [| done]. rewrite hasChar_append. simpl.
      by rewrite Hcur, Hq.
Qed.

Lemma splitLine_nonempty (line : string) (inQuote : bool)
    (currentVal : string) (values : list string) :
  splitLine line inQuote currentVal values <> [].
Proof.
  revert inQuote currentVal values.
  induction line as [|ch line IH]; intros inQuote currentVal values; simpl.
  - by destruct values.
  - destruct (Ascii.eqb ch dquote); [apply IH|].
    destruct (Ascii.eqb ch comma && negb inQuote)%bool; apply IH.
Qed.

Lemma cleanValues_split (line : string) :
  cleanValues line = splitLine line false EmptyString [] /\
  Forall (fun v => hasChar dquote v = false /\ trim v = v) (cleanValues line).
Proof.
  assert (Hvals : Forall (fun v => hasChar dquote v = false /\ trim v = v)
                    (splitLine line false EmptyString [])).
  { by apply splitLine_values. }
  assert (Hsame : cleanValues line = splitLine line false EmptyString []).
  { unfold cleanValues. induction Hvals as [|v vs [Hq Ht] _ IH]; [done|].
    simpl. by rewrite IH, (stripQuotes_fixed v Hq), Ht. }
  split; [exact Hsame | by rewrite Hsame].
Qed.

(** X5. Whatever the line, the reader yields at least one value, and every
    value is free of double quotes and of white space at its ends: the
    quote toggle drops every double quote, escaped or not, so the
    quote-stripping [replace] and the second [trim] of [cleanValues] never
    change anything. *)
Theorem reader_values_are_clean (line : string) :
  cleanValues line <> [] /\
  cleanValues line = splitLine line false EmptyString [] /\
  forall v, v ∈ cleanValues line -> hasChar dquote v = false /\ trim v = v.
Proof.
  destruct (cleanValues_split line) as [Hsame Hvals].
  split; [| split; [exact Hsame|]].
  - rewrite Hsame. apply splitLine_nonempty.
  - by apply Forall_forall.
Qed.

(** The loop over a run of characters that are neither double quotes nor
    separating commas appends them to the value under construction. *)
Lemma splitLine_run (run rest : string) (inQuote : bool)
    (currentVal : string) (values : list string) :
  hasChar dquote run = false ->
  (inQuote = false -> hasChar comma run = false) ->
  splitLine (run ++ rest) inQuote currentVal values
  = splitLine rest inQuote (currentVal ++ run) values.
Proof.
  revert currentVal. induction run as [|ch run IH]; intros currentVal Hq Hc.
  - by rewrite append_nil_l, append_empty_r.
  - rewrite append_cons. simpl in Hq. apply orb_false_iff in Hq as [Hq1 Hq2].
    cbn [splitLine]. rewrite Hq1.
    assert (Hsep : (Ascii.eqb ch comma && negb inQuote)%bool = false).
    { destruct inQuote; [apply andb_false_r|].
      specialize (Hc eq_refl). simpl in Hc.
      apply orb_false_iff in Hc as [-> _]. done. }
    rewrite Hsep, IH; [| done |].
    + by rewrite append_assoc, append_cons, append_nil_l.
    + intros Hin. specialize (Hc Hin). simpl in Hc.
      by apply orb_false_iff in Hc as [_ ->].
Qed.

(** The loop over a written field, outside quotes before and after. *)
Lemma splitLine_field (fd : bool * string) (rest : string)
    (currentVal : string) (values : list string) :
  readableField fd ->
  splitLine (writeField fd ++ rest) false currentVal values
  = splitLine rest false (currentVal ++ fd.2) values.
Proof.
  intros (Hq & _ & Hc). destruct fd as [[|] fld]; simpl in *.
  - rewrite append_assoc, splitLine_run by done.
    rewrite append_cons, append_nil_l. cbn [splitLine].
    by rewrite Ascii.eqb_refl.
  - apply splitLine_run; [done|]. intros _. by apply Hc.
Qed.

Lemma splitLine_written (fields : list (bool * string))
    (values : list string) :
  fields <> [] -> Forall readableField fields ->
  splitLine (writeLine fields) false EmptyString values
  = values ++ map snd fields.
Proof.
  intros Hne Hall. revert values.
  induction Hall as [|fd rest Hfd Hrest IH]; intros values; [done|].
  assert (Hlast : forall vals,
            splitLine (writeField fd) false EmptyString vals
            = vals ++ [fd.2]).
  { intros vals. rewrite <- (append_empty_r (writeField fd)).
    rewrite splitLine_field by done. rewrite append_nil_l. cbn [splitLine].
    destruct Hfd as (_ & -> & _). done. }
  destruct rest as [|fd' rest']; [apply Hlast|].
  change (writeLine (fd :: fd' :: rest'))
    with (writeField fd ++ String comma (writeLine (fd' :: rest')))%string.
  rewrite splitLine_field by done. cbn [splitLine].
  assert (Hcomma : Ascii.eqb comma dquote = false) by done.
  rewrite Hcomma, Ascii.eqb_refl. simpl andb. cbv iota.
  rewrite IH by done. rewrite append_nil_l.
  destruct Hfd as (_ & -> & _). by rewrite <- (assoc_L (++)).
Qed.

(** X6. Reading back a written line. A line written from one or more
    fields, each without double quotes and without white space at its ends,
    and quoted when it contains a comma, is read as exactly those fields:
    commas between quotes separate nothing. *)
Theorem reader_reads_written_line (fields : list (bool * string)) :
  fields <> [] -> Forall readableField fields ->
  cleanValues (writeLine fields) = map snd fields.
Proof.
  intros Hne Hall.
  destruct (cleanValues_split (writeLine fields)) as [-> _].
  by rewrite splitLine_written.
Qed.

Lemma reader_reads_written_line_witness :
  cleanValues (writeLine Sample.quotedFields)
  = ["Acme Corp"; "Pune, MH"; "Active"].
Proof.
  apply (reader_reads_written_line Sample.quotedFields).
  - discriminate.
  - repeat constructor; simpl; discriminate.
Defined.

(** ** Grouping the matches by file *)

Lemma elem_of_filter_bool {A : Type} (p : A -> bool) (l : list A) (x : A) :
  x ∈ List.filter p l <-> x ∈ l /\ p x = true.
Proof. rewrite !list_elem_of_In. apply List.filter_In. Qed.

Lemma elem_of_firstOccurrences (files : list string) (x : string) :
  x ∈ firstOccurrences files <-> x ∈ files.
Proof.
  induction files as [|file rest IH]; simpl; [done|].
  rewrite !elem_of_cons, elem_of_filter_bool, IH. cbv beta. split.
  - intros [-> | [Hin _]]; auto.
  - intros [-> | Hin]; [by left|].
    destruct (String.eqb x file) eqn:Hx.
    + apply String.eqb_eq in Hx. by left.
    + by right.
Qed.

Lemma NoDup_firstOccurrences (files : list string) :
  NoDup (firstOccurrences files).
Proof.
  induction files as [|file rest IH]; simpl; constructor.
  - rewrite elem_of_filter_bool. cbv beta. rewrite String.eqb_refl.
    by intros [_ ?].
  - apply NoDup_ListNoDup, List.NoDup_filter. by apply NoDup_ListNoDup.
Qed.

Lemma firstOccurrences_snoc (files : list string) (x : string) :
  firstOccurrences (files ++ [x])
  = if bool_decide (x ∈ files) then firstOccurrences files
    else firstOccurrences files ++ [x].
Proof.
  induction files as [|file rest IH]; [done|]. simpl. rewrite IH.
  destruct (decide (x = file)) as [-> | Hne].
  - rewrite (bool_decide_eq_true_2 (file ∈ file :: rest)) by by left.
    case_bool_decide; [done|].
    rewrite List.filter_app. simpl. rewrite String.eqb_refl. simpl.
    by rewrite app_nil_r.
  - assert (Hx : String.eqb x file = false) by by apply String.eqb_neq.
    case_bool_decide as Hin.
    + by rewrite bool_decide_eq_true_2 by by right.
    + rewrite bool_decide_eq_false_2
        by (rewrite elem_of_cons; intros [? | ?]; done).
      rewrite List.filter_app. simpl. by rewrite Hx.
Qed.

Lemma groupByFile_snoc (m : list SearchIndex) (e : SearchIndex) :
  groupByFile (m ++ [e]) = groupPush (groupByFile m) (f e) (i e).
Proof. unfold groupByFile. by rewrite fold_left_app. Qed.

Lemma groupPush_keys (g : list (string * list Z)) (file : string) (idx : Z) :
  map fst (groupPush g file idx)
  = if bool_decide (file ∈ map fst g) then map fst g else map fst g ++ [file].
Proof.
  induction g as [|[k v] g IH]; [done|]. simpl.
  destruct (String.eqb k file) eqn:Hk.
  - apply String.eqb_eq in Hk as ->. simpl.
    by rewrite bool_decide_eq_true_2 by by left.
  - apply String.eqb_neq in Hk. simpl. rewrite IH.
    case_bool_decide as Hin.
    + by rewrite bool_decide_eq_true_2 by by right.
    + rewrite bool_decide_eq_false_2; [done|].
      rewrite elem_of_cons. intros [? | ?]; done.
Qed.

Lemma groupPush_map (g : list (string * list Z)) (file : string) (idx : Z) :
  (list_to_map (groupPush g file idx) : gmap string (list Z))
  = <[file := default [] ((list_to_map g : gmap string (list Z)) !! file)
              ++ [idx]]> (list_to_map g).
Proof.
  induction g as [|[k v] g IH]; [done|]. simpl.
  destruct (String.eqb k file) eqn:Hk.
  - apply String.eqb_eq in Hk as ->. simpl.
    by rewrite lookup_insert_eq, insert_insert_eq.
  - apply String.eqb_neq in Hk. simpl.
    rewrite IH, lookup_insert_ne by done. by apply insert_insert_ne.
Qed.

Lemma filter_file_absent (m : list SearchIndex) (file : string) :
  file ∉ map f m -> List.filter (fun e => String.eqb (f e) file) m = [].
Proof.
  induction m as [|e m IH]; [done|]. simpl. rewrite not_elem_of_cons.
  intros [Hne Hrest]. assert (Hf : String.eqb (f e) file = false).
  { apply String.eqb_neq. congruence. }
  rewrite Hf. by apply IH.
Qed.

Lemma groupByFile_keys_values (m : list SearchIndex) :
  map fst (groupByFile m) = firstOccurrences (map f m) /\
  forall file,
    (list_to_map (groupByFile m) : gmap string (list Z)) !! file
    = if bool_decide (file ∈ map f m)
      then Some (map i (List.filter (fun e => String.eqb (f e) file) m))
      else None.
Proof.
  induction m as [|e m [IHk IHv]] using rev_ind; [done|]. split.
  - rewrite groupByFile_snoc, groupPush_keys, IHk, map_app. simpl.
    rewrite firstOccurrences_snoc.
    case_bool_decide as H1; case_bool_decide as H2; try done.
    + exfalso. apply H2. by apply elem_of_firstOccurrences.
    + exfalso. apply H1. by apply elem_of_firstOccurrences.
  - intros file. rewrite groupByFile_snoc, groupPush_map.
    rewrite map_app, List.filter_app, map_app. simpl.
    destruct (decide (f e = file)) as [<- | Hne].
    + rewrite lookup_insert_eq, IHv, String.eqb_refl. simpl.
      rewrite (bool_decide_eq_true_2 (f e ∈ map f m ++ [f e]))
        by (apply elem_of_app; right; by left).
      case_bool_decide as Hin; simpl; [done|].
      by rewrite filter_file_absent.
    + rewrite lookup_insert_ne, IHv by done.
      assert (Hf : String.eqb (f e) file = false) by by apply String.eqb_neq.
      rewrite Hf. simpl. rewrite app_nil_r.
      case_bool_decide as H1; case_bool_decide as H2; try done.
      * exfalso. apply H2. apply elem_of_app. by left.
      * exfalso. apply elem_of_app in H2 as [? | H2]; [done|].
        apply list_elem_of_singleton in H2. done.
Qed.

(** X7. Grouping the matched entries by file gives one group per file, in
    the order in which the files first occur among the matches, and the
    group of a file holds the offsets of its matched entries in match
    order (and a file without matched entry has no group). *)
Theorem groups_are_files_in_first_match_order (m : list SearchIndex) :
  map fst (groupByFile m) = firstOccurrences (map f m) /\
  NoDup (map fst (groupByFile m)) /\
  forall file,
    (list_to_map (groupByFile m) : gmap string (list Z)) !! file
    = if bool_decide (file ∈ map f m)
      then Some (map i (List.filter (fun e => String.eqb (f e) file) m))
      else None.
Proof.
  destruct (groupByFile_keys_values m) as [Hk Hv].
  split; [exact Hk|]. split; [| exact Hv].
  rewrite Hk. apply NoDup_firstOccurrences.
Qed.

(** ** The detail phase, file by file *)

Lemma detailCsvLines_acc (file : string) (indices : list Z)
    (lines : list string) (acc : list Company) :
  results (detailCsvLines file indices lines acc)
  = acc ++ results (detailCsvLines file indices lines []).
Proof.
  destruct lines as [|hdr rows]; [by rewrite app_nil_r|].
  by rewrite !detailCsvLines_file.
Qed.

(** What a file yields does not depend on what was pushed before it. *)
Lemma resolveFile_acc (env : Env) (file : string) (indices : list Z)
    (acc : list Company) :
  resolveFile env file indices acc = acc ++ resolveFile env file indices [].
Proof.
  unfold resolveFile. destruct (endsWith file ".csv").
  - apply detailCsvLines_acc.
  - destruct (sheetRows env file) as [data|]; [| by rewrite app_nil_r].
    by rewrite !detailBatch_omap.
Qed.

Lemma resolveAll_concat (env : Env) (groups : list (string * list Z))
    (acc : list Company) (io : list Event) :
  resolveAll env groups acc io
  = (acc ++ concat (map (fun g => resolveFile env g.1 g.2 []) groups),
     io ++ map (fun g => openEvent g.1) groups).
Proof.
  revert acc io. induction groups as [|[file indices] rest IH];
    intros acc io; simpl.
  - by rewrite !app_nil_r.
  - rewrite IH, (resolveFile_acc env file indices acc).
    by rewrite <- !(assoc_L (++)).
Qed.

(** X8. The detail phase composes file by file: its results are the
    concatenation, in group order, of what each file yields on its own, and
    it opens one file per group, in that order. A workbook that cannot be
    read yields nothing, so the rows of the other files are returned all
    the same. *)
Theorem detail_phase_is_per_file (env : Env)
    (groups : list (string * list Z)) :
  (resolveAll env groups [] []).1
  = concat (map (fun g => resolveFile env g.1 g.2 []) groups) /\
  (resolveAll env groups [] []).2 = map (fun g => openEvent g.1) groups /\
  forall file indices,
    endsWith file ".csv" = false -> sheetRows env file = None ->
    resolveFile env file indices [] = [].
Proof.
  rewrite resolveAll_concat. split; [done|]. split; [done|].
  intros file indices Hbatch Hfail. unfold resolveFile.
  by rewrite Hbatch, Hfail.
Qed.

(** X9. In a delimited-text file the detail phase returns the rows in file
    order, one result for every data row whose position is among the
    offsets asked for: the order of the offsets and their repetitions
    change nothing. *)
Theorem csv_detail_follows_file_order (env : Env) (file hdr : string)
    (rows : list string) (fails : bool) (indices indices' : list Z) :
  endsWith file ".csv" = true ->
  readLines env file = (hdr :: rows, fails) ->
  (forall z, z ∈ indices <-> z ∈ indices') ->
  resolveFile env file indices []
  = collect (fun k line =>
               if bool_decide (Z.of_nat k ∈ indices)
               then Some (csvRowCompany file hdr k line) else None) rows /\
  resolveFile env file indices' [] = resolveFile env file indices [].
Proof.
  intros Hcsv Hlines Hsame. unfold resolveFile. rewrite Hcsv, Hlines. simpl.
  rewrite !detailCsvLines_file. simpl. split; [done|].
  apply collect_ext. intros k line.
  destruct (decide (Z.of_nat k ∈ indices)) as [Hin | Hout].
  - rewrite !bool_decide_eq_true_2; [done | done | by apply Hsame].
  - rewrite !bool_decide_eq_false_2; [done | done | by rewrite <- Hsame].
Qed.

Lemma csv_detail_follows_file_order_witness :
  resolveFile Sample.acmeEnv "companies.csv" [1; 0; 1] []
  = [csvRowCompany "companies.csv" "Name,CIN,State,Status" 0
       "Acme Corp,CIN123,MH,Active";
     csvRowCompany "companies.csv" "Name,CIN,State,Status" 1
       "Beta LLC,CIN456,DL,Inactive"].
Proof.
  destruct (csv_detail_follows_file_order Sample.acmeEnv "companies.csv"
              "Name,CIN,State,Status"
              ["Acme Corp,CIN123,MH,Active"; "Beta LLC,CIN456,DL,Inactive"]
              false [0; 1] [1; 0; 1]) as [H1 H2].
  - reflexivity.
  - reflexivity.
  - intros z. rewrite !list_elem_of_In. simpl. tauto.
  - rewrite H2, H1. reflexivity.
Defined.

(** X10. In the spreadsheet/JSON branch every row gets a record, with its
    0-based position in the sheet as offset, and the detail phase, asked
    for that offset, returns the result row built from the same row; asked
    for several offsets, it returns their rows in the order asked,
    repetitions included. *)
Theorem batch_offset_is_row_position (file : string) (data : list Row)
    (acc : list SearchIndex) :
  indexBatchRows file data 0 acc
  = acc ++ imap (fun k row => batchRecord file row (Z.of_nat k)) data /\
  (forall k row, data !! k = Some row ->
     i (batchRecord file row (Z.of_nat k)) = Z.of_nat k /\
     detailBatch file data [i (batchRecord file row (Z.of_nat k))] []
     = [mkCompany file (Z.of_nat k) row]) /\
  (forall positions : list nat,
     Forall (fun k => (k < length data)%nat) positions ->
     length (detailBatch file data (map Z.of_nat positions) [])
     = length positions).
Proof.
  split; [| split].
  - rewrite indexBatchRows_all. f_equal.
  - intros k row Hk. split; [done|]. simpl. unfold jsNth.
    destruct (Z.of_nat k <? 0) eqn:Hneg; [apply Z.ltb_lt in Hneg; lia|].
    by rewrite Nat2Z.id, Hk.
  - intros positions Hpos. rewrite detailBatch_omap, app_nil_l.
    induction Hpos as [|k positions Hk _ IH]; [done|].
    assert (Hrow : exists row, jsNth data (Z.of_nat k) = Some row).
    { destruct (lookup_lt_is_Some_2 data k Hk) as [row Hrow]. exists row.
      unfold jsNth.
      destruct (Z.of_nat k <? 0) eqn:Hneg; [apply Z.ltb_lt in Hneg; lia|].
      by rewrite Nat2Z.id. }
    destruct Hrow as [row Hrow]. cbn -[jsNth]. rewrite Hrow.
    cbn -[jsNth]. by rewrite IH.
Qed.

(** ** The number of results *)

(** When the element collected at a position carries that position as key,
    the keys collected are distinct and not below the first position. *)
Lemma collect_keys {A B : Type} (key : B -> nat) (rows : list A)
    (g : nat -> A -> option B) (o : nat) :
  (forall k x y, g k x = Some y -> key y = (o + k)%nat) ->
  NoDup (map key (collect g rows)) /\
  Forall (fun y => (o <= key y)%nat) (collect g rows).
Proof.
  revert g o. induction rows as [|x rows IH]; intros g o Hkey.
  - split; constructor.
  - rewrite collect_cons.
    destruct (IH (g ∘ S) (S o)) as [Hnd Hge].
    { intros k x' y Hy. simpl in Hy. rewrite (Hkey _ _ _ Hy). lia. }
    destruct (g 0%nat x) as [y|] eqn:Hy; simpl.
    + pose proof (Hkey _ _ _ Hy) as Hk. split.
      * constructor; [| done]. intros Hin.
        apply list_elem_of_fmap in Hin as (y' & Hy' & Hin).
        rewrite Forall_forall in Hge. specialize (Hge y' Hin). lia.
      * constructor; [lia|]. eapply Forall_impl; [exact Hge|].
        simpl. intros; lia.
    + split; [done|]. eapply Forall_impl; [exact Hge|]. simpl. intros; lia.
Qed.

Lemma collect_length_ext {A B C : Type} (g : nat -> A -> option B)
    (h : nat -> A -> option C) (rows : list A) :
  (forall k x, is_Some (g k x) <-> is_Some (h k x)) ->
  length (collect g rows) = length (collect h rows).
Proof.
  revert g h. induction rows as [|x rows IH]; intros g h Hgh; [done|].
  rewrite !collect_cons, !length_app.
  rewrite (IH (g ∘ S) (h ∘ S)) by (intros k x'; apply Hgh).
  f_equal. specialize (Hgh 0%nat x).
  destruct (g 0%nat x), (h 0%nat x); simpl; try done.
  - destruct Hgh as [Hgh _]. by destruct Hgh.
  - destruct Hgh as [_ Hgh]. by destruct Hgh.
Qed.

(** The rows picked by membership of their position are no more than the
    offsets asked for. *)
Lemma collect_member_length {A B : Type} (h : nat -> A -> B)
    (indices : list Z) (rows : list A) :
  (length (collect (fun k x =>
                      if bool_decide (Z.of_nat k ∈ indices)
                      then Some (h k x) else None) rows)
   <= length indices)%nat.
Proof.
  set (pos := fun (k : nat) (_ : A) =>
                if bool_decide (Z.of_nat k ∈ indices) then Some k else None).
  rewrite (collect_length_ext _ pos).
  2:{ intros k x. unfold pos. by destruct (bool_decide _). }
  destruct (collect_keys id rows pos 0) as [Hnd _].
  { intros k x y. unfold pos. destruct (bool_decide _); [| done].
    by intros [= <-]. }
  rewrite map_id in Hnd.
  rewrite <- (length_fmap Z.of_nat). apply submseteq_length.
  apply NoDup_submseteq.
  - apply NoDup_fmap; [apply Nat2Z.inj' | done].
  - intros z Hz. apply list_elem_of_fmap in Hz as (k & -> & Hk).
    apply elem_of_collect in Hk as (k' & x & _ & Hk). unfold pos in Hk.
    case_bool_decide; [| done]. by injection Hk as <-.
Qed.

Lemma resolveFile_length (env : Env) (file : string) (indices : list Z) :
  (length (resolveFile env file indices []) <= length indices)%nat.
Proof.
  unfold resolveFile. destruct (endsWith file ".csv").
  - destruct (readLines env file) as [[|hdr rows] fails]; simpl.
    + unfold detailCsvLines. simpl. lia.
    + rewrite detailCsvLines_file. simpl. apply collect_member_length.
  - destruct (sheetRows env file) as [data|]; simpl; [| lia].
    rewrite detailBatch_omap, app_nil_l.
    induction indices as [|idx rest IH]; [simpl; lia|].
    cbn -[jsNth]. destruct (jsNth data idx); cbn -[jsNth] in *; lia.
Qed.

Lemma groupPush_total (g : list (string * list Z)) (file : string) (idx : Z) :
  sum_list (map (fun p => length p.2) (groupPush g file idx))
  = S (sum_list (map (fun p => length p.2) g)).
Proof.
  induction g as [|[k v] g IH]; [done|]. simpl.
  destruct (String.eqb k file); simpl.
  - rewrite length_app. simpl. lia.
  - rewrite IH. lia.
Qed.

Lemma groupByFile_total (m : list SearchIndex) :
  sum_list (map (fun p => length p.2) (groupByFile m)) = length m.
Proof.
  induction m as [|e m IH] using rev_ind; [done|].
  rewrite groupByFile_snoc, groupPush_total, IH, length_app. simpl. lia.
Qed.

Lemma resolveAll_length (env : Env) (groups : list (string * list Z)) :
  (length (resolveAll env groups [] []).1
   <= sum_list (map (fun p => length p.2) groups))%nat.
Proof.
  rewrite resolveAll_concat. simpl.
  induction groups as [|[file indices] rest IH]; simpl; [lia|].
  rewrite length_app. pose proof (resolveFile_length env file indices). lia.
Qed.

Lemma searchIndexed_length `{Platform} (env : Env) (query : string)
    (isLoggedIn : bool) (remaining : Z) (w : World) :
  (length (respResults (searchIndexed env query isLoggedIn remaining w).1)
   <= 50)%nat.
Proof.
  unfold searchIndexed.
  destruct (GLOBAL_INDEX _) as [idx|]; simpl; [| lia].
  pose proof (resolveAll_length env
                (groupByFile (matchLoop (toLowerCase query) idx []))) as Hlen.
  destruct (resolveAll env _ [] []) as [res io]. simpl in *.
  rewrite groupByFile_total in Hlen.
  rewrite matchLoop_take in Hlen by (simpl; lia).
  rewrite length_take in Hlen. lia.
Qed.

(** X11. No call of [searchCompanies] returns more than 50 result rows:
    every matched entry yields at most one row, in either kind of file, and
    rows that cannot be found any more are dropped, never invented. *)
Theorem search_returns_at_most_50_rows `{Platform} (env : Env)
    (query : string) (w : World) :
  (length (respResults (searchCompanies env query w).1) <= 50)%nat.
Proof.
  unfold searchCompanies.
  destruct (negb (truthy query) || _)%bool; simpl; [lia|].
  destruct (isUserLoggedIn env); simpl; [apply searchIndexed_length|].
  destruct (checkRateLimit _ _) as [limit store'].
  destruct (allowed limit); simpl; [apply searchIndexed_length | lia].
Qed.

(** ** Result rows *)

Lemma assignKey_other (row : Row) (h0 v h : string) :
  h <> h0 -> assignKey row h0 v !! h = row !! h.
Proof.
  intros Hne. unfold assignKey. destruct (String.eqb h0 "__proto__"); [done|].
  by apply lookup_insert_ne.
Qed.

Lemma assignKey_at (row : Row) (h v : string) :
  h <> "__proto__" -> assignKey row h v !! h = Some v.
Proof.
  intros Hne. unfold assignKey.
  destruct (String.eqb h "__proto__") eqn:Heq.
  - by apply String.eqb_eq in Heq.
  - apply lookup_insert_eq.
Qed.

Lemma assignKey_proto (row : Row) (h v : string) :
  assignKey row h v !! "__proto__" = row !! "__proto__".
Proof.
  unfold assignKey. destruct (String.eqb h "__proto__") eqn:Heq; [done|].
  apply lookup_insert_ne. intros ->. by rewrite String.eqb_refl in Heq.
Qed.

Lemma fillRow_other (header values : list string) (k : Z) (row : Row)
    (h : string) :
  h ∉ header -> fillRow header values k row !! h = row !! h.
Proof.
  revert k row. induction header as [|h0 rest IH]; intros k row Hh; [done|].
  apply not_elem_of_cons in Hh as [Hne Hrest]. simpl.
  rewrite IH by done. by apply assignKey_other.
Qed.

Lemma fillRow_proto (header values : list string) (k : Z) (row : Row) :
  fillRow header values k row !! "__proto__" = row !! "__proto__".
Proof.
  revert k row. induction header as [|h0 rest IH]; intros k row; [done|].
  simpl. rewrite IH. apply assignKey_proto.
Qed.

Lemma fillRow_at (header values : list string) (k : Z) (row : Row)
    (j : nat) (h : string) :
  NoDup header -> header !! j = Some h -> h <> "__proto__" ->
  fillRow header values k row !! h
  = Some (orElse (jsNth values (k + Z.of_nat j)) EmptyString).
Proof.
  intros Hnd. revert k row j.
  induction Hnd as [|h0 rest Hnotin Hnd IH]; intros k row j Hj Hp; [done|].
  destruct j as [|j]; simpl in Hj.
  - injection Hj as ->. simpl. rewrite fillRow_other by done.
    by rewrite assignKey_at, Z.add_0_r.
  - simpl. rewrite (IH _ _ j Hj Hp). do 3 f_equal. lia.
Qed.

(** X12. The row object of the detail phase, for a header without repeated
    cells: the cell at position [j] of the data line is stored under the
    header cell at position [j]; a data line shorter than the header gives
    the empty string for the cells it lacks (as does an empty cell), and
    cells beyond the header are dropped. The one header cell that names no
    key is [__proto__]: the assignment to it stores nothing, so the keys of
    the row are exactly the header cells other than [__proto__]. *)
Theorem row_object_follows_header (header values : list string) :
  NoDup header ->
  (forall j h, header !! j = Some h -> h <> "__proto__" ->
     fillRow header values 0 ∅ !! h
     = Some (orElse (values !! j) EmptyString)) /\
  (forall h, h ∉ header \/ h = "__proto__" ->
     fillRow header values 0 ∅ !! h = None).
Proof.
  intros Hnd. split.
  - intros j h Hj Hp. rewrite (fillRow_at header values 0 ∅ j h Hnd Hj Hp).
    unfold jsNth. rewrite Z.add_0_l.
    destruct (Z.of_nat j <? 0) eqn:Hneg; [apply Z.ltb_lt in Hneg; lia|].
    by rewrite Nat2Z.id.
  - intros h [Hh | ->].
    + by rewrite fillRow_other.
    + by rewrite fillRow_proto.
Qed.

Lemma row_object_follows_header_witness :
  fillRow ["Name"; "__proto__"; "State"] ["Acme"; "U1"] 0 ∅ !! "State"
  = Some EmptyString /\
  fillRow ["Name"; "__proto__"; "State"] ["Acme"; "U1"] 0 ∅ !! "Name"
  = Some "Acme" /\
  fillRow ["Name"; "__proto__"; "State"] ["Acme"; "U1"] 0 ∅ !! "__proto__"
  = None.
Proof.
  destruct (row_object_follows_header ["Name"; "__proto__"; "State"]
              ["Acme"; "U1"]) as [Hat Hnot].
  - apply NoDup_ListNoDup. repeat constructor; simpl; intuition discriminate.
  - split; [| split].
    + exact (Hat 2%nat "State" eq_refl ltac:(discriminate)).
    + exact (Hat 0%nat "Name" eq_refl ltac:(discriminate)).
    + exact (Hnot "__proto__" (or_intror eq_refl)).
Defined.

Lemma canonical_lookup (file : string) (idx : Z) (row : Row) (k : string) :
  row !! k = None ->
  mkCompany file idx row !! k
  = (list_to_map
       [ ("id", JString (file ++ "-" ++ pretty idx)%string);
         ("name", JString (orElse (rowName row) "Unknown"));
         ("state", JString (orElse (rowState row) EmptyString));
         ("cin", ofOption (row !! "CIN"));
         ("status", ofOption (rowStatus row)) ] : gmap string JsVal) !! k.
Proof.
  intros Hk. unfold mkCompany. apply lookup_union_r.
  by rewrite lookup_fmap, Hk.
Qed.

(** X13. A result row carries every column of its source row with the
    value of the source, also under a key that is the name of a canonical
    field: a column called [id] or [name] replaces the canonical value.
    Where the source has no such column, [id] is the file name, a dash and
    the offset, [name] falls back to [Unknown] and [state] to the empty
    string, while [cin] and [status] are [undefined] when their columns are
    missing. *)
Theorem result_row_columns_win (file : string) (idx : Z) (row : Row) :
  (forall k v, row !! k = Some v ->
     mkCompany file idx row !! k = Some (JString v)) /\
  (row !! "id" = None ->
   mkCompany file idx row !! "id"
   = Some (JString (file ++ "-" ++ pretty idx)%string)) /\
  (row !! "name" = None ->
   mkCompany file idx row !! "name"
   = Some (JString (orElse (rowName row) "Unknown"))) /\
  (row !! "state" = None ->
   mkCompany file idx row !! "state"
   = Some (JString (orElse (rowState row) EmptyString))) /\
  (row !! "cin" = None ->
   mkCompany file idx row !! "cin" = Some (ofOption (row !! "CIN"))) /\
  (row !! "status" = None ->
   mkCompany file idx row !! "status" = Some (ofOption (rowStatus row))).
Proof.
  split.
  { intros k v Hk. unfold mkCompany. apply lookup_union_Some_l.
    by rewrite lookup_fmap, Hk. }
  repeat split; intros Hk; by rewrite canonical_lookup.
Qed.

(** ** The two builders side by side *)

(** The loop of the script is the loop of actions.ts on the listing without
    the snapshot file. *)
Lemma script_scan_filtered (env : Env) (files : list string)
    (acc : list SearchIndex) (io : list Event) :
  BuildIndexScript.scanFiles env files acc
  = let res :=
      scanFiles env
        (List.filter (fun g => negb (String.eqb g "search-index.json")) files)
        acc io in
    if scanCompleted res then Some (scanned res) else None.
Proof.
  revert acc io. induction files as [|file rest IH]; intros acc io; [done|].
  cbn [BuildIndexScript.scanFiles List.filter].
  destruct (isCorpusFile file) eqn:Hok; cbn [negb].
  - destruct (String.eqb file "search-index.json"); cbn [negb]; [apply IH|].
    cbn [scanFiles]. rewrite Hok. cbn [negb].
    destruct (processFile env file acc) as [acc' completed].
    destruct completed; [apply IH | done].
  - destruct (String.eqb file "search-index.json"); cbn [negb]; [apply IH|].
    cbn [scanFiles]. rewrite Hok. cbn [negb]. apply IH.
Qed.

(** X14. With the data directory listed, the script writes the snapshot
    exactly when the scan of actions.ts, run on the listing without the
    snapshot file, runs to its end (and the snapshot file can be written),
    and what it writes is the serialization of the records of that scan; in
    every other case it exits with status 1 and writes nothing. *)
Theorem script_writes_what_app_scans `{Platform} (env : Env)
    (files : list string) :
  dataDirExists env = true ->
  readdirSync env = Some files ->
  BuildIndexScript.buildIndex env
  = let res :=
      scanFiles env
        (List.filter (fun g => negb (String.eqb g "search-index.json")) files)
        [] [] in
    if (scanCompleted res && indexFileWritable env)%bool
    then BuildIndexScript.Wrote (JSON_stringify (scanned res))
    else BuildIndexScript.Exit1.
Proof.
  intros Hdir Hfiles. unfold BuildIndexScript.buildIndex.
  rewrite Hdir, Hfiles. cbn [negb].
  rewrite (script_scan_filtered env files [] []). cbv zeta.
  by destruct (scanCompleted _).
Qed.

Lemma script_writes_what_app_scans_witness :
  @BuildIndexScript.buildIndex (Sample.platform 0) Sample.failingEnv
  = BuildIndexScript.Exit1 /\
  @BuildIndexScript.buildIndex (Sample.platform 0) Sample.acmeEnv
  = BuildIndexScript.Wrote
      (Sample.JSON_stringify
         (newIndex (indexCsvLines "companies.csv" Sample.acmeLines []))).
Proof.
  split.
  - rewrite (@script_writes_what_app_scans (Sample.platform 0)
               Sample.failingEnv
               ["companies.csv"; "broken.xlsx"; "later.csv"]);
      reflexivity.
  - rewrite (@script_writes_what_app_scans (Sample.platform 0)
               Sample.acmeEnv ["companies.csv"; "README.md"]);
      reflexivity.
Defined.

(** ** Invariants of the records built *)

Lemma collect_total {A B : Type} (h : nat -> A -> B) (rows : list A) :
  collect (fun k x => Some (h k x)) rows = imap h rows.
Proof.
  revert h. induction rows as [|x rows IH]; intros h; [done|].
  rewrite collect_cons. simpl. f_equal. apply (IH (h ∘ S)).
Qed.

(** What a record's fields say about its origin. *)
Lemma records_by_position {A : Type} (file : string) (rows : list A)
    (g : nat -> A -> option SearchIndex) :
  (forall k x e, g k x = Some e ->
     f e = file /\ n e = toLowerCase (r e) /\ i e = Z.of_nat k) ->
  Forall (fun e => f e = file /\ n e = toLowerCase (r e) /\ 0 <= i e)
    (collect g rows) /\
  NoDup (map i (collect g rows)).
Proof.
  intros Hg. split.
  - apply Forall_forall. intros e He.
    apply elem_of_collect in He as (k & x & _ & He).
    destruct (Hg k x e He) as (Hf & Hn & Hi). repeat split; [done | done | lia].
  - destruct (collect_keys (fun e => Z.to_nat (i e)) rows g 0) as [Hnd _].
    { intros k x e He. destruct (Hg k x e He) as (_ & _ & ->). lia. }
    apply (NoDup_fmap_1 Z.to_nat). by rewrite <- list_fmap_compose.
Qed.

Lemma processFile_records (env : Env) (file : string)
    (acc : list SearchIndex) :
  exists recs,
    (processFile env file acc).1 = acc ++ recs /\
    Forall (fun e => f e = file /\ n e = toLowerCase (r e) /\ 0 <= i e) recs /\
    NoDup (map i recs).
Proof.
  unfold processFile. destruct (endsWith file ".csv").
  - destruct (readLines env file) as [[|hdr rows] fails]; simpl.
    + exists []. rewrite app_nil_r. repeat split; constructor.
    + destruct (indexCsvLines_file file hdr rows acc) as [_ ->].
      exists (collect (csvRowRecord file hdr) rows). split; [done|].
      apply records_by_position. intros k line e He.
      unfold csvRowRecord, recordAt in He.
      destruct (String.eqb _ "Unknown"); [done|]. by injection He as <-.
  - destruct (sheetRows env file) as [data|]; simpl.
    + rewrite indexBatchRows_all, <- collect_total.
      eexists. split; [done|].
      apply records_by_position. intros k row e [= <-].
      by repeat split.
    + exists []. rewrite app_nil_r. repeat split; constructor.
Qed.

Lemma scanFiles_records (env : Env) (files : list string)
    (acc : list SearchIndex) (io : list Event) :
  exists recs,
    scanned (scanFiles env files acc io) = acc ++ recs /\
    Forall (fun e => f e ∈ files /\ isCorpusFile (f e) = true /\
                     n e = toLowerCase (r e) /\ 0 <= i e) recs /\
    (NoDup files -> NoDup (map (fun e => (f e, i e)) recs)).
Proof.
  revert acc io. induction files as [|file rest IH]; intros acc io; simpl.
  - exists []. rewrite app_nil_r. repeat split; constructor.
  - assert (Hweaken : forall recs,
      Forall (fun e => f e ∈ rest /\ isCorpusFile (f e) = true /\
                       n e = toLowerCase (r e) /\ 0 <= i e) recs ->
      Forall (fun e => f e ∈ file :: rest /\ isCorpusFile (f e) = true /\
                       n e = toLowerCase (r e) /\ 0 <= i e) recs).
    { intros recs Hrecs. eapply Forall_impl; [exact Hrecs|].
      intros e (? & ? & ? & ?). repeat split; try done. by right. }
    destruct (isCorpusFile file) eqn:Hok; simpl.
    + destruct (processFile_records env file acc)
        as (recs1 & Hacc' & Hall1 & Hnd1).
      destruct (processFile env file acc) as [acc' completed].
      simpl in Hacc'. subst acc'.
      assert (Hall1' :
        Forall (fun e => f e ∈ file :: rest /\ isCorpusFile (f e) = true /\
                         n e = toLowerCase (r e) /\ 0 <= i e) recs1).
      { eapply Forall_impl; [exact Hall1|]. intros e (-> & ? & ?).
        repeat split; try done. by left. }
      assert (Hkeys1 : NoDup (map (fun e => (f e, i e)) recs1)).
      { apply (NoDup_fmap_1 snd). by rewrite <- list_fmap_compose. }
      destruct completed.
      * destruct (IH (acc ++ recs1) (io ++ [openEvent file]))
          as (recs2 & -> & Hall2 & Hnd2).
        exists (recs1 ++ recs2). rewrite <- (assoc_L (++)).
        split; [done|]. split; [apply Forall_app; auto|].
        intros Hnd. apply NoDup_cons in Hnd as [Hnotin Hnd].
        rewrite map_app. apply NoDup_app. split; [done|].
        split; [| by apply Hnd2].
        intros p Hp1 Hp2.
        apply list_elem_of_fmap in Hp1 as (e1 & -> & He1).
        apply list_elem_of_fmap in Hp2 as (e2 & Heq & He2).
        rewrite Forall_forall in Hall1, Hall2.
        destruct (Hall1 e1 He1) as (Hf1 & _).
        destruct (Hall2 e2 He2) as (Hf2 & _).
        injection Heq as Hf _. apply Hnotin. by rewrite <- Hf1, Hf.
      * exists recs1. simpl. auto.
    + destruct (IH acc io) as (recs & -> & Hall & Hnd).
      exists recs. split; [done|]. split; [auto|].
      intros Hnd'. apply NoDup_cons in Hnd' as [_ Hnd']. auto.
Qed.

(** X15. Every record of an index built by scanning, by actions.ts or by
    the script, names a file of the listing that passes the extension
    filter, holds in [n] the lowercased form of its display name [r], and
    has an offset that is not negative; the script, moreover, builds no
    record for the snapshot file. *)
Theorem built_records_are_well_formed (env : Env) (files : list string) :
  (forall e, e ∈ scanned (scanFiles env files [] []) ->
     f e ∈ files /\ isCorpusFile (f e) = true /\
     n e = toLowerCase (r e) /\ 0 <= i e) /\
  (forall idx, BuildIndexScript.scanFiles env files [] = Some idx ->
     forall e, e ∈ idx ->
       f e ∈ files /\ f e <> "search-index.json" /\
       isCorpusFile (f e) = true /\ n e = toLowerCase (r e) /\ 0 <= i e).
Proof.
  split.
  - destruct (scanFiles_records env files [] []) as (recs & -> & Hall & _).
    rewrite Forall_forall in Hall. exact Hall.
  - intros idx. rewrite (script_scan_filtered env files [] []). cbv zeta.
    destruct (scanFiles_records env
                (List.filter (fun g => negb (String.eqb g "search-index.json"))
                   files) [] []) as (recs & Hrecs & Hall & _).
    destruct (scanCompleted _); [| done]. intros [= <-] e He.
    rewrite Hrecs in He. rewrite Forall_forall in Hall.
    destruct (Hall e He) as (Hin & Hok & Hn & Hi).
    apply elem_of_filter_bool in Hin as [Hin Hsnap].
    repeat split; try done.
    intros Heq. rewrite Heq in Hsnap. done.
Qed.

(** X16. In a directory listing without repeated names, an index built by
    scanning, by actions.ts or by the script, holds no two records with the
    same file and the same offset: the pair locates one row. *)
Theorem built_offsets_are_unique (env : Env) (files : list string) :
  NoDup files ->
  NoDup (map (fun e => (f e, i e)) (scanned (scanFiles env files [] []))) /\
  (forall idx, BuildIndexScript.scanFiles env files [] = Some idx ->
     NoDup (map (fun e => (f e, i e)) idx)).
Proof.
  intros Hnd. split.
  - destruct (scanFiles_records env files [] []) as (recs & -> & _ & Hkeys).
    by apply Hkeys.
  - intros idx. rewrite (script_scan_filtered env files [] []). cbv zeta.
    destruct (scanFiles_records env
                (List.filter (fun g => negb (String.eqb g "search-index.json"))
                   files) [] []) as (recs & Hrecs & _ & Hkeys).
    destruct (scanCompleted _); [| done]. intros [= <-]. rewrite Hrecs.
    apply Hkeys. apply NoDup_ListNoDup, List.NoDup_filter.
    by apply NoDup_ListNoDup.
Qed.

Lemma built_offsets_are_unique_witness :
  NoDup (map (fun e => (f e, i e))
           (scanned (scanFiles Sample.failingEnv
                       ["later.csv"; "companies.csv"] [] []))).
Proof.
  destruct (built_offsets_are_unique Sample.failingEnv
              ["later.csv"; "companies.csv"]) as [Hunique _].
  - apply NoDup_cons. split; [| apply NoDup_singleton].
    rewrite list_elem_of_singleton. discriminate.
  - exact Hunique.
Defined.

(** ** Edge cases of the in-process build *)

Lemma scanFiles_app (env : Env) (l1 l2 : list string)
    (acc : list SearchIndex) (io : list Event) :
  scanFiles env (l1 ++ l2) acc io
  = if scanCompleted (scanFiles env l1 acc io)
    then scanFiles env l2 (scanned (scanFiles env l1 acc io))
           (scanIO (scanFiles env l1 acc io))
    else scanFiles env l1 acc io.
Proof.
  revert acc io. induction l1 as [|file rest IH]; intros acc io; [done|].
  simpl. destruct (isCorpusFile file); simpl; [| apply IH].
  destruct (processFile env file acc) as [acc' completed].
  destruct completed; [apply IH | done].
Qed.

(** X17. A file that throws while it is read ends the in-process build:
    the index is what was pushed up to the exception (the records of the
    files before it and the rows of the failing file read so far), the
    files after it in the listing are never opened, and the build still
    ends with the index set and the build flag cleared. *)
Theorem failing_file_ends_build `{Platform} (env : Env) (w : World)
    (before after : list string) (file : string) :
  GLOBAL_INDEX w = None -> IS_INDEXING w = false ->
  indexFileExists env = false ->
  dataDirExists env = true ->
  readdirSync env = Some (before ++ file :: after) ->
  scanCompleted (scanFiles env before [] []) = true ->
  isCorpusFile file = true ->
  (processFile env file (scanned (scanFiles env before [] []))).2 = false ->
  buildIndex env w
  = mkWorld _
      (Some (processFile env file (scanned (scanFiles env before [] []))).1)
      false (rateStore w)
      (trace w ++ [ExistsSync INDEX_FILE; ExistsSync DATA_DIR;
                   ReaddirSync DATA_DIR]
               ++ scanIO (scanFiles env before [] []) ++ [openEvent file]).
Proof.
  intros Hnone Hflag Hnosnap Hdir Hfiles Hbefore Hok Hfail.
  unfold buildIndex. rewrite Hnone, Hflag, Hnosnap. simpl.
  unfold fallbackBuild. rewrite Hdir, Hfiles. simpl.
  rewrite scanFiles_app, Hbefore. simpl. rewrite Hok. simpl.
  destruct (processFile env file _) as [acc' completed]. simpl in Hfail.
  subst completed. unfold setIndexing, setIndex, emit. simpl.
  by rewrite <- !(assoc_L (++)).
Qed.

Lemma failing_file_ends_build_witness :
  @buildIndex (Sample.platform 0) Sample.failingEnv (freshWorld ∅)
  = @mkWorld (Sample.platform 0)
      (Some (newIndex (indexCsvLines "companies.csv" Sample.acmeLines [])))
      false ∅
      [ExistsSync INDEX_FILE; ExistsSync DATA_DIR; ReaddirSync DATA_DIR;
       CreateReadStream (DataFile "companies.csv");
       ReadFileSync (DataFile "broken.xlsx")].
Proof.
  rewrite (@failing_file_ends_build (Sample.platform 0) Sample.failingEnv
             (freshWorld ∅) ["companies.csv"] ["later.csv"] "broken.xlsx");
    reflexivity.
Defined.

Lemma respond_on_empty_index `{Platform} (env : Env) (query : string)
    (isLoggedIn : bool) (remaining : Z) (w : World) :
  GLOBAL_INDEX w = Some [] ->
  searchIndexed env query isLoggedIn remaining w
  = (mkSearchResponse [] None (Some remaining) (Some isLoggedIn),
     emit [] w).
Proof.
  intros Hidx. unfold searchIndexed. rewrite Hidx. simpl. by rewrite Hidx.
Qed.

(** X18. Without a snapshot and without a data directory the in-process
    build sets an empty index, opens nothing, and returns with the build
    flag still set; the script, in the same situation, returns without
    writing. Every later search of a logged-in caller is then answered from
    the empty index: no results, [remaining = -1], and no build is tried
    again. *)
Theorem missing_data_directory `{Platform} (env : Env) (w : World) :
  GLOBAL_INDEX w = None -> IS_INDEXING w = false ->
  indexFileExists env = false ->
  dataDirExists env = false ->
  buildIndex env w
  = mkWorld _ (Some []) true (rateStore w)
      (trace w ++ [ExistsSync INDEX_FILE; ExistsSync DATA_DIR]) /\
  BuildIndexScript.buildIndex env = BuildIndexScript.NoDataDir /\
  forall env' query,
    isUserLoggedIn env' = true -> (2 <= String.length query)%nat ->
    searchCompanies env' query (buildIndex env w)
    = (mkSearchResponse [] None (Some (-1)) (Some true),
       emit [CallIsUserLoggedIn] (buildIndex env w)).
Proof.
  intros Hnone Hflag Hnosnap Hdir.
  assert (Hbuild : buildIndex env w
                   = mkWorld _ (Some []) true (rateStore w)
                       (trace w ++ [ExistsSync INDEX_FILE; ExistsSync DATA_DIR])).
  { unfold buildIndex. rewrite Hnone, Hflag, Hnosnap. simpl.
    unfold fallbackBuild. rewrite Hdir. simpl.
    unfold setIndexing, setIndex, emit. simpl.
    by rewrite <- !(assoc_L (++)). }
  split; [exact Hbuild|]. split.
  - unfold BuildIndexScript.buildIndex. by rewrite Hdir.
  - intros env' query Hpremium Hlen. rewrite Hbuild.
    unfold searchCompanies.
    rewrite (long_query_passes_guard query Hlen), Hpremium. simpl.
    rewrite respond_on_empty_index by done.
    unfold emit. simpl. by rewrite app_nil_r.
Qed.

Lemma missing_data_directory_witness :
  GLOBAL_INDEX (@buildIndex (Sample.platform 0) Sample.noDataDirEnv
                  (freshWorld ∅)) = Some [] /\
  IS_INDEXING (@buildIndex (Sample.platform 0) Sample.noDataDirEnv
                 (freshWorld ∅)) = true.
Proof.
  destruct (@missing_data_directory (Sample.platform 0) Sample.noDataDirEnv
              (freshWorld ∅)) as (Hbuild & _).
  - reflexivity.
  - reflexivity.
  - reflexivity.
  - reflexivity.
  - rewrite Hbuild. split; reflexivity.
Defined.

Lemma scanFiles_same_corpus (env env' : Env) (files : list string)
    (acc : list SearchIndex) (io : list Event) :
  readLines env' = readLines env -> sheetRows env' = sheetRows env ->
  scanFiles env' files acc io = scanFiles env files acc io.
Proof.
  intros Hlines Hrows. revert acc io.
  induction files as [|file rest IH]; intros acc io; simpl; [done|].
  destruct (isCorpusFile file); simpl; [| apply IH].
  unfold processFile. rewrite Hlines, Hrows.
  destruct (endsWith file ".csv").
  - destruct (readLines env file) as [lines fails].
    destruct (negb fails); [apply IH | done].
  - destruct (sheetRows env file); [apply IH | done].
Qed.

(** The index and the flag the fallback leaves. *)
Lemma fallbackBuild_result `{Platform} (env : Env) (w : World) :
  GLOBAL_INDEX (fallbackBuild env w)
  = Some (if dataDirExists env
          then match readdirSync env with
               | Some files => scanned (scanFiles env files [] [])
               | None => []
               end
          else []) /\
  IS_INDEXING (fallbackBuild env w)
  = if dataDirExists env then false else IS_INDEXING w.
Proof.
  unfold fallbackBuild. destruct (dataDirExists env); simpl; [| done].
  by destruct (readdirSync env).
Qed.

(** X19. The snapshot comes first. When the snapshot file exists and
    parses to records, the in-process build takes these records as the
    index and reads nothing else: the corpus is not consulted, whatever it
    holds. When the snapshot cannot be read or parsed, the build goes on
    to the data directory after the failed read: the index is what the
    scan of the listing gives (the listing as it is: the snapshot file in
    it is scanned like any other file with a corpus extension), empty when
    the directory is missing or cannot be listed, and the flag is cleared
    unless the directory is missing. *)
Theorem snapshot_comes_first `{Platform} (env : Env) (w : World) :
  GLOBAL_INDEX w = None -> IS_INDEXING w = false ->
  indexFileExists env = true ->
  (forall content records,
     indexFileContent env = Some content ->
     JSON_parse content = ParsedRecords records ->
     buildIndex env w
     = mkWorld _ (Some records) false (rateStore w)
         (trace w ++ [ExistsSync INDEX_FILE; ReadFileSync INDEX_FILE])) /\
  (indexFileContent env = None \/
   (exists content, indexFileContent env = Some content /\
                    JSON_parse content = ParseThrows) ->
   GLOBAL_INDEX (buildIndex env w)
   = Some (if dataDirExists env
           then match readdirSync env with
                | Some files => scanned (scanFiles env files [] [])
                | None => []
                end
           else []) /\
   IS_INDEXING (buildIndex env w) = negb (dataDirExists env) /\
   exists io,
     trace (buildIndex env w)
     = trace w ++ [ExistsSync INDEX_FILE; ReadFileSync INDEX_FILE;
                   ExistsSync DATA_DIR] ++ io).
Proof.
  intros Hnone Hflag Hexists. split.
  - intros content records Hcontent Hparse. unfold buildIndex.
    rewrite Hnone, Hflag, Hexists, Hcontent, Hparse. simpl.
    unfold setIndexing, setIndex, emit. simpl.
    by rewrite <- (assoc_L (++)).
  - intros Hbad.
    set (w2 := emit [ReadFileSync INDEX_FILE]
                 (emit [ExistsSync INDEX_FILE] (setIndexing true w))).
    assert (Hfall : buildIndex env w = fallbackBuild env w2).
    { unfold buildIndex. rewrite Hnone, Hflag, Hexists. simpl.
      by destruct Hbad as [-> | (content & -> & ->)]. }
    rewrite Hfall. destruct (fallbackBuild_result env w2) as [-> ->].
    split; [done|]. split; [by destruct (dataDirExists env)|].
    unfold fallbackBuild. destruct (dataDirExists env); simpl.
    + destruct (readdirSync env) as [files|]; simpl.
      * eexists. rewrite <- !(assoc_L (++)). simpl. reflexivity.
      * eexists. rewrite <- !(assoc_L (++)). simpl. reflexivity.
    + exists []. by rewrite <- !(assoc_L (++)).
Qed.

Lemma snapshot_comes_first_witness :
  GLOBAL_INDEX
    (@buildIndex (Sample.platform 0)
       (withSnapshot Sample.noDataDirEnv
          (Sample.JSON_stringify Sample.sixtyRecords))
       (freshWorld ∅))
  = Some Sample.sixtyRecords /\
  GLOBAL_INDEX
    (@buildIndex (Sample.platform 0) Sample.brokenSnapshotEnv (freshWorld ∅))
  = Some (scanned (scanFiles Sample.brokenSnapshotEnv
                     ["companies.csv"; "search-index.json"] [] [])) /\
  IS_INDEXING
    (@buildIndex (Sample.platform 0) Sample.brokenSnapshotEnv (freshWorld ∅))
  = false.
Proof.
  split.
  - destruct (@snapshot_comes_first (Sample.platform 0)
                (withSnapshot Sample.noDataDirEnv
                   (Sample.JSON_stringify Sample.sixtyRecords))
                (freshWorld ∅)) as [Hload _].
    + reflexivity.
    + reflexivity.
    + reflexivity.
    + rewrite (Hload (Sample.JSON_stringify Sample.sixtyRecords)
                 Sample.sixtyRecords); [reflexivity | reflexivity |].
      by vm_compute.
  - destruct (@snapshot_comes_first (Sample.platform 0)
                Sample.brokenSnapshotEnv (freshWorld ∅)) as [_ Hfall].
    + reflexivity.
    + reflexivity.
    + reflexivity.
    + destruct Hfall as (Hidx & Hflag & _).
      * right. exists Sample.brokenSnapshot. split; [reflexivity|].
        by vm_compute.
      * split; [exact Hidx | exact Hflag].
Defined.

(** X20. An anonymous caller that is allowed spends exactly one rate-limit
    check per call, made after the session check and before any file is
    touched, under the forwarded address or the loopback address when the
    header is missing or empty; the store is left as the check returned
    it. When the index is set after the build step the answer carries the
    remaining count of that check; when it is not, the answer is the bare
    empty result, and the check has been spent all the same. *)
Theorem allowed_caller_spends_one_check `{Platform} (env : Env)
    (query : string) (w : World) :
  (2 <= String.length query)%nat ->
  isUserLoggedIn env = false ->
  allowed (checkRateLimit (orElse (xForwardedFor env) "127.0.0.1")
             (rateStore w)).1 = true ->
  rateStore (searchCompanies env query w).2
  = (checkRateLimit (orElse (xForwardedFor env) "127.0.0.1") (rateStore w)).2 /\
  (exists evs,
     trace (searchCompanies env query w).2
     = trace w ++ [CallIsUserLoggedIn; CallHeaders;
                   CallCheckRateLimit (orElse (xForwardedFor env) "127.0.0.1")]
               ++ evs /\
     forallb isFileEvent evs = true) /\
  (GLOBAL_INDEX (searchCompanies env query w).2 <> None ->
   respError (searchCompanies env query w).1 = None /\
   respRemaining (searchCompanies env query w).1
   = Some (limitRemaining
             (checkRateLimit (orElse (xForwardedFor env) "127.0.0.1")
                (rateStore w)).1) /\
   respIsPremium (searchCompanies env query w).1 = Some false) /\
  (GLOBAL_INDEX (searchCompanies env query w).2 = None ->
   (searchCompanies env query w).1 = mkSearchResponse [] None None None).
Proof.
  intros Hlen Hanon Hallowed. unfold searchCompanies.
  rewrite (long_query_passes_guard query Hlen), Hanon. simpl.
  destruct (checkRateLimit _ (rateStore w)) as [limit store'] eqn:Hcheck.
  simpl in Hallowed. rewrite Hallowed. simpl.
  set (w2 := setRateStore store' _).
  destruct (searchIndexed_outcome env query false (limitRemaining limit) w2)
    as (Hstore & (evs & Htrace & Hevs) & Hnone & Hsome).
  split; [by rewrite Hstore|]. split; [| split; [exact Hsome | exact Hnone]].
  exists evs. rewrite Htrace. subst w2. simpl.
  by rewrite <- !(assoc_L (++)).
Qed.

Lemma allowed_caller_spends_one_check_witness :
  let out := @searchCompanies (Sample.platform 0) Sample.acmeEnv "acme"
               (freshWorld ∅) in
  rateStore out.2 = {[ "127.0.0.1" := (1, 0) ]} /\
  respRemaining out.1 = Some 9.
Proof.
  intros out.
  destruct (@allowed_caller_spends_one_check (Sample.platform 0)
              Sample.acmeEnv "acme" (freshWorld ∅))
    as (Hstore & _ & Hsome & _).
  - simpl. lia.
  - reflexivity.
  - reflexivity.
  - subst out. split; [rewrite Hstore; by vm_compute|].
    destruct Hsome as (_ & Hrem & _); [by vm_compute|].
    rewrite Hrem. reflexivity.
Defined.

(** ** Searching a ready index *)

Lemma searchIndexed_ready `{Platform} (env : Env) (query : string)
    (isLoggedIn : bool) (remaining : Z) (w : World) (idx : list SearchIndex) :
  GLOBAL_INDEX w = Some idx ->
  searchIndexed env query isLoggedIn remaining w
  = (mkSearchResponse
       (concat (map (fun g => resolveFile env g.1 g.2 [])
                  (groupByFile (matchPhase query idx))))
       None (Some remaining) (Some isLoggedIn),
     emit (map openEvent (firstOccurrences (map f (matchPhase query idx)))) w).
Proof.
  intros Hidx. unfold searchIndexed. rewrite Hidx. simpl. rewrite Hidx.
  fold (matchPhase query idx). rewrite resolveAll_concat. simpl.
  destruct (groupByFile_keys_values (matchPhase query idx)) as [<- _].
  by rewrite <- list_fmap_compose.
Qed.

(** X21. Once the index is set, it stays: no call of [searchCompanies],
    whatever the caller and the query, changes the records of the index or
    the build flag, and [buildIndex] has nothing left to do afterwards. *)
Theorem index_once_set_stays `{Platform} (env : Env) (query : string)
    (w : World) (idx : list SearchIndex) :
  GLOBAL_INDEX w = Some idx ->
  GLOBAL_INDEX (searchCompanies env query w).2 = Some idx /\
  IS_INDEXING (searchCompanies env query w).2 = IS_INDEXING w /\
  forall env',
    buildIndex env' (searchCompanies env query w).2
    = (searchCompanies env query w).2.
Proof.
  intros Hidx.
  assert (Hkeep : GLOBAL_INDEX (searchCompanies env query w).2 = Some idx /\
                  IS_INDEXING (searchCompanies env query w).2 = IS_INDEXING w).
  { unfold searchCompanies.
    destruct (negb (truthy query) || _)%bool; simpl; [done|].
    destruct (isUserLoggedIn env); simpl.
    - by rewrite (searchIndexed_ready env query true (-1) _ idx).
    - destruct (checkRateLimit _ _) as [limit store'].
      destruct (allowed limit); simpl; [| done].
      by rewrite (searchIndexed_ready env query false _ _ idx). }
  destruct Hkeep as [Hkeep1 Hkeep2]. split; [done|]. split; [done|].
  intros env'. apply buildIndex_noop. left. by rewrite Hkeep1.
Qed.

Lemma index_once_set_stays_witness :
  let w := @mkWorld (Sample.platform 0) (Some Sample.sixtyRecords) false ∅ [] in
  GLOBAL_INDEX (@searchCompanies (Sample.platform 0) Sample.acmeEnv "acme" w).2
  = Some Sample.sixtyRecords.
Proof.
  intros w.
  destruct (@index_once_set_stays (Sample.platform 0) Sample.acmeEnv "acme" w
              Sample.sixtyRecords) as [Hkeep _].
  - reflexivity.
  - exact Hkeep.
Defined.

(** X22. A logged-in search on a ready index, in full: it builds nothing
    and checks no quota; after the session check it opens one file for each
    file that has a matched entry, each once, in the order of first match;
    its answer is the rows of these files, file after file, with
    [remaining = -1] and [isPremium = true]. *)
Theorem ready_search_opens_matched_files `{Platform} (env : Env)
    (query : string) (w : World) (idx : list SearchIndex) :
  isUserLoggedIn env = true ->
  (2 <= String.length query)%nat ->
  GLOBAL_INDEX w = Some idx ->
  searchCompanies env query w
  = (mkSearchResponse
       (concat (map (fun g => resolveFile env g.1 g.2 [])
                  (groupByFile (matchPhase query idx))))
       None (Some (-1)) (Some true),
     emit (CallIsUserLoggedIn
             :: map openEvent (firstOccurrences (map f (matchPhase query idx))))
       w).
Proof.
  intros Hpremium Hlen Hidx. unfold searchCompanies.
  rewrite (long_query_passes_guard query Hlen), Hpremium. simpl.
  rewrite (searchIndexed_ready env query true (-1) _ idx) by done.
  f_equal. unfold emit. simpl. by rewrite <- (assoc_L (++)).
Qed.

Lemma ready_search_opens_matched_files_witness :
  let w := @mkWorld (Sample.platform 0) (Some Sample.sixtyRecords) false ∅ [] in
  trace (@searchCompanies (Sample.platform 0) Sample.acmePremiumEnv "acme" w).2
  = [CallIsUserLoggedIn; CreateReadStream (DataFile "companies.csv")].
Proof.
  intros w.
  rewrite (@ready_search_opens_matched_files (Sample.platform 0)
             Sample.acmePremiumEnv "acme" w Sample.sixtyRecords).
  - by vm_compute.
  - reflexivity.
  - simpl. lia.
  - reflexivity.
Defined.

(** ** The session actions *)

(** X23. The session actions touch one cookie only. A login with
    credentials that [verifyUser] rejects changes no cookie and answers
    [Invalid credentials]; an accepted login stores [premium_session] with
    the value [true], [httpOnly], a week of life, and [secure] exactly in
    production. Logging out removes that cookie and redirects to the root,
    so logging in and then out leaves the cookies as logging out alone
    does; no other cookie is changed by either action. *)
Theorem session_actions_touch_one_cookie
    (verifyUser : option string -> option string -> bool)
    (nodeEnv : option string) (formData : gmap string string)
    (cookieStore : gmap string Cookie) :
  (verifyUser (formData !! "username") (formData !! "password") = false ->
   loginAction verifyUser nodeEnv formData cookieStore
   = (mkLoginResult false (Some "Invalid credentials"), cookieStore)) /\
  (verifyUser (formData !! "username") (formData !! "password") = true ->
   (loginAction verifyUser nodeEnv formData cookieStore).1
   = mkLoginResult true None /\
   (loginAction verifyUser nodeEnv formData cookieStore).2 !! "premium_session"
   = Some (mkCookie "true" true (bool_decide (nodeEnv = Some "production"))
             604800)) /\
  (logoutAction (loginAction verifyUser nodeEnv formData cookieStore).2).1
  = (logoutAction cookieStore).1 /\
  (logoutAction cookieStore).1 !! "premium_session" = None /\
  (logoutAction cookieStore).2 = "/" /\
  forall k, k <> "premium_session" ->
    (loginAction verifyUser nodeEnv formData cookieStore).2 !! k
    = cookieStore !! k /\
    (logoutAction cookieStore).1 !! k = cookieStore !! k.
Proof.
  unfold loginAction, logoutAction.
  destruct (verifyUser _ _); simpl.
  - split; [done|]. split.
    { intros _. split; [done|]. by rewrite lookup_insert_eq. }
    split; [by rewrite delete_insert_eq|].
    split; [by rewrite lookup_delete_eq|]. split; [done|].
    intros k Hk. by rewrite lookup_insert_ne, lookup_delete_ne.
  - split; [done|]. split; [done|]. split; [done|].
    split; [by rewrite lookup_delete_eq|]. split; [done|].
    intros k Hk. by rewrite lookup_delete_ne.
Qed.

Lemma session_actions_touch_one_cookie_witness :
  (logoutAction
     (loginAction (fun _ _ => true) (Some "production") Sample.loginForm
        Sample.themeCookie).2).1
  = Sample.themeCookie.
Proof.
  destruct (session_actions_touch_one_cookie (fun _ _ => true)
              (Some "production") Sample.loginForm Sample.themeCookie)
    as (_ & _ & Hundo & _).
  rewrite Hundo. by vm_compute.
Defined.

(** ** Files and headers the build passes over *)

Lemma scanFiles_filtered (env : Env) (files : list string)
    (acc : list SearchIndex) (io : list Event) :
  scanFiles env files acc io
  = scanFiles env (List.filter isCorpusFile files) acc io.
Proof.
  revert acc io. induction files as [|file rest IH]; intros acc io; [done|].
  simpl. destruct (isCorpusFile file) eqn:Hok; simpl; [| apply IH].
  rewrite Hok. simpl. destruct (processFile env file acc) as [acc' completed].
  destruct completed; [apply IH | done].
Qed.

(** X24. The scan takes a file exactly when its name ends in [.csv],
    [.xlsx], [.xls] or [.json], in that spelling; every other entry of the
    listing is passed over without being opened, and the scan of a listing
    is the scan of its accepted files. *)
Theorem scan_takes_files_by_extension (env : Env) (files : list string)
    (acc : list SearchIndex) (io : list Event) :
  (forall file,
     isCorpusFile file = true <->
     endsWith file ".csv" = true \/ endsWith file ".xlsx" = true \/
     endsWith file ".xls" = true \/ endsWith file ".json" = true) /\
  scanFiles env files acc io
  = scanFiles env (List.filter isCorpusFile files) acc io /\
  forall ev, ev ∈ scanIO (scanFiles env files acc io) ->
    ev ∈ io \/ exists file, file ∈ files /\ isCorpusFile file = true /\
                            ev = openEvent file.
Proof.
  split; [apply isCorpusFile_extension|].
  split; [apply scanFiles_filtered|].
  apply scanFiles_opens_corpus_files.
Qed.

(** A name in capitals is not taken. *)
Example capital_extension_is_passed_over :
  isCorpusFile "COMPANIES.CSV" = false /\ isCorpusFile "companies.csv" = true.
Proof. by vm_compute. Qed.

Lemma findIndexFrom_none {A : Type} (p : A -> bool) (l : list A) (k : Z) :
  Forall (fun x => p x = false) l -> findIndexFrom p l k = -1.
Proof.
  intros Hall. revert k. induction Hall as [|x l Hx _ IH]; intros k; [done|].
  simpl. by rewrite Hx.
Qed.

(** X25. A delimited-text file whose header has no cell containing [name]
    (in any letter case) contributes no record at all, whatever its rows
    hold; its rows are counted all the same. *)
Theorem file_without_name_column_is_not_indexed (file hdr : string)
    (rows : list string) (acc : list SearchIndex) :
  Forall (fun h => includes (toLowerCase h) "name" = false) (cleanValues hdr) ->
  newIndex (indexCsvLines file (hdr :: rows) acc) = acc /\
  index (indexCsvLines file (hdr :: rows) acc) = Z.of_nat (length rows).
Proof.
  intros Hnone.
  destruct (indexCsvLines_file file hdr rows acc) as [Hcount ->].
  split; [| exact Hcount].
  assert (Hidx : findIndex (reTest true reName) (cleanValues hdr) = -1).
  { apply findIndexFrom_none. eapply Forall_impl; [exact Hnone|].
    intros h Hh. by destruct (header_patterns h) as (-> & _). }
  assert (Hempty : forall l : list string,
            collect (csvRowRecord file hdr) l = []).
  { intros l. unfold collect.
    induction l as [|line l IH] using rev_ind; [done|].
    rewrite imap_app, omap_app, IH. simpl.
    unfold csvRowRecord, recordAt. by rewrite Hidx. }
  by rewrite Hempty, app_nil_r.
Qed.

Lemma file_without_name_column_is_not_indexed_witness :
  newIndex (indexCsvLines "ids.csv" ["CIN,State"; "U1,MH"; "U2,DL"] []) = [] /\
  index (indexCsvLines "ids.csv" ["CIN,State"; "U1,MH"; "U2,DL"] []) = 2.
Proof.
  apply (file_without_name_column_is_not_indexed "ids.csv" "CIN,State"
           ["U1,MH"; "U2,DL"] []).
  repeat constructor.
Defined.

(** ** The two phases on the same row *)

Lemma findIndexFrom_first {A : Type} (p : A -> bool) (l : list A) (k : Z)
    (j : nat) (x : A) :
  l !! j = Some x -> p x = true ->
  (forall j' y, (j' < j)%nat -> l !! j' = Some y -> p y = false) ->
  findIndexFrom p l k = k + Z.of_nat j.
Proof.
  revert k j. induction l as [|y l IH]; intros k j Hj Hx Hbefore; [done|].
  destruct j as [|j]; simpl in *.
  - injection Hj as ->. rewrite Hx. lia.
  - rewrite (Hbefore 0%nat y) by (done || lia).
    rewrite (IH (k + 1) j Hj Hx); [lia|].
    intros j' y' Hj' Hy'. apply (Hbefore (S j') y'); [lia | done].
Qed.

(** X26. The index and the detail phase agree on the name of a row when
    the header of the file has no repeated cell and exactly one cell that
    contains [name] in any letter case, spelled [Name]: the [name] of the
    result row built for a data line is the display name [r] of the record
    the index holds for that line. *)
Theorem phases_agree_on_name (file hdr line : string) (k : nat)
    (e : SearchIndex) :
  NoDup (cleanValues hdr) ->
  "Name" ∈ cleanValues hdr ->
  (forall h, h ∈ cleanValues hdr ->
     includes (toLowerCase h) "name" = true -> h = "Name") ->
  csvRowRecord file hdr k line = Some e ->
  csvRowCompany file hdr k line !! "name" = Some (JString (r e)).
Proof.
  intros Hnd Hin Honly Hrec.
  apply list_elem_of_lookup in Hin as [j Hj].
  assert (Habsent : forall h, includes (toLowerCase h) "name" = true ->
                      h <> "Name" -> h ∉ cleanValues hdr).
  { intros h Hh Hne Hmem. by apply Hne, Honly. }
  assert (Hcol : findIndex (reTest true reName) (cleanValues hdr) = Z.of_nat j).
  { unfold findIndex.
    rewrite (findIndexFrom_first _ (cleanValues hdr) 0 j "Name" Hj);
      [lia | done |].
    intros j' y Hj' Hy. destruct (header_patterns y) as (-> & _).
    destruct (includes (toLowerCase y) "name") eqn:Hy'; [| done].
    assert (y = "Name") as -> by (apply Honly; [| done];
                                  by apply list_elem_of_lookup_2 in Hy).
    pose proof (NoDup_lookup _ _ _ _ Hnd Hj Hy). lia. }
  assert (Hr : r e = orElse (cleanValues line !! j) "Unknown").
  { unfold csvRowRecord, recordAt in Hrec. rewrite Hcol in Hrec.
    destruct (String.eqb _ "Unknown"); [done|]. injection Hrec as <-. simpl.
    unfold cellOr, jsNth.
    destruct (0 <=? Z.of_nat j) eqn:Hpos; [| apply Z.leb_gt in Hpos; lia].
    destruct (Z.of_nat j <? 0) eqn:Hneg; [apply Z.ltb_lt in Hneg; lia|].
    by rewrite Nat2Z.id. }
  unfold csvRowCompany.
  set (row := fillRow (cleanValues hdr) (cleanValues line) 0 ∅).
  assert (Hname : row !! "Name"
                  = Some (orElse (cleanValues line !! j) EmptyString)).
  { subst row. rewrite (fillRow_at _ _ 0 ∅ j "Name" Hnd Hj) by done.
    unfold jsNth. rewrite Z.add_0_l.
    destruct (Z.of_nat j <? 0) eqn:Hneg; [apply Z.ltb_lt in Hneg; lia|].
    by rewrite Nat2Z.id. }
  assert (Hother : row !! "CompanyName" = None /\
                   row !! "Company Name" = None /\ row !! "name" = None).
  { subst row. rewrite !fillRow_other; [done | | |]; by apply Habsent. }
  destruct Hother as (Hcn & Hcsn & Hlow).
  rewrite canonical_lookup by done.
  assert (Hrow : rowName row = Some (orElse (cleanValues line !! j) EmptyString)).
  { unfold rowName. by rewrite Hcn, Hcsn, Hname. }
  rewrite Hrow, Hr.
  destruct (cleanValues line !! j) as [[|a v]|]; done.
Qed.

Lemma phases_agree_on_name_witness :
  csvRowCompany "companies.csv" "Name,CIN,State,Status" 0
    "Acme Corp,CIN123,MH,Active" !! "name"
  = Some (JString "Acme Corp").
Proof.
  apply (phases_agree_on_name "companies.csv" "Name,CIN,State,Status"
           "Acme Corp,CIN123,MH,Active" 0
           (mkSearchIndex "acme corp" "CIN123" "MH" "Active" "companies.csv" 0
              "Acme Corp")).
  - apply (bool_decide_unpack _). by vm_compute.
  - apply (bool_decide_unpack _). by vm_compute.
  - intros h Hh. apply list_elem_of_In in Hh. vm_compute in Hh.
    destruct Hh as [<- | [<- | [<- | [<- | []]]]]; by vm_compute.
  - reflexivity.
Defined.

(** A header that spells the column in lower case: the index takes the
    cell as name, the detail phase does not find it. *)
Example phases_differ_on_lowercase_header :
  r <$> csvRowRecord "a.csv" "name,CIN" 0 "Acme,U1" = Some "Acme" /\
  csvRowCompany "a.csv" "name,CIN" 0 "Acme,U1" !! "name"
  = Some (JString "Acme") /\
  r <$> csvRowRecord "b.csv" "NAME,CIN" 0 "Acme,U1" = Some "Acme" /\
  csvRowCompany "b.csv" "NAME,CIN" 0 "Acme,U1" !! "name"
  = Some (JString "Unknown").
Proof. by vm_compute. Qed.
